(** * Rooted k-MST optimiser: a shallow embedding of [milp_kmst]

    The development follows [radical_kmst_network_optimizer.py]:
    - the distance oracle [_euclid] (numpy broadcasting subtraction and
      [np.hypot]) with the exceptions numpy raises on ill-shaped positions;
    - the candidate graph builder (node set, distances to the root, the pruned
      edge list of lines 39-53);
    - the model encoder (Gurobi variables, constraints, objective, branching
      priorities of lines 55-120), kept as syntax together with the meaning of a
      constraint under an assignment of rational values, and the two places
      where Gurobi refuses what it is given with a [GurobiError]: a parameter
      value outside its range (lines 58-59) and an objective coefficient that
      is infinite or not a number (line 85);
    - the solution decoder (lines 125-140);
    - [milp_kmst] itself, as a program tree whose nodes are the two effects of
      the function: printing a diagnostic and calling the solver.

    Coordinates and edge weights are IEEE binary64 numbers ([PrimFloat.float],
    what Python's [float] and numpy's [float64] are).  [np.hypot] belongs to the
    C library and is a parameter of the development, and so is the range
    check Gurobi makes on a parameter value.  The values a solver reports for
    the variables are taken as rationals.  [k] is a Python integer, here an
    integer of [Z]; an integer beyond the range of a C double, which Gurobi's
    interface would have to convert, is outside the development. *)

From Stdlib Require Import ZArith QArith Lqa String Ascii Floats.
From Stdlib Require Import DecimalString DecimalNat Classical_Prop.
From stdpp Require Import gmap strings list.

Close Scope Q_scope.

(** ** Exceptions and results *)

(** The exceptions the body of [milp_kmst] can raise before the solver is
    reached: numpy's [ValueError] (operands that do not broadcast), numpy's
    [TypeError] ([np.hypot] called with other than two arguments), Python's
    [KeyError] (a failed dictionary lookup) and gurobipy's [GurobiError] (a
    parameter value or an objective coefficient that Gurobi refuses). *)
Inductive exn := ValueError | TypeError | KeyError | GurobiError.

Inductive result (A : Type) : Type :=
| Ok (a : A)
| Err (e : exn).
Arguments Ok {A} a.
Arguments Err {A} e.

Definition rbind {A B} (r : result A) (f : A -> result B) : result B :=
  match r with
  | Ok a => f a
  | Err e => Err e
  end.

Notation "x <~ r ; k" := (rbind r (fun x => k))
  (at level 100, r at next level, k at level 200, right associativity,
   format "x  <~  r ;  '/' k").

(** A Python [for] loop whose body appends to one list: the body yields what
    it appends; an exception in the body ends the loop. *)
Fixpoint for_ {A B} (l : list A) (body : A -> result (list B)) : result (list B) :=
  match l with
  | [] => Ok []
  | x :: l' => r <~ body x; rs <~ for_ l' body; Ok (r ++ rs)
  end.

(** [enumerate(l)] *)
Definition enumerate {A} (l : list A) : list (nat * A) := imap pair l.

(** ** Nodes *)

(** A node is the root token ["C"] or an integer index into [coords]. *)
Inductive Node := C | Cand (i : nat).

#[global] Instance Node_eq_dec : EqDecision Node.
Proof. solve_decision. Defined.

#[global] Instance Node_countable : Countable Node.
Proof.
  refine (inj_countable' (fun n => match n with C => None | Cand i => Some i end)
                         (fun o => match o with None => C | Some i => Cand i end) _).
  by intros [].
Defined.

(** Python's [str] on a node: ["C"] itself, or the decimal numeral of an index. *)
Definition str (n : Node) : string :=
  match n with
  | C => "C"%string
  | Cand i => NilZero.string_of_uint (Nat.to_uint i)
  end.

(** A dictionary with [Node] keys built by a comprehension: a later entry
    replaces an earlier one with the same key. *)
Definition dict_of {A} (l : list (Node * A)) : gmap Node A :=
  foldl (fun m kv => <[kv.1 := kv.2]> m) ∅ l.

(** [d[key]] *)
Definition getitem {A} (d : gmap Node A) (key : Node) : result A :=
  match d !! key with
  | Some x => Ok x
  | None => Err KeyError
  end.

(** ** The distance oracle *)

(** A position is a one-dimensional numpy array of floats. *)
Definition Position := list float.

(** [a - b] on one-dimensional arrays: elementwise on equal lengths, a
    one-element array is broadcast, any other pair of shapes is a
    [ValueError]. *)
Definition np_sub (a b : Position) : result (list float) :=
  if decide (length a = length b) then Ok (zip_with PrimFloat.sub a b)
  else match a, b with
       | [x], _ => Ok (map (fun y => PrimFloat.sub x y) b)
       | _, [y] => Ok (map (fun x => PrimFloat.sub x y) a)
       | _, _ => Err ValueError
       end.

(** Python's [max(a, b)]: the second argument wins only when it is strictly
    greater ([b > a]); with a NaN the result depends on the order. *)
Definition pymax (a b : float) : float :=
  if PrimFloat.ltb a b then b else a.

Definition Edge : Type := Node * Node * float.

Section Oracle.

(** [np.hypot] on two floats. *)
Variable hypot : float -> float -> float.

(** [_euclid(a, b)]: the difference [a - b] is unpacked into the arguments of
    [np.hypot], which takes exactly two numbers (a third positional argument
    is its output array, and a float is refused there). *)
Definition _euclid (a b : Position) : result float :=
  d <~ np_sub a b;
  match d with
  | [x; y] => Ok (hypot x y)
  | _ => Err TypeError
  end.

(** ** Candidate graph builder (lines 39-53) *)

Definition root : Node := C.

(** [nodes = [root] + list(range(num_nodes))] *)
Definition nodes_of (num_nodes : nat) : list Node :=
  root :: map Cand (seq 0 num_nodes).

(** [node_positions = {root: c_coords, **{i: coords[i] for i in range(num_nodes)}}] *)
Definition node_positions_of (coords : list Position) (c_coords : Position)
  : gmap Node Position :=
  dict_of ((root, c_coords) :: imap (fun i p => (Cand i, p)) coords).

(** [distances_to_root = {node: _euclid(node_positions[node], node_positions[root]) for node in nodes}] *)
Definition distances_to_root_of (nodes : list Node) (node_positions : gmap Node Position)
  : result (gmap Node float) :=
  l <~ for_ nodes (fun node =>
         p <~ getitem node_positions node;
         r <~ getitem node_positions root;
         d <~ _euclid p r;
         Ok [(node, d)]);
  Ok (dict_of l).

(** The body of the inner loop (lines 51-53): what it appends to [edges]. *)
Definition edge_body (node_positions : gmap Node Position)
    (distances_to_root : gmap Node float) (node1 node2 : Node) : result (list Edge) :=
  p1 <~ getitem node_positions node1;
  p2 <~ getitem node_positions node2;
  edge_weight <~ _euclid p1 p2;
  keep <~ (if decide (node1 = root) then Ok true
           else if decide (node2 = root) then Ok true
           else d1 <~ getitem distances_to_root node1;
                d2 <~ getitem distances_to_root node2;
                Ok (PrimFloat.leb edge_weight (pymax d1 d2)));
  Ok (if keep : bool then [(node1, node2, edge_weight)] else []).

(** The double loop of lines 48-53. *)
Definition edges_of (nodes : list Node) (node_positions : gmap Node Position)
    (distances_to_root : gmap Node float) : result (list Edge) :=
  for_ (enumerate nodes) (fun '(i, node1) =>
    for_ (drop (i + 1) nodes) (fun node2 =>
      edge_body node_positions distances_to_root node1 node2)).

(** Lines 39-53 together: the pruned edge list of an accepted input. *)
Definition pruned_edges (coords : list Position) (c_coords : Position)
  : result (list Edge) :=
  let num_nodes := length coords in
  let nodes := nodes_of num_nodes in
  let node_positions := node_positions_of coords c_coords in
  distances_to_root <~ distances_to_root_of nodes node_positions;
  edges_of nodes node_positions distances_to_root.

End Oracle.

(** ** Model encoder (lines 55-120) *)

(** A Gurobi variable is identified by the dictionary it is stored in and its
    key there, which is also what its name is built from: [arc_variables[(n1,
    n2)]] is named [arc_n1_n2], [flow_variables[(n1, n2)]] is [flow_n1_n2], and
    [node_variables[n]] is [node[n]].  The pruned edge list never repeats a
    pair of endpoints ([pruned_edges_keys_NoDup] below), so no key is ever assigned
    twice. *)
Inductive Var :=
| arc_var (node1 node2 : Node)
| flow_var (node1 node2 : Node)
| node_var (node : Node).

#[global] Instance Var_eq_dec : EqDecision Var.
Proof. solve_decision. Defined.

(** What [addVar] declares: a binary variable, or a continuous one with
    bounds [lb] and [ub]. *)
Inductive VarDecl :=
| BINARY (v : Var) (name : string)
| CONTINUOUS (v : Var) (lb ub : Z) (name : string).

(** Linear expressions as the code writes them. *)
Inductive LinExpr :=
| LVar (v : Var)
| LConst (c : Z)
| LAdd (a b : LinExpr)
| LSub (a b : LinExpr)
| LMul (c : Z) (a : LinExpr)
| quicksum (vs : list Var).

Inductive Sense := LE | EQ.

(** [model.addConstr(lhs <= rhs, name=...)] and [model.addConstr(lhs == rhs, name=...)] *)
Record Constr := addConstr {
  lhs : LinExpr;
  sense : Sense;
  rhs : LinExpr;
  cname : string
}.

Record Params := {
  OutputFlag : Z;
  MIPGap : float;
  TimeLimit : float;
  VarBranch : Z
}.

Record Model := {
  params : Params;
  Vars : list VarDecl;
  Constrs : list Constr;
  (** the terms [weight * e] of the objective, to be minimised *)
  Objective : list (float * LinExpr);
  BranchPriority : list (Var * Z)
}.

(** The f-string name [prefix_{a}_{b}]. *)
Definition name2 (prefix : string) (a b : Node) : string :=
  prefix +:+ "_" +:+ str a +:+ "_" +:+ str b.

(** The keys of [arc_variables] (and of [flow_variables]) in insertion order. *)
Definition arc_keys (edges : list Edge) : list (Node * Node) :=
  flat_map (fun '(node1, node2, _) => [(node1, node2); (node2, node1)]) edges.

(** Lines 69-73: four variables for each edge. *)
Definition edge_vars (k : Z) (e : Edge) : list VarDecl :=
  let '(node1, node2, _) := e in
  [ BINARY (arc_var node1 node2) (name2 "arc" node1 node2);
    BINARY (arc_var node2 node1) (name2 "arc" node2 node1);
    CONTINUOUS (flow_var node1 node2) 0 (k - 1) (name2 "flow" node1 node2);
    CONTINUOUS (flow_var node2 node1) 0 (k - 1) (name2 "flow" node2 node1) ].

(** Lines 75-79: orientation exclusivity and the two flow capacities. *)
Definition edge_constrs (k : Z) (e : Edge) : list Constr :=
  let '(node1, node2, _) := e in
  [ addConstr (LAdd (LVar (arc_var node1 node2)) (LVar (arc_var node2 node1)))
              LE (LConst 1) (name2 "one_dir" node1 node2);
    addConstr (LVar (flow_var node1 node2))
              LE (LMul (k - 1) (LVar (arc_var node1 node2))) (name2 "flow_cap" node1 node2);
    addConstr (LVar (flow_var node2 node1))
              LE (LMul (k - 1) (LVar (arc_var node2 node1))) (name2 "flow_cap" node2 node1) ].

(** Lines 94-97: an arc needs both endpoints of its edge. *)
Definition endpoint_constrs (e : Edge) : list Constr :=
  let '(node1, node2, _) := e in
  flat_map (fun arc : Node * Node =>
    [ addConstr (LVar (arc_var arc.1 arc.2)) LE (LVar (node_var node1))
                (name2 "arc_node1" arc.1 arc.2);
      addConstr (LVar (arc_var arc.1 arc.2)) LE (LVar (node_var node2))
                (name2 "arc_node2" arc.1 arc.2) ])
    [(node1, node2); (node2, node1)].

(** Lines 101-105: net outflow of the root. *)
Definition root_flow (nodes : list Node) (flow_variables : list (Node * Node)) (k : Z) : Constr :=
  addConstr
    (LSub (quicksum (map (fun n => flow_var C n)
                      (filter (fun n => n ≠ C ∧ (C, n) ∈ flow_variables) nodes)))
          (quicksum (map (fun n => flow_var n C)
                      (filter (fun n => n ≠ C ∧ (n, C) ∈ flow_variables) nodes))))
    EQ (LConst (k - 1)) "root_flow".

(** Lines 108-113: net inflow of candidate [node2]. *)
Definition flow_cons (nodes : list Node) (flow_variables : list (Node * Node)) (node2 : nat) : Constr :=
  let inflow := quicksum (map (fun node1 => flow_var node1 (Cand node2))
                  (filter (fun node1 => node1 ≠ Cand node2 ∧ (node1, Cand node2) ∈ flow_variables) nodes)) in
  let outflow := quicksum (map (fun node1 => flow_var (Cand node2) node1)
                  (filter (fun node1 => node1 ≠ Cand node2 ∧ (Cand node2, node1) ∈ flow_variables) nodes)) in
  addConstr (LSub inflow outflow) EQ (LVar (node_var (Cand node2)))
            ("flow_cons_" +:+ str (Cand node2)).

(** Lines 116-120: priority 10 for an arc with ["C"] among its two ends. *)
Definition branch_priority (arc : Node * Node) : Var * Z :=
  (arc_var arc.1 arc.2, if decide (C ∈ [arc.1; arc.2]) then 10%Z else 0%Z).

(** The model as it stands when [model.optimize()] is called; variables and
    constraints are listed in the order they are added. *)
Definition build_model (edges : list Edge) (num_nodes : nat) (k : Z)
    (mip_gap time_limit : float) : Model :=
  let nodes := nodes_of num_nodes in
  let arc_variables := arc_keys edges in
  let flow_variables := arc_keys edges in
  {| params := {| OutputFlag := 1; MIPGap := mip_gap; TimeLimit := time_limit; VarBranch := 2 |};
     Vars := flat_map (edge_vars k) edges
             ++ map (fun n => BINARY (node_var n) ("node[" +:+ str n +:+ "]")) nodes;
     Constrs :=
       flat_map (edge_constrs k) edges
       ++ [ addConstr (LVar (node_var C)) EQ (LConst 1) "root_selected" ]
       ++ [ addConstr (quicksum (map (fun i => node_var (Cand i)) (seq 0 num_nodes)))
                      EQ (LConst (k - 1)) "k_nodes";
            addConstr (quicksum (map (fun arc : Node * Node => arc_var arc.1 arc.2) arc_variables))
                      EQ (LConst (k - 1)) "k_edges" ]
       ++ flat_map endpoint_constrs edges
       ++ [ root_flow nodes flow_variables k ]
       ++ map (flow_cons nodes flow_variables) (seq 0 num_nodes);
     Objective :=
       map (fun '(node1, node2, weight) =>
              (weight, LAdd (LVar (arc_var node1 node2)) (LVar (arc_var node2 node1)))) edges;
     BranchPriority := map branch_priority arc_variables |}.

(** *** Meaning of a model under an assignment *)

Definition Qsum (l : list Q) : Q := foldr Qplus 0%Q l.

Fixpoint eval (X : Var -> Q) (e : LinExpr) : Q :=
  match e with
  | LVar v => X v
  | LConst c => inject_Z c
  | LAdd a b => (eval X a + eval X b)%Q
  | LSub a b => (eval X a - eval X b)%Q
  | LMul c a => (inject_Z c * eval X a)%Q
  | quicksum vs => Qsum (map X vs)
  end.

Definition holds (X : Var -> Q) (c : Constr) : Prop :=
  match sense c with
  | LE => (eval X (lhs c) <= eval X (rhs c))%Q
  | EQ => (eval X (lhs c) == eval X (rhs c))%Q
  end.

Definition holdsb (X : Var -> Q) (c : Constr) : bool :=
  match sense c with
  | LE => Qle_bool (eval X (lhs c)) (eval X (rhs c))
  | EQ => Qeq_bool (eval X (lhs c)) (eval X (rhs c))
  end.

Definition respects (X : Var -> Q) (d : VarDecl) : Prop :=
  match d with
  | BINARY v _ => (X v == 0 \/ X v == 1)%Q
  | CONTINUOUS v lb ub _ => (inject_Z lb <= X v /\ X v <= inject_Z ub)%Q
  end.

Definition respectsb (X : Var -> Q) (d : VarDecl) : bool :=
  match d with
  | BINARY v _ => Qeq_bool (X v) 0 || Qeq_bool (X v) 1
  | CONTINUOUS v lb ub _ => Qle_bool (inject_Z lb) (X v) && Qle_bool (X v) (inject_Z ub)
  end.

(** A feasible assignment: every variable within its declaration, every
    constraint satisfied. *)
Definition feasible (m : Model) (X : Var -> Q) : Prop :=
  Forall (respects X) (Vars m) /\ Forall (holds X) (Constrs m).

Definition feasibleb (m : Model) (X : Var -> Q) : bool :=
  forallb (respectsb X) (Vars m) && forallb (holdsb X) (Constrs m).

(** ** Solver adapter *)

(** What the code reads from the model after [model.optimize()]: the number of
    solutions found and, when there is one, the value [.X] of each variable. *)
Record Solution := {
  SolCount : nat;
  X : Var -> Q
}.

(** ** Solution decoder (lines 125-140) *)

(** [value > 0.5] *)
Definition gt_half (value : Q) : bool := negb (Qle_bool value (1 # 2)).

(** [tuple(sorted((node1, node2), key=str))]: the sort is stable, so the pair
    is swapped only when the second key is strictly smaller. *)
Definition edge_key (node1 node2 : Node) : Node * Node :=
  if String.ltb (str node2) (str node1) then (node2, node1) else (node1, node2).

(** One round of the loop of lines 133-138 on [(selected_edges, seen_edges)]. *)
Definition decode_step (X : Var -> Q) (st : list Edge * gset (Node * Node)) (e : Edge)
  : list Edge * gset (Node * Node) :=
  let '(selected_edges, seen_edges) := st in
  let '(node1, node2, weight) := e in
  if gt_half (X (arc_var node1 node2)) || gt_half (X (arc_var node2 node1)) then
    if decide (edge_key node1 node2 ∈ seen_edges) then st
    else (selected_edges ++ [(node1, node2, weight)], seen_edges ∪ {[edge_key node1 node2]})
  else st.

Definition decode_edges (edges : list Edge) (X : Var -> Q) : list Edge :=
  (foldl (decode_step X) ([], ∅) edges).1.

(** Line 129. *)
Definition decode_nodes (num_nodes : nat) (X : Var -> Q) : list Node :=
  C :: map Cand (filter (fun i => gt_half (X (node_var (Cand i))) = true) (seq 0 num_nodes)).

(** ** The program *)

(** [milp_kmst] prints diagnostics and calls the solver once; both are kept as
    nodes of the program, so that a run shows whether and with which model the
    solver was called. *)
Inductive prog (A : Type) : Type :=
| Ret (a : A)
| Raise (e : exn)
| Print (msg : string) (k : prog A)
| Optimize (m : Model) (k : Solution -> prog A).
Arguments Ret {A} a.
Arguments Raise {A} e.
Arguments Print {A} msg k.
Arguments Optimize {A} m k.

Inductive event :=
| Printed (msg : string)
| Optimized (m : Model).

(** Running a program against a solver: the events in order, and how the
    program ended. *)
Fixpoint run {A} (solver : Model -> Solution) (p : prog A) : list event * result A :=
  match p with
  | Ret a => ([], Ok a)
  | Raise e => ([], Err e)
  | Print msg k => let '(t, r) := run solver k in (Printed msg :: t, r)
  | Optimize m k => let '(t, r) := run solver (k (solver m)) in (Optimized m :: t, r)
  end.

Definition is_Optimized (ev : event) : bool :=
  match ev with
  | Optimized _ => true
  | Printed _ => false
  end.

(** The number of solver calls in a run. *)
Definition solver_calls (t : list event) : nat := length (filter (fun ev => is_Optimized ev = true) t).

Definition Result : Type := list Node * list Edge.

Definition no_candidates_msg : string := "No candidate nodes provided.".
Definition capacity_msg : string :=
  "Current version of model only supports up to 1500 nodes. Please use smaller node number for this model.".

(** The f-string of line 36. *)
Definition not_feasible_msg (num_nodes : nat) (k : Z) : string :=
  "This is not feasible, design for total " +:+ NilZero.string_of_uint (Nat.to_uint num_nodes)
  +:+ " nodes instead of " +:+ NilZero.string_of_int (Z.to_int k).

(** Lines 34-37: the value of [k] after the feasibility check. *)
Definition clamp_k (k : Z) (num_nodes : nat) : Z :=
  if (Z.of_nat num_nodes <? k)%Z then Z.of_nat num_nodes else k.

(** Line 85: [model.setObjective] takes the weights of the edges as the
    coefficients of the objective, and Gurobi refuses a coefficient that is
    infinite or not a number. *)
Definition finite_weights (edges : list Edge) : bool :=
  forallb (fun '(_, _, weight) => PrimFloat.is_finite weight) edges.

Section Entry.

Variable hypot : float -> float -> float.

(** [model.Params.<name> = value]: Gurobi checks the value against the range
    of the parameter and refuses it outside.  The check belongs to Gurobi. *)
Variable param_in_range : string -> float -> bool.

(** Lines 58-59: both parameters are taken. *)
Definition params_accepted (mip_gap time_limit : float) : bool :=
  param_in_range "MIPGap" mip_gap && param_in_range "TimeLimit" time_limit.

(** Lines 122-140: solve and extract. *)
Definition solve_and_extract (edges : list Edge) (num_nodes : nat) (m : Model) : prog Result :=
  Optimize m (fun sol =>
    if decide (SolCount sol = 0) then Ret ([C], [])
    else Ret (decode_nodes num_nodes (X sol), decode_edges edges (X sol))).

(** Lines 39-140, with [k] already clamped: the pruned edge list, on which
    numpy may raise; the parameters (lines 58-59) and the objective (line 85),
    on which Gurobi may raise; then the solver. *)
Definition build_and_solve (coords : list Position) (c_coords : Position) (k : Z)
    (mip_gap time_limit : float) : prog Result :=
  let num_nodes := length coords in
  match pruned_edges hypot coords c_coords with
  | Err e => Raise e
  | Ok edges =>
    if negb (params_accepted mip_gap time_limit) then Raise GurobiError
    else if negb (finite_weights edges) then Raise GurobiError
    else solve_and_extract edges num_nodes (build_model edges num_nodes k mip_gap time_limit)
  end.

Definition milp_kmst (coords : list Position) (c_coords : Position) (k : Z)
    (mip_gap time_limit : float) : prog Result :=
  let num_nodes := length coords in
  if decide (num_nodes = 0 \/ 1500 < num_nodes) then
    Print (if decide (num_nodes = 0) then no_candidates_msg else capacity_msg)
          (Ret ([], []))
  else if (Z.of_nat num_nodes <? k)%Z then
    Print (not_feasible_msg num_nodes k)
          (build_and_solve coords c_coords (Z.of_nat num_nodes) mip_gap time_limit)
  else build_and_solve coords c_coords k mip_gap time_limit.

End Entry.

(** ** Notions used in the statements *)

(** Every position has two components. *)
Definition well_shaped (coords : list Position) (c_coords : Position) : Prop :=
  length c_coords = 2 /\ Forall (fun p : Position => length p = 2) coords.

(** The model a program hands to the solver, if it gets there. *)
Fixpoint model_of {A} (p : prog A) : option Model :=
  match p with
  | Print _ k => model_of k
  | Optimize m _ => Some m
  | Ret _ | Raise _ => None
  end.

(** [x] is a node of an instance with [num_nodes] candidates. *)
Definition is_node (num_nodes : nat) (x : Node) : Prop :=
  match x with
  | C => True
  | Cand i => i < num_nodes
  end.

(** [a] comes before [b] in [nodes]: the root first, then the candidates by
    increasing index. *)
Definition precedes (a b : Node) : Prop :=
  match a, b with
  | C, Cand _ => True
  | Cand i, Cand j => i < j
  | _, C => False
  end.

(** Two ordered pairs with the same two endpoints. *)
Definition same_pair (a b : Node * Node) : Prop :=
  a = b \/ a = (b.2, b.1).

Definition endpoints (e : Edge) : Node * Node := e.1.

(** The key under which the decoder remembers an edge. *)
Definition ekey (e : Edge) : Node * Node := edge_key e.1.1 e.1.2.

(** The test of line 134 on an edge. *)
Definition selects (X : Var -> Q) (e : Edge) : bool :=
  gt_half (X (arc_var e.1.1 e.1.2)) || gt_half (X (arc_var e.1.2 e.1.1)).

(** The edge tuple the loop of lines 48-53 appends for [node1], [node2], if
    any: its weight is the distance of the two positions, and it is kept when
    an endpoint is the root or the weight is at most the larger distance to
    the root. *)
Definition kept (hypot : float -> float -> float) (node_positions : gmap Node Position)
    (distances_to_root : gmap Node float) (node1 node2 : Node) (weight : float) : Prop :=
  exists p1 p2,
    node_positions !! node1 = Some p1 /\ node_positions !! node2 = Some p2 /\
    _euclid hypot p1 p2 = Ok weight /\
    (node1 = root \/ node2 = root \/
     exists d1 d2, distances_to_root !! node1 = Some d1 /\ distances_to_root !! node2 = Some d2 /\
                   PrimFloat.leb weight (pymax d1 d2) = true).

(** *** The pruning rule in the words of the specification *)

(** Where a node lies: the root at [c_coords], candidate [i] at [coords[i]]. *)
Definition position (coords : list Position) (c_coords : Position) (n : Node)
  : option Position :=
  match n with
  | C => Some c_coords
  | Cand i => coords !! i
  end.

(** The Euclidean distance from one point of the plane to another. *)
Definition distance (hypot : float -> float -> float) (p q : Position) : option float :=
  match p, q with
  | [x1; y1], [x2; y2] => Some (hypot (x1 - x2) (y1 - y2))%float
  | _, _ => None
  end.

(** The distance of a node to the root. *)
Definition distance_to_root (hypot : float -> float -> float) (coords : list Position)
    (c_coords : Position) (n : Node) : option float :=
  p ← position coords c_coords n; distance hypot p c_coords.

(** [w <= max(d1, d2)] on numbers: [w] is at most one of the two. *)
Definition at_most_max (w d1 d2 : float) : Prop :=
  PrimFloat.leb w d1 = true \/ PrimFloat.leb w d2 = true.

(** The rule of the candidate graph builder: the pair of [n1] and [n2] is
    kept, with weight [w], when [w] is the distance of the two and an endpoint
    is the root or [w] is at most the larger of the two distances to the
    root. *)
Definition spec_kept (hypot : float -> float -> float) (coords : list Position)
    (c_coords : Position) (n1 n2 : Node) (w : float) : Prop :=
  (exists p1 p2, position coords c_coords n1 = Some p1 /\
                 position coords c_coords n2 = Some p2 /\
                 distance hypot p1 p2 = Some w) /\
  (n1 = C \/ n2 = C \/
   exists d1 d2, distance_to_root hypot coords c_coords n1 = Some d1 /\
                 distance_to_root hypot coords c_coords n2 = Some d2 /\
                 at_most_max w d1 d2).

(** The distance of a node to the root is a number. *)
Definition root_distance_is_number (hypot : float -> float -> float) (coords : list Position)
    (c_coords : Position) (n : Node) : Prop :=
  exists d, distance_to_root hypot coords c_coords n = Some d /\ PrimFloat.is_nan d = false.

(** The terms of the objective in the words of the specification: every
    edge of the list with its weight, on its two arcs. *)
Definition spec_objective (edges : list Edge) : list (float * LinExpr) :=
  (fun e : Edge => (e.2, LAdd (LVar (arc_var e.1.1 e.1.2)) (LVar (arc_var e.1.2 e.1.1)))) <$> edges.

(** What the encoder relies on: the endpoints of an edge are two different
    nodes of the instance, and no two edges have the same endpoints. *)
Definition wf_edges (num_nodes : nat) (edges : list Edge) : Prop :=
  NoDup (ekey <$> edges) /\
  forall e, e ∈ edges -> is_node num_nodes e.1.1 /\ is_node num_nodes e.1.2 /\ e.1.1 <> e.1.2.

(** *** The constraint set in the words of the specification *)

Section SpecConstraints.

Variables (edges : list Edge) (num_nodes : nat) (k : Z) (X : Var -> Q).

(** The arcs: the two orientations of every pruned edge. *)
Definition arcs : list (Node * Node) :=
  flat_map (fun e : Edge => [(e.1.1, e.1.2); (e.1.2, e.1.1)]) edges.

(** Flow leaving and entering a node, over the arcs that exist. *)
Definition flow_out (v : Node) : Q :=
  Qsum (map (fun a : Node * Node => X (flow_var a.1 a.2)) (filter (fun a : Node * Node => a.1 = v) arcs)).
Definition flow_in (v : Node) : Q :=
  Qsum (map (fun a : Node * Node => X (flow_var a.1 a.2)) (filter (fun a : Node * Node => a.2 = v) arcs)).

Record spec_constraints : Prop := {
  orientation_exclusivity :
    forall e, e ∈ edges -> (X (arc_var e.1.1 e.1.2) + X (arc_var e.1.2 e.1.1) <= 1)%Q;
  flow_capacity_linkage :
    forall a, a ∈ arcs -> (X (flow_var a.1 a.2) <= inject_Z (k - 1) * X (arc_var a.1 a.2))%Q;
  root_fixed :
    (X (node_var C) == 1)%Q;
  cardinality_nodes :
    (Qsum (map (fun i => X (node_var (Cand i))) (seq 0 num_nodes)) == inject_Z (k - 1))%Q;
  cardinality_arcs :
    (Qsum (map (fun a : Node * Node => X (arc_var a.1 a.2)) arcs) == inject_Z (k - 1))%Q;
  arc_implies_endpoints :
    forall a, a ∈ arcs ->
      (X (arc_var a.1 a.2) <= X (node_var a.1))%Q /\ (X (arc_var a.1 a.2) <= X (node_var a.2))%Q;
  flow_conservation_root :
    (flow_out C - flow_in C == inject_Z (k - 1))%Q;
  flow_conservation_non_root :
    forall i, i < num_nodes -> (flow_in (Cand i) - flow_out (Cand i) == X (node_var (Cand i)))%Q
}.

End SpecConstraints.

(** *** Trees *)

(** Reachability from the root along arcs whose variable is above 0.5. *)
Inductive reach (edges : list Edge) (X : Var -> Q) : Node -> Prop :=
| reach_root : reach edges X C
| reach_arc (u v : Node) :
    reach edges X u -> (u, v) ∈ arcs edges -> gt_half (X (arc_var u v)) = true ->
    reach edges X v.

(** Connection to the root through the edges of a result, in either
    direction. *)
Inductive connected (selected_edges : list Edge) : Node -> Prop :=
| connected_root : connected selected_edges C
| connected_edge (u v : Node) (w : float) :
    connected selected_edges u ->
    (u, v, w) ∈ selected_edges \/ (v, u, w) ∈ selected_edges ->
    connected selected_edges v.

(** ** Notions used in the further properties *)

(** The shapes on which a distance can be computed. *)
Definition shapes_ok (a b : Position) : Prop :=
  (length a = 2 /\ length b = 2) \/ (length a = 1 /\ length b = 2) \/
  (length a = 2 /\ length b = 1).

(** The shapes on which the graph builder goes through: a root of two
    components, candidates of one or two, and no two candidates of one. *)
Definition shapes_accepted (coords : list Position) (c_coords : Position) : Prop :=
  length c_coords = 2 /\
  Forall (fun p : Position => length p = 1 \/ length p = 2) coords /\
  forall i j p q, i < j -> coords !! i = Some p -> coords !! j = Some q ->
    ~ (length p = 1 /\ length q = 1).

(** The variable a declaration introduces. *)
Definition declared_var (d : VarDecl) : Var :=
  match d with
  | BINARY v _ => v
  | CONTINUOUS v _ _ _ => v
  end.

(** The variables a linear expression mentions. *)
Fixpoint expr_vars (e : LinExpr) : list Var :=
  match e with
  | LVar v => [v]
  | LConst _ => []
  | LAdd a b | LSub a b => expr_vars a ++ expr_vars b
  | LMul _ a => expr_vars a
  | quicksum vs => vs
  end.

Definition constr_vars (c : Constr) : list Var := expr_vars (lhs c) ++ expr_vars (rhs c).

(** ** Saving a result ([save_kmst_results], lines 142-195) *)

(** The shapely geometries the function builds. *)
Inductive Geometry :=
| Point (x y : float)
| LineString (p1 p2 : float * float).

(** A row of the node frame: its geometry and its properties. *)
Record NodeFeature := {
  nf_geometry : Geometry;
  nf_node_id : Node;
  nf_selected : bool
}.

(** A row of the edge frame. *)
Record EdgeFeature := {
  ef_geometry : Geometry;
  ef_node1 : Node;
  ef_node2 : Node;
  ef_weight : float
}.

(** A Python number: [sum] starts from the integer 0. *)
Inductive PyNum :=
| PyInt (z : Z)
| PyFloat (f : float).

(** [sum(weights)]: the integer 0 on no weight, else the floats added from
    the left to 0. *)
Definition py_sum (ws : list float) : PyNum :=
  match ws with
  | [] => PyInt 0
  | _ => PyFloat (foldl PrimFloat.add 0%float ws)
  end.

(** The values the f-string of line 191 formats, in its order. *)
Record Summary := {
  summary_k : Z;
  nodes_selected : nat;
  edges_selected : nat;
  total_weight : PyNum;
  summary_c_coords : Position
}.

(** What the function does to the file system and the terminal; a path is
    the folder and the file name that [os.path.join] is given. *)
Inductive io_event :=
| MakeDirs (folder : string)
| NodesToFile (folder file : string) (rows : list NodeFeature)
| EdgesToFile (folder file : string) (rows : list EdgeFeature)
| WriteSummary (folder file : string) (s : Summary)
| PrintSaved (msg : string).

(** How the function ends: it returns, or an index is out of range. *)
Inductive save_outcome := Saved | IndexError.

(** [(p[0], p[1])] *)
Definition getxy (p : Position) : option (float * float) :=
  match p with
  | x :: y :: _ => Some (x, y)
  | _ => None
  end.

(** [set(int(n) for n in selected_nodes if n != 'C')] *)
Definition selected_set_of (selected_nodes : list Node) : gset nat :=
  list_to_set (omap (fun n => match n with C => None | Cand i => Some i end) selected_nodes).

(** The body of the loop of lines 150-153. *)
Definition node_feature (selected_set : gset nat) (ip : nat * Position) : option NodeFeature :=
  xy ← getxy ip.2;
  Some {| nf_geometry := Point xy.1 xy.2;
          nf_node_id := Cand ip.1;
          nf_selected := bool_decide (ip.1 ∈ selected_set) |}.

(** Lines 148-158: the rows of the node frame, the root last. *)
Definition nodes_features_of (selected_nodes : list Node) (coords : list Position)
    (c_coords : Position) : option (list NodeFeature) :=
  let selected_set := selected_set_of selected_nodes in
  rows ← mapM (node_feature selected_set) (enumerate coords);
  xy ← getxy c_coords;
  Some (rows ++ [{| nf_geometry := Point xy.1 xy.2; nf_node_id := C; nf_selected := true |}]).

(** Lines 172-179: the position of an endpoint. *)
Definition endpoint_position (coords : list Position) (c_coords : Position) (n : Node)
  : option Position :=
  match n with
  | C => Some c_coords
  | Cand i => coords !! i
  end.

(** The body of the loop of lines 169-182. *)
Definition edge_feature (coords : list Position) (c_coords : Position) (edge : Edge)
  : option EdgeFeature :=
  let '(node1, node2, weight) := edge in
  p1 ← endpoint_position coords c_coords node1;
  p2 ← endpoint_position coords c_coords node2;
  xy1 ← getxy p1;
  xy2 ← getxy p2;
  Some {| ef_geometry := LineString xy1 xy2;
          ef_node1 := node1; ef_node2 := node2; ef_weight := weight |}.

Definition saved_msg (output_folder : string) : string :=
  "Results saved to " +:+ output_folder +:+ "/: nodes.geojson, edges.geojson, summary.txt".

(** [save_kmst_results]: the events up to the return or the exception.
    Failures of the file system and of the geopandas writer are outside the
    function and are not part of it. *)
Definition save_kmst_results (selected_nodes : list Node) (selected_edges : list Edge)
    (coords : list Position) (c_coords : Position) (k : Z) (output_folder : string)
  : list io_event * save_outcome :=
  match nodes_features_of selected_nodes coords c_coords with
  | None => ([MakeDirs output_folder], IndexError)
  | Some nodes_features =>
    let nodes_written := NodesToFile output_folder "nodes.geojson" nodes_features in
    match mapM (edge_feature coords c_coords) selected_edges with
    | None => ([MakeDirs output_folder; nodes_written], IndexError)
    | Some edges_features =>
      let summary :=
        {| summary_k := k;
           nodes_selected := length selected_nodes;
           edges_selected := length selected_edges;
           total_weight := py_sum (map (fun edge : Edge => edge.2) selected_edges);
           summary_c_coords := c_coords |} in
      ([MakeDirs output_folder; nodes_written;
        EdgesToFile output_folder "edges.geojson" edges_features;
        WriteSummary output_folder "summary.txt" summary;
        PrintSaved (saved_msg output_folder)], Saved)
    end
  end.

(** Positions with a first and a second component. *)
Definition plottable (coords : list Position) (c_coords : Position) : Prop :=
  2 <= length c_coords /\ Forall (fun p : Position => 2 <= length p) coords.

(** ** The script (lines 237-245) *)

(** What the script does, in order: the events of [milp_kmst], the printing
    of the result, the events of [save_kmst_results], the closing message. *)
Inductive script_event :=
| FromSolve (ev : event)
| PrintResult (nodes : list Node) (edges : list Edge)
| FromSave (ev : io_event)
| PrintNotSaved (msg : string).

Inductive script_outcome :=
| Finished
| RaisedInSolve (e : exn)
| RaisedInSave.

Definition not_saved_msg : string := "No solution found or problem infeasible.".

Section Script.

Variable hypot : float -> float -> float.
Variable param_in_range : string -> float -> bool.

(** Lines 237-245, for the data and the parameters that the lines before
    them set: run the model, print the result, save it when it has an edge. *)
Definition script (solver : Model -> Solution) (coords : list Position)
    (c_coords : Position) (k : Z) (mip_gap time_limit : float)
  : list script_event * script_outcome :=
  let '(trace, r) :=
    run solver (milp_kmst hypot param_in_range coords c_coords k mip_gap time_limit) in
  match r with
  | Err e => (FromSolve <$> trace, RaisedInSolve e)
  | Ok (nodes, edges) =>
    let printed := (FromSolve <$> trace) ++ [PrintResult nodes edges] in
    if decide (0 < length edges) then
      let '(io, o) := save_kmst_results nodes edges coords c_coords k "output" in
      (printed ++ (FromSave <$> io),
       match o with Saved => Finished | IndexError => RaisedInSave end)
    else (printed ++ [PrintNotSaved not_saved_msg], Finished)
  end.

End Script.

Definition is_FromSave (ev : script_event) : Prop :=
  match ev with
  | FromSave _ => True
  | _ => False
  end.

(** ** Concrete instances *)

(** A stand-in for [np.hypot] at the concrete inputs below: the square root
    of the sum of squares.  It is not [np.hypot]: the two differ by rounding,
    where a square overflows and on an infinity next to a NaN.  It is used
    only at inputs on which the two return the same number. *)
Definition hypot_sqrt (x y : float) : float :=
  PrimFloat.sqrt (PrimFloat.add (PrimFloat.mul x x) (PrimFloat.mul y y)).

(** A stand-in for the range check of Gurobi at the concrete inputs below:
    [MIPGap] and [TimeLimit] are documented to range from 0 to infinity.  It is
    used only at the values 0.01 and 300. *)
Definition gurobi_range (name : string) (value : float) : bool :=
  PrimFloat.leb 0 value.

(** A solver that finds nothing. *)
Definition no_solution (m : Model) : Solution :=
  {| SolCount := 0; X := fun _ => 0%Q |}.

Definition origin : Position := [0; 0]%float.

(** 0.01 as a binary64 number *)
Definition gap : float := 0x1.47ae147ae147bp-7%float.
Definition limit : float := 300%float.

(** The scenario of one candidate at (10, 0). *)
Definition one_candidate : list Position := [[10; 0]%float].

(** Five candidates on a line through the root. *)
Definition five_candidates : list Position :=
  [[1; 0]%float; [2; 0]%float; [3; 0]%float; [4; 0]%float; [5; 0]%float].

(** Two candidates, at (10, 0) and (0, 5). *)
Definition two_candidates : list Position := [[10; 0]%float; [0; 5]%float].

(** Two candidates at (3, 0) and (0, 4): 5 apart, 3 and 4 from the root. *)
Definition corner_candidates : list Position := [[3; 0]%float; [0; 4]%float].

(** The pruned edge list of the five candidates. *)
Definition five_edges : list Edge :=
  Eval vm_compute in
    match pruned_edges hypot_sqrt five_candidates origin with
    | Ok edges => edges
    | Err _ => []
    end.

(** The star that joins the root to the candidates [0 .. sel - 1], one unit
    of flow on each of its arcs. *)
Definition star (sel : nat) (v : Var) : Q :=
  match v with
  | node_var C => 1%Q
  | node_var (Cand i) => if i <? sel then 1%Q else 0%Q
  | arc_var C (Cand i) => if i <? sel then 1%Q else 0%Q
  | flow_var C (Cand i) => if i <? sel then 1%Q else 0%Q
  | _ => 0%Q
  end.

(** A solver that reports the star as its one solution. *)
Definition star_solver (sel : nat) (m : Model) : Solution :=
  {| SolCount := 1; X := star sel |}.

(** Malformed inputs: a candidate with an infinite coordinate, and a
    one-component candidate next to a two-component root. *)
Definition infinite_candidate : list Position := [[infinity; 0]%float].
Definition short_candidate : list Position := [[3]%float].
Definition root_0_7 : Position := [0; 7]%float.

(** A candidate with a coordinate that is not a number, before an ordinary
    one. *)
Definition nan_candidates : list Position := [[nan; 0]%float; [1; 0]%float].

(** * Properties *)

(** ** Results and loops *)

Lemma rbind_Ok {A B} (r : result A) (f : A -> result B) (b : B) :
  rbind r f = Ok b <-> exists a, r = Ok a /\ f a = Ok b.
Proof.
  destruct r as [a|e]; simpl; split.
  - intros H. by exists a.
  - by intros (a' & [= <-] & H).
  - done.
  - by intros (a' & [=] & _).
Qed.

Lemma rbind_Err {A B} (r : result A) (f : A -> result B) (e : exn) :
  rbind r f = Err e <-> r = Err e \/ exists a, r = Ok a /\ f a = Err e.
Proof.
  destruct r as [a|e']; simpl; split.
  - intros H. right. by exists a.
  - intros [[=]|(a' & [= <-] & H)]. done.
  - intros [= ->]. by left.
  - intros [[= ->]|(a' & [=] & _)]. done.
Qed.

Lemma for__Ok {A B} (l : list A) (body : A -> result (list B)) (r : list B) :
  for_ l body = Ok r <->
  exists rs, Forall2 (fun a r' => body a = Ok r') l rs /\ r = concat rs.
Proof.
  revert r. induction l as [|x l IH]; intros r; simpl.
  - split.
    + intros [= <-]. exists []. by split; [constructor|].
    + intros (rs & H & ->). by inversion H.
  - rewrite rbind_Ok. split.
    + intros (r1 & Hx & H). apply rbind_Ok in H as (r2 & Hl & [= <-]).
      apply IH in Hl as (rs & Hrs & ->).
      exists (r1 :: rs). split; [by constructor|done].
    + intros (rs & H & ->). inversion H as [|? r1 ? rs' Hx Hl]; subst.
      exists r1. split; [done|]. apply rbind_Ok. exists (concat rs').
      split; [|done]. apply IH. by exists rs'.
Qed.

Lemma for__total {A B} (l : list A) (body : A -> result (list B)) :
  (forall a, a ∈ l -> exists r, body a = Ok r) -> exists r, for_ l body = Ok r.
Proof.
  induction l as [|x l IH]; intros H; simpl.
  - by eexists.
  - destruct (H x) as [r1 ->]; [by left|].
    destruct IH as [r2 ->]; [intros a Ha; apply H; by right|].
    simpl. by eexists.
Qed.

Lemma for__Err {A B} (l : list A) (body : A -> result (list B)) (e : exn) :
  for_ l body = Err e -> exists a, a ∈ l /\ body a = Err e.
Proof.
  induction l as [|x l IH]; simpl; [done|].
  intros H. apply rbind_Err in H as [H|(r1 & Hx & H)].
  - exists x. split; [by left|done].
  - apply rbind_Err in H as [H|(r2 & _ & [=])].
    destruct (IH H) as (a & Ha & Hb). exists a. split; [by right|done].
Qed.

Lemma dict_of_list_to_map {A} (l : list (Node * A)) :
  dict_of l = list_to_map (reverse l).
Proof.
  unfold dict_of. induction l as [|kv l IH] using rev_ind; [done|].
  rewrite foldl_app, reverse_app. simpl. by rewrite IH.
Qed.

Lemma dict_of_lookup {A} (l : list (Node * A)) (key : Node) (v : A) :
  NoDup l.*1 -> dict_of l !! key = Some v <-> (key, v) ∈ l.
Proof.
  intros Hnd. rewrite dict_of_list_to_map, <- elem_of_list_to_map.
  - by rewrite elem_of_reverse.
  - by rewrite fmap_reverse, reverse_Permutation.
Qed.

Lemma dict_of_lookup_None {A} (l : list (Node * A)) (key : Node) :
  dict_of l !! key = None <-> key ∉ l.*1.
Proof.
  rewrite dict_of_list_to_map, <- not_elem_of_list_to_map, fmap_reverse.
  by rewrite elem_of_reverse.
Qed.

Lemma imap_Cand_keys {A} (l : list A) :
  (imap (fun i p => (Cand i, p)) l).*1 = map Cand (seq 0 (length l)).
Proof.
  apply list_eq. intros i.
  rewrite list_lookup_fmap, list_lookup_imap, list_lookup_fmap.
  destruct (l !! i) as [p|] eqn:Hp; simpl.
  - rewrite lookup_seq_lt; [done|]. by eapply lookup_lt_Some.
  - rewrite lookup_seq_ge; [done|]. by apply lookup_ge_None.
Qed.

Lemma nodes_of_NoDup (n : nat) : NoDup (nodes_of n).
Proof.
  unfold nodes_of, root. constructor.
  - rewrite list_elem_of_fmap. by intros (i & [=] & _).
  - apply NoDup_fmap_2; [by intros ?? [=]|]. apply NoDup_seq.
Qed.

Lemma elem_of_nodes_of (n : nat) (x : Node) : x ∈ nodes_of n <-> is_node n x.
Proof.
  unfold nodes_of, root. rewrite elem_of_cons, list_elem_of_fmap.
  destruct x as [|i]; simpl.
  - split; [done|by left].
  - split.
    + intros [[=]|(j & [= ->] & Hj)]. apply elem_of_seq in Hj. lia.
    + intros Hi. right. exists i. split; [done|]. apply elem_of_seq. lia.
Qed.

Lemma node_positions_keys (coords : list Position) (c_coords : Position) :
  ((root, c_coords) :: imap (fun i p => (Cand i, p)) coords).*1 = nodes_of (length coords).
Proof. unfold nodes_of. simpl. by rewrite <- imap_Cand_keys. Qed.

Lemma node_positions_root (coords : list Position) (c_coords : Position) :
  node_positions_of coords c_coords !! root = Some c_coords.
Proof.
  unfold node_positions_of. apply dict_of_lookup.
  - rewrite node_positions_keys. apply nodes_of_NoDup.
  - by left.
Qed.

Lemma node_positions_Cand (coords : list Position) (c_coords : Position) (i : nat) :
  node_positions_of coords c_coords !! Cand i = coords !! i.
Proof.
  unfold node_positions_of.
  destruct (coords !! i) as [p|] eqn:Hp.
  - apply dict_of_lookup.
    + rewrite node_positions_keys. apply nodes_of_NoDup.
    + right. apply list_elem_of_lookup. exists i. by rewrite list_lookup_imap, Hp.
  - apply dict_of_lookup_None. rewrite node_positions_keys, elem_of_nodes_of. simpl.
    apply lookup_ge_None in Hp. lia.
Qed.

(** ** The loop body and the edge list *)

Lemma getitem_Ok {A} (d : gmap Node A) (key : Node) (x : A) :
  getitem d key = Ok x <-> d !! key = Some x.
Proof. unfold getitem. destruct (d !! key); split; congruence. Qed.

Ltac inv_result :=
  repeat match goal with
  | H : rbind _ _ = Ok _ |- _ => apply rbind_Ok in H as (? & ? & H)
  | H : getitem _ _ = Ok _ |- _ => apply getitem_Ok in H
  | H : Ok _ = Ok _ |- _ => injection H as H
  | H : Err _ = Ok _ |- _ => discriminate H
  end.

Lemma elem_of_concat_Forall2 {A B} (body : A -> result (list B)) (l : list A)
    (rs : list (list B)) (x : B) :
  Forall2 (fun a r => body a = Ok r) l rs ->
  x ∈ concat rs <-> exists a r, a ∈ l /\ body a = Ok r /\ x ∈ r.
Proof.
  induction 1 as [|a r l rs Ha _ IH]; simpl.
  - split; [by intros ?%elem_of_nil|]. by intros (a & r & ?%elem_of_nil & _).
  - rewrite elem_of_app, IH. split.
    + intros [Hx|(a' & r' & Ha' & Hb & Hx)].
      * exists a, r. by split; [left|].
      * exists a', r'. by split; [right|].
    + intros (a' & r' & Ha' & Hb & Hx). apply elem_of_cons in Ha' as [->|Ha'].
      * left. congruence.
      * right. by exists a', r'.
Qed.

Lemma NoDup_concat_by {A B K} (f : A -> K) (tag : B -> K) (l : list A) (rs : list (list B)) :
  NoDup (f <$> l) ->
  Forall2 (fun a r => NoDup r /\ forall x, x ∈ r -> tag x = f a) l rs ->
  NoDup (concat rs).
Proof.
  intros Hnd H. induction H as [|a r l rs [Hr Htag] H IH]; simpl; [constructor|].
  rewrite fmap_cons in Hnd. apply NoDup_cons in Hnd as [Ha Hl].
  apply NoDup_app. split; [done|]. split; [|by apply IH].
  intros x Hx Hx'. apply Ha.
  apply list_elem_of_In, in_concat in Hx' as (r' & Hr' & Hx').
  apply list_elem_of_In in Hr', Hx'.
  apply list_elem_of_lookup in Hr' as [i Hi].
  destruct (Forall2_lookup_r _ _ _ _ _ H Hi) as (a' & Ha' & _ & Htag').
  rewrite <- (Htag x Hx), (Htag' x Hx').
  apply list_elem_of_fmap. exists a'. split; [done|]. by eapply list_elem_of_lookup_2.
Qed.

Section BuilderBody.

Variable hypot : float -> float -> float.

Lemma edge_body_Ok (pos : gmap Node Position) (d : gmap Node float)
    (node1 node2 : Node) (r : list Edge) :
  edge_body hypot pos d node1 node2 = Ok r ->
  NoDup r /\
  forall e, e ∈ r <-> exists w, e = (node1, node2, w) /\ kept hypot pos d node1 node2 w.
Proof.
  unfold edge_body. intros H. inv_result. subst r.
  rename x into p1, x0 into p2, x1 into w, x2 into keep.
  assert (Hkept : keep = true <-> kept hypot pos d node1 node2 w).
  { unfold kept. destruct (decide (node1 = root)) as [->|Hn1].
    { inv_result. subst. split; [|done]. intros _. exists p1, p2. eauto. }
    destruct (decide (node2 = root)) as [->|Hn2].
    { inv_result. subst. split; [|done]. intros _. exists p1, p2. eauto 6. }
    inv_result. subst keep. split.
    - intros Hle. exists p1, p2. do 3 (split; [done|]). right. right. eauto.
    - intros (p1' & p2' & Hp1 & Hp2 & Hw & [?|[?|(d1 & d2 & Hd1 & Hd2 & Hle)]]); [done..|].
      congruence. }
  destruct keep; split.
  - apply NoDup_singleton.
  - intros e. rewrite list_elem_of_singleton. split.
    + intros ->. exists w. split; [done|]. by apply Hkept.
    + intros (w' & -> & (p1' & p2' & Hp1 & Hp2 & Hw & _)). congruence.
  - constructor.
  - intros e. split; [by intros ?%elem_of_nil|].
    intros (w' & -> & Hk). assert (w' = w) as ->.
    { destruct Hk as (p1' & p2' & Hp1 & Hp2 & Hw & _). congruence. }
    apply Hkept in Hk. done.
Qed.

Lemma kept_functional (pos : gmap Node Position) (d : gmap Node float)
    (node1 node2 : Node) (w w' : float) :
  kept hypot pos d node1 node2 w -> kept hypot pos d node1 node2 w' -> w = w'.
Proof.
  intros (p1 & p2 & H1 & H2 & Hw & _) (p1' & p2' & H1' & H2' & Hw' & _). congruence.
Qed.

(** The elements of the pruned list: one entry for each pair of positions
    [i < j] of [nodes] whose edge is kept. *)
Lemma edges_of_elem (nodes : list Node) (pos : gmap Node Position) (d : gmap Node float)
    (edges : list Edge) (node1 node2 : Node) (w : float) :
  edges_of hypot nodes pos d = Ok edges ->
  (node1, node2, w) ∈ edges <->
  (exists i j, i < j /\ nodes !! i = Some node1 /\ nodes !! j = Some node2) /\
  kept hypot pos d node1 node2 w.
Proof.
  unfold edges_of. intros H. apply for__Ok in H as (rs & Hrs & ->).
  rewrite (elem_of_concat_Forall2 _ _ _ _ Hrs). split.
  - intros ([i a] & r & Hia & Hr & He).
    apply for__Ok in Hr as (rs' & Hrs' & ->).
    rewrite (elem_of_concat_Forall2 _ _ _ _ Hrs') in He.
    destruct He as (b & r' & Hb & Hr' & He).
    apply edge_body_Ok in Hr' as [_ Hr']. apply Hr' in He as (w' & [= -> -> ->] & Hk).
    split; [|done].
    unfold enumerate in Hia. apply list_elem_of_lookup in Hia as [i' Hia].
    rewrite list_lookup_imap in Hia.
    destruct (nodes !! i') as [a'|] eqn:Hi'; [|done]. injection Hia as <- <-.
    apply list_elem_of_lookup in Hb as [j Hj]. rewrite lookup_drop in Hj.
    exists i', (i' + 1 + j). split; [lia|]. done.
  - intros [(i & j & Hij & Hi & Hj) Hk].
    assert (Hia : (i, node1) ∈ enumerate nodes).
    { apply list_elem_of_lookup. exists i. unfold enumerate.
      by rewrite list_lookup_imap, Hi. }
    apply list_elem_of_lookup in Hia as [i' Hia].
    destruct (Forall2_lookup_l _ _ _ _ _ Hrs Hia) as (r & _ & Hr).
    exists (i, node1), r. split; [by eapply list_elem_of_lookup_2|]. split; [done|].
    apply for__Ok in Hr as (rs' & Hrs' & ->).
    rewrite (elem_of_concat_Forall2 _ _ _ _ Hrs').
    assert (Hb : drop (i + 1) nodes !! (j - (i + 1)) = Some node2).
    { rewrite lookup_drop. rewrite <- Hj. f_equal. lia. }
    destruct (Forall2_lookup_l _ _ _ _ _ Hrs' Hb) as (r' & _ & Hr').
    exists node2, r'. split; [by eapply list_elem_of_lookup_2|]. split; [done|].
    apply edge_body_Ok in Hr' as [_ Hr']. apply Hr'. by exists w.
Qed.

Lemma edges_of_NoDup (nodes : list Node) (pos : gmap Node Position) (d : gmap Node float)
    (edges : list Edge) :
  NoDup nodes ->
  edges_of hypot nodes pos d = Ok edges -> NoDup edges.
Proof.
  unfold edges_of. intros Hnd H. apply for__Ok in H as (rs & Hrs & ->).
  apply (NoDup_concat_by (fun ia : nat * Node => ia.2) (fun e : Edge => e.1.1) (enumerate nodes)).
  - replace ((fun ia : nat * Node => ia.2) <$> enumerate nodes) with nodes; [done|].
    apply list_eq. intros i. unfold enumerate.
    rewrite list_lookup_fmap, list_lookup_imap. by destruct (nodes !! i).
  - eapply Forall2_impl; [exact Hrs|]. intros [i a] r Hr. simpl in *.
    apply for__Ok in Hr as (rs' & Hrs' & ->). split.
    + apply (NoDup_concat_by id (fun e : Edge => e.1.2) (drop (i + 1) nodes)).
      * rewrite list_fmap_id. eapply sublist_NoDup; [exact Hnd|]. apply sublist_drop.
      * eapply Forall2_impl; [exact Hrs'|]. intros b r' Hr'. simpl in *.
        apply edge_body_Ok in Hr' as [Hn Hr']. split; [done|].
        intros e He. apply Hr' in He as (w & -> & _). done.
    + intros e He. rewrite (elem_of_concat_Forall2 _ _ _ _ Hrs') in He.
      destruct He as (b & r' & _ & Hr' & He).
      apply edge_body_Ok in Hr' as [_ Hr']. apply Hr' in He as (w & -> & _). done.
Qed.

End BuilderBody.

(** ** The pruned edge list *)

Lemma nodes_of_lookup (n j : nat) (b : Node) :
  nodes_of n !! j = Some b <->
  (j = 0 /\ b = C) \/ (exists i, j = S i /\ i < n /\ b = Cand i).
Proof.
  unfold nodes_of, root. destruct j as [|i]; simpl.
  - split.
    + intros [= <-]. by left.
    + intros [[_ ->]|(i & [=] & _)]. done.
  - rewrite list_lookup_fmap. split.
    + intros H. right. destruct (seq 0 n !! i) as [i'|] eqn:Hi; [|done].
      injection H as <-. apply lookup_seq in Hi as [-> Hi]. exists i. done.
    + intros [[[=] _]|(i' & [= <-] & Hi & ->)].
      by rewrite lookup_seq_lt.
Qed.

Lemma nodes_of_before (n : nat) (a b : Node) :
  (exists i j, i < j /\ nodes_of n !! i = Some a /\ nodes_of n !! j = Some b) <->
  is_node n a /\ is_node n b /\ precedes a b.
Proof.
  split.
  - intros (i & j & Hij & Ha & Hb).
    apply nodes_of_lookup in Ha as [[-> ->]|(i' & -> & Hi & ->)];
      apply nodes_of_lookup in Hb as [[-> ->]|(j' & -> & Hj & ->)]; simpl; lia.
  - intros (Ha & Hb & Hab). destruct a as [|i], b as [|j]; simpl in *; try done.
    + exists 0, (S j). split; [lia|]. split; apply nodes_of_lookup; [by left|].
      right. by exists j.
    + exists (S i), (S j). split; [lia|]. split; apply nodes_of_lookup; right.
      * by exists i.
      * by exists j.
Qed.

Lemma precedes_irrefl (a : Node) : ~ precedes a a.
Proof. destruct a; simpl; lia. Qed.

Lemma precedes_asym (a b : Node) : precedes a b -> ~ precedes b a.
Proof. destruct a, b; simpl; lia. Qed.

Lemma precedes_total (a b : Node) : a <> b -> precedes a b \/ precedes b a.
Proof.
  destruct a as [|i], b as [|j]; simpl; try tauto.
  intros H. destruct (decide (i = j)) as [->|]; [done|lia].
Qed.

Lemma node_positions_is_Some (coords : list Position) (c_coords : Position) (x : Node) :
  is_node (length coords) x -> exists p, node_positions_of coords c_coords !! x = Some p.
Proof.
  destruct x as [|i]; simpl.
  - intros _. exists c_coords. apply node_positions_root.
  - intros Hi. rewrite node_positions_Cand. by apply lookup_lt_is_Some_2.
Qed.

Lemma node_positions_length (coords : list Position) (c_coords : Position) (x : Node) (p : Position) :
  well_shaped coords c_coords ->
  node_positions_of coords c_coords !! x = Some p -> length p = 2.
Proof.
  intros [Hc Hall]. destruct x as [|i].
  - change C with root. rewrite node_positions_root. by intros [= <-].
  - rewrite node_positions_Cand. intros Hp.
    by apply (proj1 (Forall_lookup _ _) Hall i p).
Qed.

Section BuilderLists.

Variable hypot : float -> float -> float.

Lemma _euclid_total (a b : Position) :
  length a = 2 -> length b = 2 -> exists w, _euclid hypot a b = Ok w.
Proof.
  destruct a as [|a1 [|a2 [|]]]; try done. destruct b as [|b1 [|b2 [|]]]; try done.
  intros _ _. by eexists.
Qed.

Lemma _euclid_Err (a b : Position) (e : exn) :
  _euclid hypot a b = Err e -> e = ValueError \/ e = TypeError.
Proof.
  unfold _euclid. intros H. apply rbind_Err in H as [H|(d & _ & H)].
  - left. unfold np_sub in H. case_decide; [done|].
    destruct a as [|? [|]], b as [|? [|]]; congruence.
  - right. destruct d as [|? [|? [|]]]; congruence.
Qed.

(** The dictionary of distances has an entry for every node, and no other. *)
Lemma distances_to_root_lookup (nodes : list Node) (pos : gmap Node Position)
    (d : gmap Node float) (x : Node) (dx : float) :
  NoDup nodes ->
  distances_to_root_of hypot nodes pos = Ok d ->
  d !! x = Some dx <->
  x ∈ nodes /\ exists p r, pos !! x = Some p /\ pos !! root = Some r /\ _euclid hypot p r = Ok dx.
Proof.
  unfold distances_to_root_of. intros Hnd H.
  apply rbind_Ok in H as (l & H & [= <-]). apply for__Ok in H as (rs & Hrs & ->).
  assert (Hkeys : (concat rs).*1 = nodes).
  { clear Hnd. induction Hrs as [|a r l rs Ha _ IH]; [done|].
    inv_result. subst r. cbn [concat app]. by rewrite fmap_cons, IH. }
  rewrite dict_of_lookup by (by rewrite Hkeys).
  rewrite (elem_of_concat_Forall2 _ _ _ _ Hrs). split.
  - intros (a & r & Ha & Hr & Hx). inv_result. subst r.
    apply list_elem_of_singleton in Hx as [= <- <-]. split; [done|]. eauto.
  - intros (Hx & p & r & Hp & Hr & Hd). exists x, [(x, dx)].
    split; [done|]. split; [|by left].
    unfold getitem. rewrite Hp, Hr. simpl. by rewrite Hd.
Qed.

Lemma distances_to_root_total (coords : list Position) (c_coords : Position) :
  well_shaped coords c_coords ->
  exists d, distances_to_root_of hypot (nodes_of (length coords))
              (node_positions_of coords c_coords) = Ok d.
Proof.
  intros Hws. unfold distances_to_root_of.
  destruct (for__total (nodes_of (length coords)) (fun node =>
         p <~ getitem (node_positions_of coords c_coords) node;
         r <~ getitem (node_positions_of coords c_coords) root;
         d <~ _euclid hypot p r;
         Ok [(node, d)])) as [l Hl].
  - intros x Hx. apply elem_of_nodes_of in Hx.
    destruct (node_positions_is_Some coords c_coords x Hx) as [p Hp].
    unfold getitem. rewrite Hp, node_positions_root. simpl.
    destruct (_euclid_total p c_coords) as [w ->].
    + by eapply node_positions_length.
    + by destruct Hws.
    + by eexists.
  - rewrite Hl. by eexists.
Qed.

Lemma edges_of_total (coords : list Position) (c_coords : Position) (d : gmap Node float) :
  well_shaped coords c_coords ->
  distances_to_root_of hypot (nodes_of (length coords))
    (node_positions_of coords c_coords) = Ok d ->
  exists edges, edges_of hypot (nodes_of (length coords))
                  (node_positions_of coords c_coords) d = Ok edges.
Proof.
  intros Hws Hd. unfold edges_of. apply for__total. intros [i a] Hia.
  assert (Ha : a ∈ nodes_of (length coords)).
  { unfold enumerate in Hia. apply list_elem_of_lookup in Hia as [i' Hia].
    rewrite list_lookup_imap in Hia.
    destruct (nodes_of (length coords) !! i') eqn:Hi'; [|done].
    injection Hia as <- <-. by eapply list_elem_of_lookup_2. }
  apply for__total. intros b Hb.
  assert (Hb' : b ∈ nodes_of (length coords)).
  { eapply elem_of_sublist; [exact Hb|apply sublist_drop]. }
  apply elem_of_nodes_of in Ha as Ha2. apply elem_of_nodes_of in Hb' as Hb2.
  destruct (node_positions_is_Some coords c_coords a Ha2) as [p1 Hp1].
  destruct (node_positions_is_Some coords c_coords b Hb2) as [p2 Hp2].
  unfold edge_body, getitem at 1 2. rewrite Hp1, Hp2. simpl.
  destruct (_euclid_total p1 p2) as [w ->]; [by eapply node_positions_length..|].
  simpl.
  assert (Hda : exists da, d !! a = Some da).
  { destruct (_euclid_total p1 c_coords) as [da Hda];
      [by eapply node_positions_length|by destruct Hws|].
    exists da. eapply distances_to_root_lookup; [apply nodes_of_NoDup|exact Hd|].
    split; [done|]. exists p1, c_coords. by rewrite node_positions_root. }
  assert (Hdb : exists db, d !! b = Some db).
  { destruct (_euclid_total p2 c_coords) as [db Hdb];
      [by eapply node_positions_length|by destruct Hws|].
    exists db. eapply distances_to_root_lookup; [apply nodes_of_NoDup|exact Hd|].
    split; [done|]. exists p2, c_coords. by rewrite node_positions_root. }
  destruct Hda as [da Hda], Hdb as [db Hdb].
  unfold getitem. rewrite Hda, Hdb.
  repeat case_decide; simpl; by eexists.
Qed.

Lemma pruned_edges_total (coords : list Position) (c_coords : Position) :
  well_shaped coords c_coords ->
  exists edges, pruned_edges hypot coords c_coords = Ok edges.
Proof.
  intros Hws. unfold pruned_edges.
  destruct (distances_to_root_total coords c_coords Hws) as [d Hd].
  rewrite Hd. simpl. by apply edges_of_total.
Qed.

(** What the pruned list of an input holds. *)
Lemma pruned_edges_elem (coords : list Position) (c_coords : Position) (edges : list Edge) :
  pruned_edges hypot coords c_coords = Ok edges ->
  exists d,
    distances_to_root_of hypot (nodes_of (length coords))
      (node_positions_of coords c_coords) = Ok d /\
    forall node1 node2 w,
      (node1, node2, w) ∈ edges <->
      is_node (length coords) node1 /\ is_node (length coords) node2 /\
      precedes node1 node2 /\
      kept hypot (node_positions_of coords c_coords) d node1 node2 w.
Proof.
  unfold pruned_edges. intros H. inv_result. rename x into d.
  exists d. split; [done|]. intros node1 node2 w.
  rewrite (edges_of_elem _ _ _ _ _ _ _ _ H), nodes_of_before. tauto.
Qed.

Lemma pruned_edges_NoDup (coords : list Position) (c_coords : Position) (edges : list Edge) :
  pruned_edges hypot coords c_coords = Ok edges -> NoDup edges.
Proof.
  unfold pruned_edges. intros H. inv_result.
  eapply edges_of_NoDup; [apply nodes_of_NoDup|done].
Qed.

Lemma pruned_edges_precedes (coords : list Position) (c_coords : Position) (edges : list Edge) :
  pruned_edges hypot coords c_coords = Ok edges ->
  forall e, e ∈ edges ->
    is_node (length coords) e.1.1 /\ is_node (length coords) e.1.2 /\ precedes e.1.1 e.1.2.
Proof.
  intros H [[a b] w] He. apply pruned_edges_elem in H as (d & _ & H).
  apply H in He. simpl. tauto.
Qed.

(** No two entries of the pruned list have the same two endpoints. *)
Lemma pruned_edges_pairs (coords : list Position) (c_coords : Position) (edges : list Edge) :
  pruned_edges hypot coords c_coords = Ok edges ->
  forall i j e1 e2,
    edges !! i = Some e1 -> edges !! j = Some e2 ->
    same_pair (endpoints e1) (endpoints e2) -> i = j.
Proof.
  intros H i j [[a1 b1] w1] [[a2 b2] w2] Hi Hj Hsame.
  pose proof (pruned_edges_NoDup _ _ _ H) as Hnd.
  pose proof (pruned_edges_elem _ _ _ H) as (d & _ & Hel).
  assert (H1 : (a1, b1, w1) ∈ edges) by by eapply list_elem_of_lookup_2.
  assert (H2 : (a2, b2, w2) ∈ edges) by by eapply list_elem_of_lookup_2.
  apply Hel in H1 as (_ & _ & Hp1 & Hk1). apply Hel in H2 as (_ & _ & Hp2 & Hk2).
  destruct Hsame as [Heq|Heq]; unfold endpoints in Heq; simpl in Heq;
    injection Heq as -> ->.
  - assert (w1 = w2) as -> by by eapply kept_functional.
    by eapply NoDup_lookup.
  - by apply precedes_asym in Hp1.
Qed.

Lemma pruned_edges_Err (coords : list Position) (c_coords : Position) (e : exn) :
  pruned_edges hypot coords c_coords = Err e -> e = ValueError \/ e = TypeError.
Proof.
  unfold pruned_edges. intros H. apply rbind_Err in H as [H|(d & Hd & H)].
  - unfold distances_to_root_of in H. apply rbind_Err in H as [H|(l & _ & [=])].
    apply for__Err in H as (x & Hx & H). apply elem_of_nodes_of in Hx.
    destruct (node_positions_is_Some coords c_coords x Hx) as [p Hp].
    unfold getitem in H. rewrite Hp, node_positions_root in H. simpl in H.
    apply rbind_Err in H as [H|(w & _ & [=])]. by eapply _euclid_Err.
  - unfold edges_of in H. apply for__Err in H as ([i a] & Hia & H).
    apply for__Err in H as (b & Hb & H).
    assert (Ha : a ∈ nodes_of (length coords)).
    { unfold enumerate in Hia. apply list_elem_of_lookup in Hia as [i' Hia].
      rewrite list_lookup_imap in Hia.
      destruct (nodes_of (length coords) !! i') eqn:Hi'; [|done].
      injection Hia as <- <-. by eapply list_elem_of_lookup_2. }
    assert (Hb' : b ∈ nodes_of (length coords)).
    { eapply elem_of_sublist; [exact Hb|apply sublist_drop]. }
    apply elem_of_nodes_of in Ha as Ha2. apply elem_of_nodes_of in Hb' as Hb2.
    destruct (node_positions_is_Some coords c_coords a Ha2) as [p1 Hp1].
    destruct (node_positions_is_Some coords c_coords b Hb2) as [p2 Hp2].
    unfold edge_body, getitem at 1 2 in H. rewrite Hp1, Hp2 in H. simpl in H.
    apply rbind_Err in H as [H|(w & Hw & H)]; [by eapply _euclid_Err|].
    exfalso.
    assert (Hdx : forall x p, x ∈ nodes_of (length coords) ->
              node_positions_of coords c_coords !! x = Some p -> exists dx, d !! x = Some dx).
    { intros x p Hx Hp.
      unfold distances_to_root_of in Hd.
      apply rbind_Ok in Hd as (l & Hd & [= <-]). apply for__Ok in Hd as (rs & Hrs & ->).
      apply list_elem_of_lookup in Hx as [ix Hix].
      destruct (Forall2_lookup_l _ _ _ _ _ Hrs Hix) as (r & Hr & Hbody).
      inv_result. subst r.
      assert (Hkeys : (concat rs).*1 = nodes_of (length coords)).
      { clear -Hrs. induction Hrs as [|a r l rs Ha _ IH]; [done|].
        inv_result. subst r. cbn [concat app]. by rewrite fmap_cons, IH. }
      eexists. apply dict_of_lookup; [rewrite Hkeys; apply nodes_of_NoDup|].
      apply list_elem_of_In, in_concat. eexists. split.
      - apply list_elem_of_In. by eapply list_elem_of_lookup_2.
      - by left. }
    destruct (Hdx a p1 Ha Hp1) as [da Hda]. destruct (Hdx b p2 Hb' Hp2) as [db Hdb].
    unfold getitem in H. rewrite Hda, Hdb in H.
    repeat case_decide; simpl in H; discriminate.
Qed.

End BuilderLists.

(** ** [str] and the key of an edge *)

Lemma to_uint_not_Nil (i : nat) : Nat.to_uint i <> Decimal.Nil.
Proof.
  intros H. assert (Hi : i = 0) by (rewrite <- (Unsigned.of_to i), H; reflexivity).
  subst i. discriminate H.
Qed.

Lemma str_Cand_not_C (i : nat) : str (Cand i) <> str C.
Proof.
  simpl. pose proof (to_uint_not_Nil i) as H.
  destruct (Nat.to_uint i); simpl; congruence.
Qed.

Lemma str_inj (a b : Node) : str a = str b -> a = b.
Proof.
  destruct a as [|i], b as [|j]; intros H.
  - done.
  - symmetry in H. by apply str_Cand_not_C in H.
  - by apply str_Cand_not_C in H.
  - f_equal. apply Unsigned.to_uint_inj. simpl in H.
    pose proof (to_uint_not_Nil i) as Hi. pose proof (to_uint_not_Nil j) as Hj.
    assert (He : NilEmpty.string_of_uint (Nat.to_uint i) = NilEmpty.string_of_uint (Nat.to_uint j)).
    { destruct (Nat.to_uint i), (Nat.to_uint j); done. }
    apply (f_equal NilEmpty.uint_of_string) in He.
    rewrite !NilEmpty.usu in He. congruence.
Qed.

Lemma edge_key_sym (a b : Node) : edge_key a b = edge_key b a.
Proof.
  unfold edge_key, String.ltb. rewrite (String.compare_antisym (str a) (str b)).
  destruct (String.compare (str b) (str a)) eqn:Hc; simpl; try done.
  apply String.compare_eq_iff, str_inj in Hc. by subst.
Qed.

Lemma edge_key_same_pair (a b : Node) : same_pair (edge_key a b) (a, b).
Proof. unfold edge_key, same_pair. case_match; simpl; auto. Qed.

Lemma same_pair_sym (p q : Node * Node) : same_pair p q -> same_pair q p.
Proof. destruct p, q. unfold same_pair. simpl. intros [[= -> ->]|[= -> ->]]; auto. Qed.

Lemma same_pair_trans (p q r : Node * Node) : same_pair p q -> same_pair q r -> same_pair p r.
Proof.
  destruct p, q, r. unfold same_pair. simpl.
  intros [[= -> ->]|[= -> ->]] [[= -> ->]|[= -> ->]]; auto.
Qed.

(** The key identifies the two endpoints of an edge, whatever their order. *)
Lemma edge_key_eq_iff (a b c d : Node) :
  edge_key a b = edge_key c d <-> same_pair (a, b) (c, d).
Proof.
  split.
  - intros H. eapply same_pair_trans; [apply same_pair_sym, edge_key_same_pair|].
    rewrite H. apply edge_key_same_pair.
  - intros [[= -> ->]|[= -> ->]]; [done|apply edge_key_sym].
Qed.

(** ** The decoder *)



Lemma decode_step_unfold (X : Var -> Q) (sel : list Edge) (seen : gset (Node * Node)) (e : Edge) :
  decode_step X (sel, seen) e =
  if selects X e then
    if decide (ekey e ∈ seen) then (sel, seen) else (sel ++ [e], seen ∪ {[ekey e]})
  else (sel, seen).
Proof. by destruct e as [[a b] w]. Qed.

(** The loop keeps [seen_edges] equal to the keys of [selected_edges], which
    never repeat, and appends only entries of [edges] that pass the test. *)
Lemma decode_fold_inv (X : Var -> Q) (edges : list Edge) :
  let st := foldl (decode_step X) ([], ∅) edges in
  st.2 = list_to_set (ekey <$> st.1) /\
  NoDup (ekey <$> st.1) /\
  st.1 `sublist_of` edges /\
  Forall (fun e => selects X e = true) st.1.
Proof.
  induction edges as [|e edges IH] using rev_ind; simpl.
  - split; [done|]. split; [constructor|]. split; [done|constructor].
  - rewrite foldl_app. simpl.
    destruct (foldl (decode_step X) ([], ∅) edges) as [sel seen]. simpl in IH.
    destruct IH as (Hseen & Hnd & Hsub & Hall).
    rewrite decode_step_unfold.
    destruct (selects X e) eqn:Hsel; [destruct (decide (ekey e ∈ seen)) as [Hin|Hin]|]; simpl.
    + split; [done|]. split; [done|]. split; [|done]. by apply sublist_inserts_r.
    + split; [|split; [|split]].
      * rewrite fmap_app, list_to_set_app_L, Hseen. simpl.
        by rewrite (right_id_L ∅ (∪)).
      * rewrite fmap_app. apply NoDup_app. split; [done|]. split; [|apply NoDup_singleton].
        intros key Hk ->%list_elem_of_singleton. apply Hin. subst seen.
        by apply elem_of_list_to_set.
      * by apply sublist_app.
      * apply Forall_app. split; [done|]. by constructor.
    + split; [done|]. split; [done|]. split; [|done]. by apply sublist_inserts_r.
Qed.

Lemma decode_edges_keys_NoDup (X : Var -> Q) (edges : list Edge) :
  NoDup (ekey <$> decode_edges edges X).
Proof. apply (decode_fold_inv X edges). Qed.

(** On a list whose keys do not repeat the loop is a filter. *)
Lemma decode_fold_filter (X : Var -> Q) (edges : list Edge) :
  NoDup (ekey <$> edges) ->
  foldl (decode_step X) ([], ∅) edges =
  (filter (fun e => selects X e = true) edges,
   list_to_set (ekey <$> filter (fun e => selects X e = true) edges)).
Proof.
  induction edges as [|e edges IH] using rev_ind; intros Hnd; [done|].
  rewrite fmap_app in Hnd. apply NoDup_app in Hnd as (Hnd & Hfresh & _).
  rewrite foldl_app, IH by done. cbn [foldl]. rewrite decode_step_unfold, filter_app.
  destruct (selects X e) eqn:Hsel.
  - rewrite decide_False.
    + rewrite filter_cons_True by done. rewrite filter_nil.
      f_equal. rewrite fmap_app, list_to_set_app_L. simpl.
      by rewrite (right_id_L ∅ (∪)).
    + intros Hin. apply elem_of_list_to_set in Hin.
      apply list_elem_of_fmap in Hin as (e' & He' & Hin).
      apply list_elem_of_filter in Hin as [_ Hin].
      apply (Hfresh (ekey e)).
      * apply list_elem_of_fmap. by exists e'.
      * simpl. by left.
  - rewrite filter_cons_False by congruence. rewrite filter_nil, app_nil_r. done.
Qed.

Lemma NoDup_keys_pairs (l : list Edge) :
  NoDup (ekey <$> l) <->
  forall i j e1 e2, l !! i = Some e1 -> l !! j = Some e2 ->
    same_pair (endpoints e1) (endpoints e2) -> i = j.
Proof.
  rewrite NoDup_alt. split.
  - intros H i j [[a1 b1] w1] [[a2 b2] w2] Hi Hj Hsame.
    apply (H i j (ekey (a1, b1, w1))).
    + by rewrite list_lookup_fmap, Hi.
    + rewrite list_lookup_fmap, Hj. simpl. f_equal. symmetry.
      by apply edge_key_eq_iff.
  - intros H i j key Hi Hj. rewrite list_lookup_fmap in Hi, Hj.
    destruct (l !! i) as [[[a1 b1] w1]|] eqn:Hi'; [|done].
    destruct (l !! j) as [[[a2 b2] w2]|] eqn:Hj'; [|done].
    injection Hi as <-. injection Hj as Hj.
    apply (H i j _ _ Hi' Hj'). by apply edge_key_eq_iff.
Qed.

Section BuilderKeys.

Variable hypot : float -> float -> float.

Lemma pruned_edges_keys_NoDup (coords : list Position) (c_coords : Position) (edges : list Edge) :
  pruned_edges hypot coords c_coords = Ok edges -> NoDup (ekey <$> edges).
Proof. intros H. apply NoDup_keys_pairs. by eapply pruned_edges_pairs. Qed.

End BuilderKeys.

Section RootEdges.

Variable hypot : float -> float -> float.

Lemma edge_body_Ok_inv (pos : gmap Node Position) (d : gmap Node float)
    (node1 node2 : Node) (r : list Edge) :
  edge_body hypot pos d node1 node2 = Ok r ->
  exists p1 p2 w, pos !! node1 = Some p1 /\ pos !! node2 = Some p2 /\
                  _euclid hypot p1 p2 = Ok w.
Proof.
  unfold edge_body. intros H.
  apply rbind_Ok in H as (p1 & H1 & H). apply rbind_Ok in H as (p2 & H2 & H).
  apply rbind_Ok in H as (w & Hw & _). apply getitem_Ok in H1, H2. eauto 6.
Qed.

(** Every candidate has its edge to the root in the pruned list. *)
Lemma pruned_edges_root_edge (coords : list Position) (c_coords : Position) (edges : list Edge) :
  pruned_edges hypot coords c_coords = Ok edges ->
  forall i, i < length coords -> exists w, (C, Cand i, w) ∈ edges.
Proof.
  intros HE i Hi. unfold pruned_edges in HE.
  apply rbind_Ok in HE as (d & Hd & HE).
  pose proof HE as Hel. unfold edges_of in HE. apply for__Ok in HE as (rs & Hrs & ->).
  assert (H0 : enumerate (nodes_of (length coords)) !! 0 = Some (0, C)) by done.
  destruct (Forall2_lookup_l _ _ _ _ _ Hrs H0) as (r & _ & Hr). simpl in Hr.
  apply for__Ok in Hr as (rs' & Hrs' & _).
  assert (Hi' : map Cand (seq 0 (length coords)) !! i = Some (Cand i)).
  { by rewrite list_lookup_fmap, lookup_seq_lt. }
  destruct (Forall2_lookup_l _ _ _ _ _ Hrs' Hi') as (r' & _ & Hr').
  apply edge_body_Ok_inv in Hr' as (p1 & p2 & w & H1 & H2 & Hw).
  exists w. apply (edges_of_elem _ _ _ _ _ _ _ _ Hel). split.
  - apply nodes_of_before. simpl. lia.
  - exists p1, p2. eauto.
Qed.

End RootEdges.

(** ** The order of binary64 numbers *)

Ltac SF_cmp :=
  repeat match goal with
  | |- context [Z.compare ?a ?b] => destruct (Z.compare_spec a b)
  | H : context [Z.compare ?a ?b] |- _ => destruct (Z.compare_spec a b)
  | |- context [Pos.compare_cont Eq ?a ?b] =>
      change (Pos.compare_cont Eq a b) with (Pos.compare a b); destruct (Pos.compare_spec a b)
  | H : context [Pos.compare_cont Eq ?a ?b] |- _ =>
      change (Pos.compare_cont Eq a b) with (Pos.compare a b) in H; destruct (Pos.compare_spec a b)
  end; simpl in *; try done; try lia.

Lemma SFleb_ltb_trans (x y z : spec_float) :
  SFleb x y = true -> SFltb y z = true -> SFleb x z = true.
Proof.
  unfold SFleb, SFltb.
  destruct x as [[]|[]| |[] mx ex], y as [[]|[]| |[] my ey], z as [[]|[]| |[] mz ez];
    simpl; try done; SF_cmp.
Qed.

Lemma SFleb_total_trans (x y z : spec_float) :
  SFleb x z = true -> SFltb y z = false -> y <> S754_nan -> SFleb x y = true.
Proof.
  unfold SFleb, SFltb.
  destruct x as [[]|[]| |[] mx ex], y as [[]|[]| |[] my ey], z as [[]|[]| |[] mz ez];
    simpl; try done; SF_cmp.
Qed.

Lemma is_nan_false (d : float) : PrimFloat.is_nan d = false -> Prim2SF d <> S754_nan.
Proof.
  unfold PrimFloat.is_nan. rewrite FloatAxioms.eqb_spec. intros H Hn. rewrite Hn in H. done.
Qed.

(** When the first distance is a number, [w <= max(d1, d2)] as Python
    computes it says that [w] is at most one of the two. *)
Lemma leb_pymax (w d1 d2 : float) :
  PrimFloat.is_nan d1 = false ->
  PrimFloat.leb w (pymax d1 d2) = true <-> at_most_max w d1 d2.
Proof.
  intros Hnan%is_nan_false. unfold pymax, at_most_max.
  destruct (PrimFloat.ltb d1 d2) eqn:Hlt.
  - split; [by right|]. intros [H|H]; [|done].
    rewrite FloatAxioms.leb_spec in *. rewrite FloatAxioms.ltb_spec in Hlt.
    by eapply SFleb_ltb_trans.
  - split; [by left|]. intros [H|H]; [done|].
    rewrite FloatAxioms.leb_spec in *. rewrite FloatAxioms.ltb_spec in Hlt.
    by eapply SFleb_total_trans.
Qed.

(** ** The pruning rule *)

Lemma node_positions_position (coords : list Position) (c_coords : Position) (n : Node) :
  node_positions_of coords c_coords !! n = position coords c_coords n.
Proof.
  destruct n as [|i]; simpl.
  - apply node_positions_root.
  - apply node_positions_Cand.
Qed.

Section PruningRule.

Variable hypot : float -> float -> float.

Lemma _euclid_distance (p q : Position) (w : float) :
  length p = 2 -> length q = 2 ->
  _euclid hypot p q = Ok w <-> distance hypot p q = Some w.
Proof.
  destruct p as [|x1 [|y1 [|]]]; try done. destruct q as [|x2 [|y2 [|]]]; try done.
  intros _ _. unfold _euclid, np_sub. simpl. split; by intros [= <-].
Qed.

(** On positions of the plane the dictionary of line 45 holds the distance of
    every node to the root. *)
Lemma distances_to_root_distance (coords : list Position) (c_coords : Position)
    (d : gmap Node float) (n : Node) (dn : float) :
  well_shaped coords c_coords ->
  distances_to_root_of hypot (nodes_of (length coords))
    (node_positions_of coords c_coords) = Ok d ->
  is_node (length coords) n ->
  d !! n = Some dn <-> distance_to_root hypot coords c_coords n = Some dn.
Proof.
  intros Hws Hd Hn.
  rewrite (distances_to_root_lookup hypot _ _ _ _ _ (nodes_of_NoDup _) Hd).
  rewrite elem_of_nodes_of, node_positions_root. unfold distance_to_root.
  destruct (node_positions_is_Some coords c_coords n Hn) as [p Hp].
  pose proof (node_positions_length _ _ _ _ Hws Hp) as Hlen.
  rewrite node_positions_position in *. rewrite Hp. simpl.
  rewrite <- (_euclid_distance p c_coords dn Hlen (proj1 Hws)). split.
  - intros (_ & p' & r & [= <-] & [= <-] & H). done.
  - intros H. split; [done|]. by exists p, c_coords.
Qed.

(** The pruned list of an input of the plane follows the rule of the
    specification. *)
Lemma pruned_edges_spec_kept (coords : list Position) (c_coords : Position)
    (edges : list Edge) (n1 n2 : Node) (w : float) :
  well_shaped coords c_coords ->
  pruned_edges hypot coords c_coords = Ok edges ->
  is_node (length coords) n1 -> is_node (length coords) n2 -> precedes n1 n2 ->
  n1 = C \/ root_distance_is_number hypot coords c_coords n1 ->
  (n1, n2, w) ∈ edges <-> spec_kept hypot coords c_coords n1 n2 w.
Proof.
  intros Hws HE H1 H2 H12 Hnum.
  destruct (pruned_edges_elem hypot _ _ _ HE) as (d & Hd & Hel). rewrite Hel.
  destruct (node_positions_is_Some coords c_coords n1 H1) as [p1 Hp1].
  destruct (node_positions_is_Some coords c_coords n2 H2) as [p2 Hp2].
  pose proof (node_positions_length _ _ _ _ Hws Hp1) as Hl1.
  pose proof (node_positions_length _ _ _ _ Hws Hp2) as Hl2.
  unfold kept, spec_kept. rewrite Hp1, Hp2.
  rewrite node_positions_position in Hp1, Hp2. rewrite Hp1, Hp2.
  assert (Hrule : n1 <> C -> forall d1 d2,
            distance_to_root hypot coords c_coords n1 = Some d1 ->
            distance_to_root hypot coords c_coords n2 = Some d2 ->
            PrimFloat.leb w (pymax d1 d2) = true <-> at_most_max w d1 d2).
  { intros Hne d1 d2 Hd1 Hd2. apply leb_pymax.
    destruct Hnum as [?|(d1' & Hd1' & Hnan)]; [done|]. congruence. }
  split.
  - intros (_ & _ & _ & q1 & q2 & [= <-] & [= <-] & Hw & Hkeep).
    split; [exists p1, p2; by rewrite <- _euclid_distance|].
    destruct Hkeep as [?|[?|(d1 & d2 & Hd1 & Hd2 & Hle)]]; [by left|by right; left|].
    destruct (decide (n1 = C)) as [?|Hne]; [by left|]. right. right.
    apply (distances_to_root_distance _ _ _ _ _ Hws Hd H1) in Hd1.
    apply (distances_to_root_distance _ _ _ _ _ Hws Hd H2) in Hd2.
    exists d1, d2. split; [done|]. split; [done|]. by apply (Hrule Hne d1 d2).
  - intros [(q1 & q2 & [= <-] & [= <-] & Hw) Hkeep].
    do 3 (split; [done|]). exists p1, p2. do 2 (split; [done|]).
    split; [by rewrite _euclid_distance|].
    destruct Hkeep as [?|[?|(d1 & d2 & Hd1 & Hd2 & Hle)]]; [by left|by right; left|].
    destruct (decide (n1 = C)) as [?|Hne]; [by left|]. right. right.
    exists d1, d2.
    split; [by apply (distances_to_root_distance _ _ _ _ _ Hws Hd H1)|].
    split; [by apply (distances_to_root_distance _ _ _ _ _ Hws Hd H2)|].
    by apply (Hrule Hne d1 d2).
Qed.

End PruningRule.

Lemma spec_objective_build_model (edges : list Edge) (num_nodes : nat) (k : Z)
    (mip_gap time_limit : float) :
  Objective (build_model edges num_nodes k mip_gap time_limit) = spec_objective edges.
Proof.
  unfold build_model, spec_objective. cbn [Objective].
  induction edges as [|[[a b] w] l IH]; [done|]. cbn [map]. rewrite fmap_cons. by f_equal.
Qed.

(** ** The program *)

Section Guard.

Variable hypot : float -> float -> float.
Variable param_in_range : string -> float -> bool.

Lemma milp_kmst_rejected (coords : list Position) (c_coords : Position) (k : Z)
    (mip_gap time_limit : float) :
  length coords = 0 \/ 1500 < length coords ->
  milp_kmst hypot param_in_range coords c_coords k mip_gap time_limit =
  Print (if decide (length coords = 0) then no_candidates_msg else capacity_msg) (Ret ([], [])).
Proof. intros H. unfold milp_kmst. by rewrite decide_True. Qed.

Lemma milp_kmst_accepted (coords : list Position) (c_coords : Position) (k : Z)
    (mip_gap time_limit : float) :
  1 <= length coords <= 1500 ->
  milp_kmst hypot param_in_range coords c_coords k mip_gap time_limit =
  let body := build_and_solve hypot param_in_range coords c_coords (clamp_k k (length coords))
                mip_gap time_limit in
  if (Z.of_nat (length coords) <? k)%Z
  then Print (not_feasible_msg (length coords) k) body else body.
Proof.
  intros H. unfold milp_kmst, clamp_k. rewrite decide_False by lia.
  by destruct (Z.of_nat (length coords) <? k)%Z.
Qed.

Lemma build_and_solve_accepted (coords : list Position) (c_coords : Position) (k : Z)
    (mip_gap time_limit : float) (edges : list Edge) :
  pruned_edges hypot coords c_coords = Ok edges ->
  params_accepted param_in_range mip_gap time_limit = true ->
  finite_weights edges = true ->
  build_and_solve hypot param_in_range coords c_coords k mip_gap time_limit =
  solve_and_extract edges (length coords)
    (build_model edges (length coords) k mip_gap time_limit).
Proof. intros HE Hp Hf. unfold build_and_solve. by rewrite HE, Hp, Hf. Qed.

Lemma build_and_solve_refused (coords : list Position) (c_coords : Position) (k : Z)
    (mip_gap time_limit : float) (edges : list Edge) :
  pruned_edges hypot coords c_coords = Ok edges ->
  params_accepted param_in_range mip_gap time_limit && finite_weights edges = false ->
  build_and_solve hypot param_in_range coords c_coords k mip_gap time_limit = Raise GurobiError.
Proof.
  intros HE H. unfold build_and_solve. rewrite HE.
  destruct (params_accepted param_in_range mip_gap time_limit); [|done].
  simpl in H. by rewrite H.
Qed.

Lemma build_and_solve_raises (coords : list Position) (c_coords : Position) (k : Z)
    (mip_gap time_limit : float) (e : exn) :
  pruned_edges hypot coords c_coords = Err e ->
  build_and_solve hypot param_in_range coords c_coords k mip_gap time_limit = Raise e.
Proof. intros HE. unfold build_and_solve. by rewrite HE. Qed.

Lemma model_of_milp_kmst (coords : list Position) (c_coords : Position) (k : Z)
    (mip_gap time_limit : float) (edges : list Edge) :
  1 <= length coords <= 1500 ->
  pruned_edges hypot coords c_coords = Ok edges ->
  params_accepted param_in_range mip_gap time_limit = true ->
  finite_weights edges = true ->
  model_of (milp_kmst hypot param_in_range coords c_coords k mip_gap time_limit) =
  Some (build_model edges (length coords) (clamp_k k (length coords)) mip_gap time_limit).
Proof.
  intros H HE Hp Hf. rewrite milp_kmst_accepted by done. cbv zeta.
  rewrite (build_and_solve_accepted _ _ _ _ _ edges) by done.
  by destruct (Z.of_nat (length coords) <? k)%Z.
Qed.

Lemma model_of_milp_kmst_Some (coords : list Position) (c_coords : Position) (k : Z)
    (mip_gap time_limit : float) (m : Model) :
  model_of (milp_kmst hypot param_in_range coords c_coords k mip_gap time_limit) = Some m ->
  1 <= length coords <= 1500 /\
  params_accepted param_in_range mip_gap time_limit = true /\
  exists edges, pruned_edges hypot coords c_coords = Ok edges /\
    finite_weights edges = true /\
    m = build_model edges (length coords) (clamp_k k (length coords)) mip_gap time_limit.
Proof.
  intros H.
  destruct (decide (length coords = 0 \/ 1500 < length coords)) as [Hr|Ha].
  { by rewrite milp_kmst_rejected in H. }
  assert (Hn : 1 <= length coords <= 1500) by lia. split; [done|].
  rewrite milp_kmst_accepted in H by done. cbv zeta in H.
  destruct (pruned_edges hypot coords c_coords) as [edges|e] eqn:HE.
  - destruct (params_accepted param_in_range mip_gap time_limit && finite_weights edges)
      eqn:Hok.
    + apply andb_true_iff in Hok as [Hp Hf]. split; [done|]. exists edges.
      split; [done|]. split; [done|].
      rewrite (build_and_solve_accepted _ _ _ _ _ edges) in H by done.
      destruct (Z.of_nat (length coords) <? k)%Z; simpl in H; congruence.
    + rewrite (build_and_solve_refused _ _ _ _ _ edges) in H by done.
      by destruct (Z.of_nat (length coords) <? k)%Z.
  - rewrite (build_and_solve_raises _ _ _ _ _ e) in H by done.
    by destruct (Z.of_nat (length coords) <? k)%Z.
Qed.

(** A run on an accepted input whose distances can all be computed and are
    finite, with parameters that Gurobi takes: the clamping diagnostic if [k]
    was too large, then one solver call. *)
Lemma run_milp_kmst_accepted (coords : list Position) (c_coords : Position) (k : Z)
    (mip_gap time_limit : float) (edges : list Edge) (solver : Model -> Solution) :
  1 <= length coords <= 1500 ->
  pruned_edges hypot coords c_coords = Ok edges ->
  params_accepted param_in_range mip_gap time_limit = true ->
  finite_weights edges = true ->
  let m := build_model edges (length coords) (clamp_k k (length coords)) mip_gap time_limit in
  run solver (milp_kmst hypot param_in_range coords c_coords k mip_gap time_limit) =
  ((if (Z.of_nat (length coords) <? k)%Z
    then [Printed (not_feasible_msg (length coords) k)] else []) ++ [Optimized m],
   Ok (if decide (SolCount (solver m) = 0) then ([C], [])
       else (decode_nodes (length coords) (X (solver m)), decode_edges edges (X (solver m))))).
Proof.
  intros H HE Hp Hf m. rewrite milp_kmst_accepted by done. cbv zeta.
  rewrite (build_and_solve_accepted _ _ _ _ _ edges) by done. fold m.
  destruct (Z.of_nat (length coords) <? k)%Z; simpl; by case_decide.
Qed.

(** A run on an accepted input on which numpy raises: the clamping diagnostic
    if [k] was too large, then the exception; the solver is not reached. *)
Lemma run_milp_kmst_raises (coords : list Position) (c_coords : Position) (k : Z)
    (mip_gap time_limit : float) (e : exn) (solver : Model -> Solution) :
  1 <= length coords <= 1500 ->
  pruned_edges hypot coords c_coords = Err e ->
  run solver (milp_kmst hypot param_in_range coords c_coords k mip_gap time_limit) =
  ((if (Z.of_nat (length coords) <? k)%Z
    then [Printed (not_feasible_msg (length coords) k)] else []), Err e).
Proof.
  intros H HE. rewrite milp_kmst_accepted by done. cbv zeta.
  rewrite (build_and_solve_raises _ _ _ _ _ e) by done.
  by destruct (Z.of_nat (length coords) <? k)%Z.
Qed.

(** A run on an accepted input on which Gurobi raises, on a parameter or on a
    weight of the pruned list: the clamping diagnostic if [k] was too large,
    then the exception; the solver is not reached. *)
Lemma run_milp_kmst_refused (coords : list Position) (c_coords : Position) (k : Z)
    (mip_gap time_limit : float) (edges : list Edge) (solver : Model -> Solution) :
  1 <= length coords <= 1500 ->
  pruned_edges hypot coords c_coords = Ok edges ->
  params_accepted param_in_range mip_gap time_limit && finite_weights edges = false ->
  run solver (milp_kmst hypot param_in_range coords c_coords k mip_gap time_limit) =
  ((if (Z.of_nat (length coords) <? k)%Z
    then [Printed (not_feasible_msg (length coords) k)] else []), Err GurobiError).
Proof.
  intros H HE Hno. rewrite milp_kmst_accepted by done. cbv zeta.
  rewrite (build_and_solve_refused _ _ _ _ _ edges) by done.
  by destruct (Z.of_nat (length coords) <? k)%Z.
Qed.

(** The clamping diagnostic holds no solver call. *)
Lemma solver_calls_prefix (num_nodes : nat) (k : Z) :
  solver_calls (if (Z.of_nat num_nodes <? k)%Z
                then [Printed (not_feasible_msg num_nodes k)] else []) = 0.
Proof. by destruct (Z.of_nat num_nodes <? k)%Z. Qed.

Lemma solver_calls_accepted (num_nodes : nat) (k : Z) (m : Model) :
  solver_calls ((if (Z.of_nat num_nodes <? k)%Z
                 then [Printed (not_feasible_msg num_nodes k)] else []) ++ [Optimized m]) = 1.
Proof. by destruct (Z.of_nat num_nodes <? k)%Z. Qed.

Lemma run_milp_kmst_rejected (coords : list Position) (c_coords : Position) (k : Z)
    (mip_gap time_limit : float) (solver : Model -> Solution) :
  length coords = 0 \/ 1500 < length coords ->
  run solver (milp_kmst hypot param_in_range coords c_coords k mip_gap time_limit) =
  ([Printed (if decide (length coords = 0) then no_candidates_msg else capacity_msg)],
   Ok ([], [])).
Proof. intros H. by rewrite milp_kmst_rejected. Qed.

(** How a run can end with a result. *)
Lemma run_milp_kmst_Ok (coords : list Position) (c_coords : Position) (k : Z)
    (mip_gap time_limit : float) (solver : Model -> Solution) (r : Result) :
  (run solver (milp_kmst hypot param_in_range coords c_coords k mip_gap time_limit)).2 = Ok r ->
  ((length coords = 0 \/ 1500 < length coords) /\ r = ([], [])) \/
  (1 <= length coords <= 1500 /\
   params_accepted param_in_range mip_gap time_limit = true /\
   exists edges, pruned_edges hypot coords c_coords = Ok edges /\
     finite_weights edges = true /\
     let m := build_model edges (length coords) (clamp_k k (length coords))
                mip_gap time_limit in
     r = if decide (SolCount (solver m) = 0) then ([C], [])
         else (decode_nodes (length coords) (X (solver m)),
               decode_edges edges (X (solver m)))).
Proof.
  intros Hrun.
  destruct (decide (length coords = 0 \/ 1500 < length coords)) as [Hr|Ha].
  { rewrite run_milp_kmst_rejected in Hrun by done. injection Hrun as <-. by left. }
  assert (Hn : 1 <= length coords <= 1500) by lia. right. split; [done|].
  destruct (pruned_edges hypot coords c_coords) as [edges|e] eqn:HE.
  2:{ by rewrite (run_milp_kmst_raises _ _ _ _ _ e) in Hrun by done. }
  destruct (params_accepted param_in_range mip_gap time_limit && finite_weights edges)
    eqn:Hok.
  2:{ by rewrite (run_milp_kmst_refused _ _ _ _ _ edges) in Hrun by done. }
  apply andb_true_iff in Hok as [Hp Hf]. split; [done|]. exists edges.
  split; [done|]. split; [done|].
  rewrite (run_milp_kmst_accepted _ _ _ _ _ edges) in Hrun by done.
  cbn [snd] in Hrun. by injection Hrun as <-.
Qed.

(** How a run can end with an exception: numpy raised in the graph builder,
    or Gurobi refused a parameter or a weight; the solver was not called. *)
Lemma run_milp_kmst_Err (coords : list Position) (c_coords : Position) (k : Z)
    (mip_gap time_limit : float) (solver : Model -> Solution) (e : exn) :
  (run solver (milp_kmst hypot param_in_range coords c_coords k mip_gap time_limit)).2 = Err e ->
  1 <= length coords <= 1500 /\
  solver_calls
    (run solver (milp_kmst hypot param_in_range coords c_coords k mip_gap time_limit)).1 = 0 /\
  ((pruned_edges hypot coords c_coords = Err e /\ (e = ValueError \/ e = TypeError)) \/
   (e = GurobiError /\
    exists edges, pruned_edges hypot coords c_coords = Ok edges /\
      (params_accepted param_in_range mip_gap time_limit = false \/
       finite_weights edges = false))).
Proof.
  intros Hrun.
  destruct (decide (length coords = 0 \/ 1500 < length coords)) as [Hr|Ha].
  { by rewrite run_milp_kmst_rejected in Hrun by done. }
  assert (Hn : 1 <= length coords <= 1500) by lia. split; [done|].
  destruct (pruned_edges hypot coords c_coords) as [edges|e'] eqn:HE.
  - destruct (params_accepted param_in_range mip_gap time_limit && finite_weights edges)
      eqn:Hok.
    { apply andb_true_iff in Hok as [Hp Hf].
      by rewrite (run_milp_kmst_accepted _ _ _ _ _ edges) in Hrun by done. }
    rewrite (run_milp_kmst_refused _ _ _ _ _ edges) in * by done.
    cbn [fst snd] in *. injection Hrun as <-. split; [apply solver_calls_prefix|].
    right. split; [done|]. exists edges. split; [done|].
    by apply andb_false_iff in Hok.
  - rewrite (run_milp_kmst_raises _ _ _ _ _ e') in * by done.
    cbn [fst snd] in *. injection Hrun as <-. split; [apply solver_calls_prefix|].
    left. split; [done|]. by eapply pruned_edges_Err.
Qed.

(** C2: the pruned edge list. For positions of the plane the builder returns
    a list.  Every entry of a list it returns joins two nodes of the
    instance, the earlier one first, and no two entries join the same two
    nodes.  On positions of the plane the list follows the rule of the
    specification: for a node n1 before a node n2, with n1 the root or at a
    distance to the root that is a number, the entry (n1, n2, w) is in the
    list exactly when w is the Euclidean distance of the two and an endpoint
    is the root or w is at most one of the two distances to the root.
    Whenever a model reaches the solver, the terms of its objective are the
    entries of this list with their weights. *)
Theorem C2_pruned_edge_list (coords : list Position) (c_coords : Position) :
  (well_shaped coords c_coords -> exists edges, pruned_edges hypot coords c_coords = Ok edges) /\
  forall edges, pruned_edges hypot coords c_coords = Ok edges ->
    (forall e, e ∈ edges ->
       is_node (length coords) e.1.1 /\ is_node (length coords) e.1.2 /\
       precedes e.1.1 e.1.2) /\
    (well_shaped coords c_coords ->
     forall n1 n2 w,
       is_node (length coords) n1 -> is_node (length coords) n2 -> precedes n1 n2 ->
       n1 = C \/ root_distance_is_number hypot coords c_coords n1 ->
       ((n1, n2, w) ∈ edges <-> spec_kept hypot coords c_coords n1 n2 w)) /\
    (forall i j e1 e2, edges !! i = Some e1 -> edges !! j = Some e2 ->
       same_pair (endpoints e1) (endpoints e2) -> i = j) /\
    (forall k mip_gap time_limit m,
       model_of (milp_kmst hypot param_in_range coords c_coords k mip_gap time_limit) = Some m ->
       Objective m = spec_objective edges).
Proof.
  split; [apply pruned_edges_total|].
  intros edges HE. split; [by apply (pruned_edges_precedes hypot coords c_coords)|].
  split.
  { intros Hws n1 n2 w H1 H2 H12 Hnum. by apply pruned_edges_spec_kept. }
  split; [by eapply pruned_edges_pairs|].
  intros k mip_gap time_limit m Hm.
  apply model_of_milp_kmst_Some in Hm as (_ & _ & edges' & HE' & _ & ->).
  rewrite spec_objective_build_model. congruence.
Qed.

(** C4: the decoder on a solution with an incumbent, on an input that
    reaches the solver (parameters that Gurobi takes, finite weights). The
    selected edges are the entries of the pruned list that pass the test of
    line 134, in the order of the list and as the tuples stored there (the
    weight is the one computed when pruning); no entry occurs twice, and no
    two entries have the same two endpoints.  The last property holds on any
    edge list. *)
Theorem C4_decoder_edges (coords : list Position) (c_coords : Position) (k : Z)
    (mip_gap time_limit : float) (edges : list Edge) (solver : Model -> Solution) :
  let m := build_model edges (length coords) (clamp_k k (length coords)) mip_gap time_limit in
  let values := X (solver m) in
  1 <= length coords <= 1500 ->
  pruned_edges hypot coords c_coords = Ok edges ->
  params_accepted param_in_range mip_gap time_limit = true ->
  finite_weights edges = true ->
  SolCount (solver m) <> 0 ->
  exists selected_nodes selected_edges,
    (run solver (milp_kmst hypot param_in_range coords c_coords k mip_gap time_limit)).2 =
      Ok (selected_nodes, selected_edges) /\
    selected_edges = filter (fun e => selects values e = true) edges /\
    (forall e, e ∈ selected_edges <-> e ∈ edges /\ selects values e = true) /\
    NoDup selected_edges /\
    (forall i j e1 e2, selected_edges !! i = Some e1 -> selected_edges !! j = Some e2 ->
       same_pair (endpoints e1) (endpoints e2) -> i = j) /\
    (forall any_edges i j e1 e2,
       decode_edges any_edges values !! i = Some e1 ->
       decode_edges any_edges values !! j = Some e2 ->
       same_pair (endpoints e1) (endpoints e2) -> i = j).
Proof.
  intros m values Hn HE Hp Hfin Hsol.
  exists (decode_nodes (length coords) values), (decode_edges edges values).
  split.
  { rewrite (run_milp_kmst_accepted _ _ _ _ _ edges) by done. cbn [snd].
    fold m. by rewrite decide_False. }
  pose proof (pruned_edges_keys_NoDup hypot _ _ _ HE) as Hkeys.
  assert (Hf : decode_edges edges values = filter (fun e => selects values e = true) edges).
  { unfold decode_edges. by rewrite decode_fold_filter. }
  split; [done|]. split.
  { intros e. rewrite Hf, list_elem_of_filter. tauto. }
  split. { rewrite Hf. apply NoDup_filter. by eapply pruned_edges_NoDup. }
  split; intros *; apply NoDup_keys_pairs, decode_edges_keys_NoDup.
Qed.

(** C5: no solution. Whenever the solver is called and its report for the
    model it was given counts no solution, the result is (["C"], []) and no
    exception is raised.  On an accepted input whose pruned list is built
    with finite weights, with parameters that Gurobi takes, the solver is
    called, once, so the result is (["C"], []) when its report for the model
    it was given counts no solution; the pruned list is built for all
    positions of the plane.  With no candidate or more than 1500 the solver
    is not called. *)
Theorem C5_no_solution (coords : list Position) (c_coords : Position) (k : Z)
    (mip_gap time_limit : float) (solver : Model -> Solution) :
  let out := run solver (milp_kmst hypot param_in_range coords c_coords k mip_gap time_limit) in
  (forall m, Optimized m ∈ out.1 -> SolCount (solver m) = 0 -> out.2 = Ok ([C], [])) /\
  (forall edges,
     1 <= length coords <= 1500 ->
     pruned_edges hypot coords c_coords = Ok edges ->
     params_accepted param_in_range mip_gap time_limit = true ->
     finite_weights edges = true ->
     exists m,
       Optimized m ∈ out.1 /\ solver_calls out.1 = 1 /\
       (SolCount (solver m) = 0 -> out.2 = Ok ([C], []))) /\
  (well_shaped coords c_coords -> exists edges, pruned_edges hypot coords c_coords = Ok edges) /\
  (length coords = 0 \/ 1500 < length coords -> solver_calls out.1 = 0).
Proof.
  intros out.
  assert (Hacc : forall edges,
            1 <= length coords <= 1500 ->
            pruned_edges hypot coords c_coords = Ok edges ->
            params_accepted param_in_range mip_gap time_limit = true ->
            finite_weights edges = true ->
            let m := build_model edges (length coords) (clamp_k k (length coords))
                       mip_gap time_limit in
            (forall m', Optimized m' ∈ out.1 -> m' = m) /\
            Optimized m ∈ out.1 /\ solver_calls out.1 = 1 /\
            (SolCount (solver m) = 0 -> out.2 = Ok ([C], []))).
  { intros edges Hn HE Hp Hf m. unfold out.
    rewrite (run_milp_kmst_accepted _ _ _ _ _ edges) by done. fold m. cbn [fst snd].
    split; [|split; [|split]].
    - intros m' Hm'. apply elem_of_app in Hm' as [Hm'|Hm'].
      + destruct (Z.of_nat (length coords) <? k)%Z.
        * by apply list_elem_of_singleton in Hm'.
        * by apply elem_of_nil in Hm'.
      + apply list_elem_of_singleton in Hm'. congruence.
    - apply elem_of_app. right. by apply list_elem_of_singleton.
    - apply solver_calls_accepted.
    - intros Hsol. by rewrite decide_True. }
  split; [|split; [|split]].
  - intros m Hm Hsol.
    destruct (decide (length coords = 0 \/ 1500 < length coords)) as [Hr|Ha].
    { exfalso. unfold out in Hm. rewrite run_milp_kmst_rejected in Hm by done.
      cbn [fst] in Hm. by apply list_elem_of_singleton in Hm. }
    assert (Hn : 1 <= length coords <= 1500) by lia.
    assert (Hprefix : Optimized m ∉
              (if (Z.of_nat (length coords) <? k)%Z
               then [Printed (not_feasible_msg (length coords) k)] else [])).
    { destruct (Z.of_nat (length coords) <? k)%Z.
      - by intros ?%list_elem_of_singleton.
      - apply not_elem_of_nil. }
    destruct (pruned_edges hypot coords c_coords) as [edges|e] eqn:HE.
    + destruct (params_accepted param_in_range mip_gap time_limit && finite_weights edges)
        eqn:Hok.
      * apply andb_true_iff in Hok as [Hp Hf].
        destruct (Hacc edges Hn eq_refl Hp Hf) as (Honly & _ & _ & Hres).
        apply Hres. by rewrite <- (Honly m Hm).
      * exfalso. unfold out in Hm.
        by rewrite (run_milp_kmst_refused _ _ _ _ _ edges) in Hm by done.
    + exfalso. unfold out in Hm.
      by rewrite (run_milp_kmst_raises _ _ _ _ _ e) in Hm by done.
  - intros edges Hn HE Hp Hf. destruct (Hacc edges Hn HE Hp Hf) as (_ & ? & ? & ?).
    by eexists.
  - apply pruned_edges_total.
  - intros Hr. unfold out. by rewrite run_milp_kmst_rejected.
Qed.

(** C6: with no candidate the function prints its diagnostic and returns
    ([], []) at once; the run has no solver call. *)
Theorem C6_no_candidates (c_coords : Position) (k : Z) (mip_gap time_limit : float)
    (solver : Model -> Solution) :
  milp_kmst hypot param_in_range [] c_coords k mip_gap time_limit =
    Print no_candidates_msg (Ret ([], [])) /\
  run solver (milp_kmst hypot param_in_range [] c_coords k mip_gap time_limit) =
    ([Printed no_candidates_msg], Ok ([], [])) /\
  solver_calls (run solver (milp_kmst hypot param_in_range [] c_coords k mip_gap time_limit)).1 = 0.
Proof.
  assert (H : length (@nil Position) = 0 \/ 1500 < length (@nil Position)) by (by left).
  rewrite (milp_kmst_rejected [] c_coords k mip_gap time_limit H).
  rewrite decide_True by reflexivity. by repeat split.
Qed.

(** C7: with more than 1500 candidates the function prints the capacity
    diagnostic and returns ([], []); it raises nothing and the run has no
    solver call. *)
Theorem C7_capacity_violation (coords : list Position) (c_coords : Position) (k : Z)
    (mip_gap time_limit : float) (solver : Model -> Solution) :
  1500 < length coords ->
  milp_kmst hypot param_in_range coords c_coords k mip_gap time_limit =
    Print capacity_msg (Ret ([], [])) /\
  run solver (milp_kmst hypot param_in_range coords c_coords k mip_gap time_limit) =
    ([Printed capacity_msg], Ok ([], [])) /\
  solver_calls (run solver (milp_kmst hypot param_in_range coords c_coords k mip_gap time_limit)).1 = 0.
Proof.
  intros H. rewrite milp_kmst_rejected by (by right).
  by rewrite decide_False by lia.
Qed.

End Guard.

(** ** The constraint set *)

Lemma Qsum_Permutation (l l' : list Q) : l ≡ₚ l' -> (Qsum l == Qsum l')%Q.
Proof.
  induction 1 as [|x l l' _ IH|x y l|l l' l'' _ IH1 _ IH2]; simpl.
  - reflexivity.
  - by rewrite IH.
  - ring.
  - by rewrite IH1.
Qed.

Lemma Qsum_app (l l' : list Q) : (Qsum (l ++ l') == Qsum l + Qsum l')%Q.
Proof. induction l as [|x l IH]; simpl; [ring|]. rewrite IH. ring. Qed.

Lemma arc_keys_arcs (edges : list Edge) : arc_keys edges = arcs edges.
Proof.
  unfold arc_keys, arcs. induction edges as [|[[a b] w] edges IH]; [done|].
  simpl. by rewrite IH.
Qed.

Lemma elem_of_arcs (edges : list Edge) (a : Node * Node) :
  a ∈ arcs edges <-> exists e, e ∈ edges /\ (a = (e.1.1, e.1.2) \/ a = (e.1.2, e.1.1)).
Proof.
  unfold arcs. rewrite list_elem_of_In, in_flat_map. split.
  - intros (e & He & Ha). exists e. split; [by apply list_elem_of_In|].
    simpl in Ha. destruct Ha as [ <- | [ <- | Hf ] ]; [auto|auto|done].
  - intros (e & He & Ha). exists e. split; [by apply list_elem_of_In|].
    simpl. destruct Ha as [ -> | -> ]; auto.
Qed.

Lemma arcs_NoDup (num_nodes : nat) (edges : list Edge) :
  wf_edges num_nodes edges -> NoDup (arcs edges).
Proof.
  intros [Hnd Hwf]. induction edges as [|[[a b] w] edges IH]; [constructor|].
  rewrite fmap_cons in Hnd. apply NoDup_cons in Hnd as [Hfresh Hnd].
  assert (Hab : a <> b) by (apply (Hwf (a, b, w)); by left).
  assert (Hnot : forall p, same_pair p (a, b) -> p ∉ arcs edges).
  { intros p Hp Hin. apply Hfresh. apply elem_of_arcs in Hin as (e & He & Hin).
    apply list_elem_of_fmap. exists e. split; [|done].
    destruct e as [[a' b'] w']. unfold ekey. simpl in *. apply edge_key_eq_iff.
    apply same_pair_sym. eapply same_pair_trans; [|exact Hp].
    destruct Hin as [ -> | -> ]; [by left|by right]. }
  change (arcs ((a, b, w) :: edges)) with ((a, b) :: (b, a) :: arcs edges).
  apply NoDup_cons. split.
  - rewrite elem_of_cons. intros [[= -> _]|Hin]; [done|].
    revert Hin. apply Hnot. by left.
  - apply NoDup_cons. split.
    + apply Hnot. by right.
    + apply IH; [done|]. intros e He. apply Hwf. by right.
Qed.

Lemma arcs_wf (num_nodes : nat) (edges : list Edge) (a : Node * Node) :
  wf_edges num_nodes edges -> a ∈ arcs edges ->
  a.1 ∈ nodes_of num_nodes /\ a.2 ∈ nodes_of num_nodes /\ a.1 <> a.2.
Proof.
  intros [_ Hwf] (e & He & Ha)%elem_of_arcs. rewrite !elem_of_nodes_of.
  destruct (Hwf e He) as (H1 & H2 & H3). destruct Ha as [ -> | -> ]; simpl; auto.
Qed.

(** The sums of lines 102-103 and 109-112 range over the arcs that leave,
    or enter, the node. *)
Lemma out_arcs_Permutation (num_nodes : nat) (edges : list Edge) (v : Node) :
  wf_edges num_nodes edges ->
  map (fun n => (v, n)) (filter (fun n => n ≠ v ∧ (v, n) ∈ arc_keys edges) (nodes_of num_nodes))
  ≡ₚ filter (fun a : Node * Node => a.1 = v) (arcs edges).
Proof.
  intros Hwf. rewrite arc_keys_arcs. apply NoDup_Permutation.
  - apply NoDup_fmap_2; [by intros ?? [=]|]. apply NoDup_filter, nodes_of_NoDup.
  - apply NoDup_filter. by eapply arcs_NoDup.
  - intros [a b]. rewrite list_elem_of_fmap, list_elem_of_filter. split.
    + intros (n & [= -> ->] & Hn). apply list_elem_of_filter in Hn as [[_ Hn] _]. done.
    + simpl. intros [-> Hin]. exists b. split; [done|].
      destruct (arcs_wf _ _ _ Hwf Hin) as (_ & Hb & Hne). simpl in *.
      apply list_elem_of_filter. split; [|done]. split; [congruence|done].
Qed.

Lemma in_arcs_Permutation (num_nodes : nat) (edges : list Edge) (v : Node) :
  wf_edges num_nodes edges ->
  map (fun n => (n, v)) (filter (fun n => n ≠ v ∧ (n, v) ∈ arc_keys edges) (nodes_of num_nodes))
  ≡ₚ filter (fun a : Node * Node => a.2 = v) (arcs edges).
Proof.
  intros Hwf. rewrite arc_keys_arcs. apply NoDup_Permutation.
  - apply NoDup_fmap_2; [by intros ?? [=]|]. apply NoDup_filter, nodes_of_NoDup.
  - apply NoDup_filter. by eapply arcs_NoDup.
  - intros [a b]. rewrite list_elem_of_fmap, list_elem_of_filter. split.
    + intros (n & [= -> ->] & Hn). apply list_elem_of_filter in Hn as [[_ Hn] _]. done.
    + simpl. intros [-> Hin]. exists a. split; [done|].
      destruct (arcs_wf _ _ _ Hwf Hin) as (Ha & _ & Hne). simpl in *.
      apply list_elem_of_filter. split; [|done]. split; [congruence|done].
Qed.

Section Sums.

Variables (num_nodes : nat) (edges : list Edge) (X : Var -> Q).
Hypothesis Hwf : wf_edges num_nodes edges.

Lemma code_flow_out (v : Node) :
  (Qsum (map X (map (fun n => flow_var v n)
     (filter (fun n => n ≠ v ∧ (v, n) ∈ arc_keys edges) (nodes_of num_nodes))))
   == flow_out edges X v)%Q.
Proof.
  unfold flow_out. rewrite map_map.
  rewrite <- (map_map (fun n => (v, n)) (fun a : Node * Node => X (flow_var a.1 a.2))).
  apply Qsum_Permutation, Permutation_map, out_arcs_Permutation, Hwf.
Qed.

Lemma code_flow_in (v : Node) :
  (Qsum (map X (map (fun n => flow_var n v)
     (filter (fun n => n ≠ v ∧ (n, v) ∈ arc_keys edges) (nodes_of num_nodes))))
   == flow_in edges X v)%Q.
Proof.
  unfold flow_in. rewrite map_map.
  rewrite <- (map_map (fun n => (n, v)) (fun a : Node * Node => X (flow_var a.1 a.2))).
  apply Qsum_Permutation, Permutation_map, in_arcs_Permutation, Hwf.
Qed.

End Sums.

Lemma Forall_arcs (Q : Node * Node -> Prop) (edges : list Edge) :
  (forall a, a ∈ arcs edges -> Q a) <->
  Forall (fun e : Edge => Q (e.1.1, e.1.2) /\ Q (e.1.2, e.1.1)) edges.
Proof.
  rewrite Forall_forall. split.
  - intros H e He. split; apply H, elem_of_arcs; exists e; auto.
  - intros H a (e & He & Ha)%elem_of_arcs. destruct (H e He) as [H1 H2].
    by destruct Ha as [ -> | -> ].
Qed.

Section Constraints.

Variables (num_nodes : nat) (edges : list Edge) (k : Z) (X : Var -> Q).

Lemma edge_constrs_holds :
  Forall (holds X) (flat_map (edge_constrs k) edges) <->
  (forall e, e ∈ edges -> (X (arc_var e.1.1 e.1.2) + X (arc_var e.1.2 e.1.1) <= 1)%Q) /\
  (forall a, a ∈ arcs edges ->
     (X (flow_var a.1 a.2) <= inject_Z (k - 1) * X (arc_var a.1 a.2))%Q).
Proof.
  rewrite Forall_flat_map, Forall_arcs, <- Forall_forall, <- Forall_and.
  apply Forall_iff. intros [[a b] w]. unfold holds. simpl.
  rewrite !Forall_cons, Forall_nil. simpl. tauto.
Qed.

Lemma endpoint_constrs_holds :
  Forall (holds X) (flat_map endpoint_constrs edges) <->
  (forall a, a ∈ arcs edges ->
     (X (arc_var a.1 a.2) <= X (node_var a.1))%Q /\ (X (arc_var a.1 a.2) <= X (node_var a.2))%Q).
Proof.
  rewrite Forall_flat_map, Forall_arcs.
  apply Forall_iff. intros [[a b] w]. unfold holds. simpl.
  rewrite !Forall_cons, Forall_nil. simpl. tauto.
Qed.

Lemma flow_cons_holds :
  wf_edges num_nodes edges ->
  Forall (holds X) (map (flow_cons (nodes_of num_nodes) (arc_keys edges)) (seq 0 num_nodes)) <->
  (forall i, i < num_nodes ->
     (flow_in edges X (Cand i) - flow_out edges X (Cand i) == X (node_var (Cand i)))%Q).
Proof.
  intros Hwf. rewrite Forall_map, Forall_forall. split.
  - intros H i Hi. specialize (H i).
    unfold holds in H. simpl in H.
    rewrite (code_flow_in num_nodes edges X Hwf), (code_flow_out num_nodes edges X Hwf) in H.
    apply H. apply elem_of_seq. lia.
  - intros H i Hi. apply elem_of_seq in Hi. unfold holds. simpl.
    rewrite (code_flow_in num_nodes edges X Hwf), (code_flow_out num_nodes edges X Hwf).
    apply H. lia.
Qed.

(** The constraints of the model are those of the specification. *)
Lemma constraints_iff (mip_gap time_limit : float) :
  wf_edges num_nodes edges ->
  Forall (holds X) (Constrs (build_model edges num_nodes k mip_gap time_limit)) <->
  spec_constraints edges num_nodes k X.
Proof.
  intros Hwf. unfold build_model. cbn [Constrs].
  rewrite !Forall_app, edge_constrs_holds, endpoint_constrs_holds, (flow_cons_holds Hwf).
  rewrite !Forall_cons, !Forall_nil. unfold holds. cbn [lhs rhs sense root_flow eval].
  rewrite (code_flow_in num_nodes edges X Hwf), (code_flow_out num_nodes edges X Hwf).
  rewrite arc_keys_arcs, !map_map. cbn [fst snd].
  split.
  - intros ((Hex & Hcap) & (Hroot & _) & ((Hkn & Hke & _) & Hend & (Hrf & _) & Hfc)).
    by constructor.
  - intros [Hex Hcap Hroot Hkn Hke Hend Hrf Hfc]. tauto.
Qed.

End Constraints.

(** ** Counting what a feasible assignment selects *)

Lemma gt_half_0 (x : Q) : (x == 0)%Q -> gt_half x = false.
Proof.
  intros H. unfold gt_half. apply negb_false_iff, Qle_bool_iff. rewrite H. done.
Qed.

Lemma gt_half_1 (x : Q) : (x == 1)%Q -> gt_half x = true.
Proof.
  intros H. unfold gt_half. apply negb_true_iff.
  destruct (Qle_bool x (1 # 2)) eqn:Hle; [|done].
  apply Qle_bool_iff in Hle. rewrite H in Hle. by compute in Hle.
Qed.

(** A sum of terms that are 0 on the unselected and 1 on the selected
    elements counts the selected ones. *)
Lemma Qsum_count {A} (val : A -> Q) (sel : A -> bool) (l : list A) :
  (forall a, a ∈ l -> (val a == 0 /\ sel a = false)%Q \/ (val a == 1 /\ sel a = true)%Q) ->
  (Qsum (map val l) == inject_Z (Z.of_nat (length (filter (fun a => sel a = true) l))))%Q.
Proof.
  induction l as [|a l IH]; intros H; [reflexivity|].
  simpl. rewrite IH by (intros a' Ha'; apply H; by right).
  destruct (H a) as [[Hv Hs]|[Hv Hs]]; [by left| |].
  - rewrite filter_cons_False by congruence. rewrite Hv. ring.
  - rewrite filter_cons_True by done. simpl length.
    rewrite Nat2Z.inj_succ, <- Z.add_1_l, inject_Z_plus, Hv. reflexivity.
Qed.

Lemma Qsum_arcs (g : Node * Node -> Q) (edges : list Edge) :
  (Qsum (map g (arcs edges))
   == Qsum (map (fun e : Edge => g (e.1.1, e.1.2) + g (e.1.2, e.1.1)) edges))%Q.
Proof.
  induction edges as [|e edges IH]; [reflexivity|].
  change (arcs (e :: edges)) with ((e.1.1, e.1.2) :: (e.1.2, e.1.1) :: arcs edges).
  simpl. rewrite IH. ring.
Qed.

Lemma feasibleb_sound (m : Model) (X : Var -> Q) : feasibleb m X = true -> feasible m X.
Proof.
  unfold feasibleb, feasible. rewrite andb_true_iff, !forallb_forall, !Forall_forall.
  intros [Hv Hc]. split.
  - intros d Hd%list_elem_of_In. specialize (Hv d Hd). destruct d; simpl in *.
    + apply orb_true_iff in Hv as [Hv|Hv]; apply Qeq_bool_iff in Hv; auto.
    + apply andb_true_iff in Hv as [H1 H2]. by rewrite <- !Qle_bool_iff.
  - intros c Hc'%list_elem_of_In. specialize (Hc c Hc'). unfold holds, holdsb in *.
    destruct (sense c); [by apply Qle_bool_iff|by apply Qeq_bool_iff].
Qed.

Section Counts.

Variables (num_nodes : nat) (edges : list Edge) (k : Z) (mip_gap time_limit : float).
Variable X : Var -> Q.
Hypothesis Hwf : wf_edges num_nodes edges.
Hypothesis Hfeas : feasible (build_model edges num_nodes k mip_gap time_limit) X.

Lemma feasible_binary_node (i : nat) :
  i < num_nodes -> (X (node_var (Cand i)) == 0 \/ X (node_var (Cand i)) == 1)%Q.
Proof.
  intros Hi. destruct Hfeas as [Hv _]. unfold build_model in Hv. cbn [Vars] in Hv.
  apply Forall_app in Hv as [_ Hv]. rewrite Forall_forall in Hv.
  apply (Hv (BINARY (node_var (Cand i)) ("node[" +:+ str (Cand i) +:+ "]"))).
  apply (list_elem_of_fmap_2 (fun n => BINARY (node_var n) ("node[" +:+ str n +:+ "]"))).
  apply elem_of_nodes_of. done.
Qed.

Lemma feasible_binary_arc (a : Node * Node) :
  a ∈ arcs edges -> (X (arc_var a.1 a.2) == 0 \/ X (arc_var a.1 a.2) == 1)%Q.
Proof.
  revert a. apply Forall_arcs.
  destruct Hfeas as [Hv _]. unfold build_model in Hv. cbn [Vars] in Hv.
  apply Forall_app in Hv as [Hv _]. rewrite Forall_flat_map in Hv.
  eapply Forall_impl; [exact Hv|]. intros [[a b] w] H. simpl in H.
  rewrite !Forall_cons in H. simpl in H. tauto.
Qed.

Lemma feasible_spec : spec_constraints edges num_nodes k X.
Proof. destruct Hfeas as [_ Hc]. by eapply constraints_iff. Qed.

(** The decoder returns the root and [k - 1] candidates ... *)
Lemma feasible_nodes_count :
  Z.of_nat (length (decode_nodes num_nodes X)) = k.
Proof.
  pose proof (cardinality_nodes _ _ _ _ feasible_spec) as Hsum.
  rewrite (Qsum_count (fun i => X (node_var (Cand i)))
             (fun i => gt_half (X (node_var (Cand i))))) in Hsum.
  - apply (proj1 (inject_Z_injective _ _)) in Hsum.
    unfold decode_nodes. cbn [length]. rewrite length_map. lia.
  - intros i Hi%elem_of_seq.
    destruct (feasible_binary_node i) as [H|H]; [lia|left|right];
      (split; [done|]); [by apply gt_half_0|by apply gt_half_1].
Qed.

(** ... and [k - 1] edges. *)
Lemma feasible_edges_count :
  Z.of_nat (length (decode_edges edges X)) = (k - 1)%Z.
Proof.
  pose proof (cardinality_arcs _ _ _ _ feasible_spec) as Hsum.
  rewrite (Qsum_arcs (fun a => X (arc_var a.1 a.2))) in Hsum. cbn [fst snd] in Hsum.
  rewrite (Qsum_count _ (selects X)) in Hsum.
  - apply (proj1 (inject_Z_injective _ _)) in Hsum.
    unfold decode_edges. rewrite decode_fold_filter by apply Hwf. done.
  - intros e He.
    pose proof (orientation_exclusivity _ _ _ _ feasible_spec e He) as Hex.
    assert (H1 : (e.1.1, e.1.2) ∈ arcs edges) by (apply elem_of_arcs; exists e; auto).
    assert (H2 : (e.1.2, e.1.1) ∈ arcs edges) by (apply elem_of_arcs; exists e; auto).
    apply feasible_binary_arc in H1, H2. cbn [fst snd] in H1, H2.
    unfold selects.
    destruct H1 as [H1|H1], H2 as [H2|H2].
    + left. rewrite (gt_half_0 _ H1), (gt_half_0 _ H2), H1, H2. done.
    + right. rewrite (gt_half_0 _ H1), (gt_half_1 _ H2), H1, H2. done.
    + right. rewrite (gt_half_1 _ H1), (gt_half_0 _ H2), H1, H2. done.
    + exfalso. rewrite H1, H2 in Hex. by compute in Hex.
Qed.

End Counts.

(** ** Connectivity *)

(** The nodes of a list that satisfy a property, as a list. *)
Lemma classical_filter (P : Node -> Prop) (l : list Node) :
  NoDup l -> exists U, NoDup U /\ forall v, v ∈ U <-> v ∈ l /\ P v.
Proof.
  induction 1 as [|x l Hx _ (U & HU & Hel)].
  - exists []. split; [constructor|]. intros v. split; [by intros ?%elem_of_nil|].
    by intros [?%elem_of_nil _].
  - destruct (classic (P x)) as [HP|HP].
    + exists (x :: U). split.
      * constructor; [|done]. rewrite Hel. tauto.
      * intros v. rewrite !elem_of_cons, Hel. split; [|tauto].
        intros [->|[? ?]]; auto.
    + exists U. split; [done|]. intros v. rewrite elem_of_cons, Hel. split; [tauto|].
      intros [[->|?] ?]; [done|auto].
Qed.

Lemma Qsum_nonneg (l : list Q) : Forall (fun x => 0 <= x)%Q l -> (0 <= Qsum l)%Q.
Proof.
  induction 1 as [|x l Hx _ IH]; simpl; [done|].
  replace 0%Q with (0 + 0)%Q by reflexivity. by apply Qplus_le_compat.
Qed.

Lemma Qsum_nonpos (l : list Q) : Forall (fun x => x <= 0)%Q l -> (Qsum l <= 0)%Q.
Proof.
  induction 1 as [|x l Hx _ IH]; simpl; [done|].
  replace 0%Q with (0 + 0)%Q by reflexivity. by apply Qplus_le_compat.
Qed.

Lemma Qsum_zero_each (l : list Q) :
  Forall (fun x => 0 <= x)%Q l -> (Qsum l <= 0)%Q -> Forall (fun x => x == 0)%Q l.
Proof.
  induction 1 as [|x l Hx Hl IH]; simpl; intros Hs; [constructor|].
  pose proof (Qsum_nonneg l Hl) as Hn.
  constructor; [lra|]. apply IH. lra.
Qed.

Lemma Qsum_map_ext {A} (f g : A -> Q) (l : list A) :
  (forall a, a ∈ l -> (f a == g a)%Q) -> (Qsum (map f l) == Qsum (map g l))%Q.
Proof.
  induction l as [|a l IH]; intros H; simpl; [reflexivity|].
  rewrite (H a) by (by left). rewrite IH; [reflexivity|].
  intros a' Ha'. apply H. by right.
Qed.

Lemma Qsum_map_plus {A} (f g : A -> Q) (l : list A) :
  (Qsum (map (fun a => f a + g a) l) == Qsum (map f l) + Qsum (map g l))%Q.
Proof. induction l as [|a l IH]; simpl; [ring|]. rewrite IH. ring. Qed.

Lemma Qsum_map_minus {A} (f g : A -> Q) (l : list A) :
  (Qsum (map (fun a => f a - g a) l) == Qsum (map f l) - Qsum (map g l))%Q.
Proof. induction l as [|a l IH]; simpl; [ring|]. rewrite IH. ring. Qed.

(** A sum over a filtered list is the sum of the guarded terms. *)
Lemma Qsum_filter {A} (P : A -> Prop) `{!forall a, Decision (P a)} (f : A -> Q) (l : list A) :
  (Qsum (map f (filter P l)) == Qsum (map (fun a => if decide (P a) then f a else 0) l))%Q.
Proof.
  induction l as [|a l IH]; simpl; [reflexivity|].
  destruct (decide (P a)).
  - rewrite filter_cons_True by done. simpl. by rewrite IH.
  - rewrite filter_cons_False by done. rewrite IH. ring.
Qed.

(** Summing, over the nodes [v] of a list without repetition, the terms of
    the arcs with [key a = v] gives the terms of the arcs with [key a] in the
    list. *)
Lemma Qsum_by_key (key : Node * Node -> Node) (f : Node * Node -> Q)
    (U : list Node) (A : list (Node * Node)) :
  NoDup U ->
  (Qsum (map (fun v => Qsum (map f (filter (fun a => key a = v) A))) U)
   == Qsum (map f (filter (fun a => key a ∈ U) A)))%Q.
Proof.
  intros HU. induction A as [|a A IH].
  - simpl. clear HU. induction U as [|v U IHU]; simpl; [reflexivity|].
    rewrite IHU. reflexivity.
  - rewrite (Qsum_map_ext _ (fun v => (if decide (key a = v) then f a else 0)
                                      + Qsum (map f (filter (fun a => key a = v) A)))%Q).
    2:{ intros v _. destruct (decide (key a = v)).
        - rewrite filter_cons_True by done. reflexivity.
        - rewrite filter_cons_False by done. ring. }
    rewrite Qsum_map_plus, IH.
    assert (Hone : (Qsum (map (fun v => if decide (key a = v) then f a else 0) U)
                    == if decide (key a ∈ U) then f a else 0)%Q).
    { clear IH. induction HU as [|v U Hv HU IHU]; cbn [map Qsum foldr].
      - destruct (decide (key a ∈ [])) as [Hin|_]; [by apply elem_of_nil in Hin|reflexivity].
      - rewrite IHU. destruct (decide (key a = v)) as [<-|Hne].
        + destruct (decide (key a ∈ U)); [done|].
          destruct (decide (key a ∈ key a :: U)) as [_|Hn]; [ring|].
          exfalso. apply Hn. by left.
        + destruct (decide (key a ∈ U)) as [Hin|Hin];
            destruct (decide (key a ∈ v :: U)) as [Hin'|Hin']; try ring.
          * exfalso. apply Hin'. by right.
          * exfalso. apply elem_of_cons in Hin' as [?|?]; [by apply Hne|done]. }
    rewrite Hone. destruct (decide (key a ∈ U)).
    + rewrite filter_cons_True by done. reflexivity.
    + rewrite filter_cons_False by done. ring.
Qed.

Section Connectivity.

Variables (num_nodes : nat) (edges : list Edge) (k : Z) (mip_gap time_limit : float).
Variable X : Var -> Q.
Hypothesis Hwf : wf_edges num_nodes edges.
Hypothesis Hfeas : feasible (build_model edges num_nodes k mip_gap time_limit) X.

Lemma feasible_flow_nonneg (a : Node * Node) :
  a ∈ arcs edges -> (0 <= X (flow_var a.1 a.2))%Q.
Proof.
  revert a. apply Forall_arcs.
  destruct Hfeas as [Hv _]. unfold build_model in Hv. cbn [Vars] in Hv.
  apply Forall_app in Hv as [Hv _]. rewrite Forall_flat_map in Hv.
  eapply Forall_impl; [exact Hv|]. intros [[a b] w] H. simpl in H.
  rewrite !Forall_cons in H. simpl in H. tauto.
Qed.

Lemma binary_gt_half (x : Q) :
  (x == 0 \/ x == 1)%Q -> (gt_half x = true <-> (x == 1)%Q) /\ (gt_half x = false <-> (x == 0)%Q).
Proof.
  intros [H|H].
  - rewrite (gt_half_0 x H), H. split; split; try done; intros H1; by compute in H1.
  - rewrite (gt_half_1 x H), H. split; split; try done; intros H1; by compute in H1.
Qed.

(** An arc that leaves the reached part carries no flow. *)
Lemma flow_out_of_reach (a : Node * Node) :
  a ∈ arcs edges -> reach edges X a.1 -> ~ reach edges X a.2 ->
  (X (flow_var a.1 a.2) <= 0)%Q.
Proof.
  intros Ha H1 H2.
  pose proof (feasible_spec _ _ _ _ _ _ Hwf Hfeas) as Hspec.
  pose proof (flow_capacity_linkage _ _ _ _ Hspec a Ha) as Hcap.
  destruct (feasible_binary_arc _ _ _ _ _ _ Hfeas a Ha) as [H0|H1'].
  - rewrite H0 in Hcap. lra.
  - exfalso. apply H2. destruct a as [u v]. simpl in *.
    apply (reach_arc _ _ u v); [done|done|]. by apply gt_half_1.
Qed.

(** Every candidate whose variable is 1 is reached from the root. *)
Lemma selected_reach (i : nat) :
  i < num_nodes -> gt_half (X (node_var (Cand i))) = true -> reach edges X (Cand i).
Proof.
  intros Hi Hsel. apply NNPP. intros Hnot.
  pose proof (feasible_spec _ _ _ _ _ _ Hwf Hfeas) as Hspec.
  destruct (classical_filter (fun v => ~ reach edges X v) (nodes_of num_nodes)
              (nodes_of_NoDup num_nodes)) as (U & HU & Hel).
  set (f := fun a : Node * Node => X (flow_var a.1 a.2)).
  assert (Hcand : forall v, v ∈ U -> exists j, v = Cand j /\ j < num_nodes).
  { intros v Hv. apply Hel in Hv as [Hv Hr]. apply elem_of_nodes_of in Hv.
    destruct v as [|j]; [exfalso; apply Hr; constructor|]. by exists j. }
  assert (Hsum : (Qsum (map (fun v => X (node_var v)) U) <= 0)%Q).
  { rewrite (Qsum_map_ext _ (fun v => flow_in edges X v - flow_out edges X v)%Q).
    2:{ intros v Hv. destruct (Hcand v Hv) as (j & -> & Hj).
        symmetry. exact (flow_conservation_non_root _ _ _ _ Hspec j Hj). }
    rewrite Qsum_map_minus. unfold flow_in, flow_out. fold f.
    rewrite (Qsum_by_key snd f U (arcs edges) HU), (Qsum_by_key fst f U (arcs edges) HU).
    rewrite !Qsum_filter, <- Qsum_map_minus.
    apply Qsum_nonpos. rewrite Forall_map, Forall_forall. intros a Ha.
    pose proof (feasible_flow_nonneg a Ha) as Hnn. fold (f a) in Hnn.
    destruct (decide (a.2 ∈ U)) as [H2|H2], (decide (a.1 ∈ U)) as [H1|H1]; try lra.
    assert (Hle : (f a <= 0)%Q); [|lra].
    apply flow_out_of_reach; [done| |by apply Hel in H2 as [_ H2]].
    apply NNPP. intros Hr. apply H1, Hel. split; [|done].
    by apply (arcs_wf num_nodes edges a Hwf Ha). }
  assert (Hzero : Forall (fun x => x == 0)%Q (map (fun v => X (node_var v)) U)).
  { apply Qsum_zero_each; [|done]. rewrite Forall_map, Forall_forall. intros v Hv.
    destruct (Hcand v Hv) as (j & -> & Hj).
    destruct (feasible_binary_node _ _ _ _ _ _ Hfeas j Hj) as [H|H]; rewrite H; done. }
  rewrite Forall_map, Forall_forall in Hzero.
  assert (HiU : Cand i ∈ U) by (apply Hel; split; [by apply elem_of_nodes_of|done]).
  specialize (Hzero _ HiU). simpl in Hzero.
  rewrite (gt_half_0 _ Hzero) in Hsel. discriminate.
Qed.

(** Reachability along selected arcs is connection through selected edges. *)
Lemma reach_connected (v : Node) :
  reach edges X v -> connected (decode_edges edges X) v.
Proof.
  induction 1 as [|u v _ IH Ha Hsel]; [constructor|].
  apply elem_of_arcs in Ha as ([[a b] w] & He & Ha). simpl in Ha.
  assert (Hin : (a, b, w) ∈ decode_edges edges X).
  { unfold decode_edges. rewrite decode_fold_filter by apply Hwf. simpl.
    apply list_elem_of_filter. split; [|done]. unfold selects. simpl.
    destruct Ha as [[= -> ->]|[= -> ->]]; rewrite Hsel; [done|apply orb_true_r]. }
  apply (connected_edge _ u v w); [done|].
  destruct Ha as [[= -> ->]|[= -> ->]]; auto.
Qed.

(** The endpoints of a selected edge are selected nodes. *)
Lemma selected_endpoints (e : Edge) :
  e ∈ decode_edges edges X ->
  e.1.1 ∈ decode_nodes num_nodes X /\ e.1.2 ∈ decode_nodes num_nodes X.
Proof.
  unfold decode_edges. rewrite decode_fold_filter by apply Hwf. simpl.
  intros [Hsel He]%list_elem_of_filter.
  pose proof (feasible_spec _ _ _ _ _ _ Hwf Hfeas) as Hspec.
  assert (Hnode : forall v, v ∈ nodes_of num_nodes -> (1 <= X (node_var v))%Q ->
                    v ∈ decode_nodes num_nodes X).
  { intros [|j] Hv Hone; unfold decode_nodes; [by left|]. right.
    apply elem_of_nodes_of in Hv. simpl in Hv.
    apply (list_elem_of_fmap_2 Cand). apply list_elem_of_filter. split.
    - destruct (feasible_binary_node _ _ _ _ _ _ Hfeas j Hv) as [H|H].
      + rewrite H in Hone. by compute in Hone.
      + by apply gt_half_1.
    - apply elem_of_seq. lia. }
  assert (Harc : exists a, a ∈ arcs edges /\ (X (arc_var a.1 a.2) == 1)%Q /\
                   (a = (e.1.1, e.1.2) \/ a = (e.1.2, e.1.1))).
  { unfold selects in Hsel. apply orb_true_iff in Hsel as [Hsel|Hsel].
    - exists (e.1.1, e.1.2).
      assert (Ha : (e.1.1, e.1.2) ∈ arcs edges) by (apply elem_of_arcs; exists e; auto).
      split; [done|]. split; [|by left].
      by apply (binary_gt_half _ (feasible_binary_arc _ _ _ _ _ _ Hfeas _ Ha)).
    - exists (e.1.2, e.1.1).
      assert (Ha : (e.1.2, e.1.1) ∈ arcs edges) by (apply elem_of_arcs; exists e; auto).
      split; [done|]. split; [|by right].
      by apply (binary_gt_half _ (feasible_binary_arc _ _ _ _ _ _ Hfeas _ Ha)). }
  destruct Harc as (a & Ha & Hone & Hae).
  destruct (arc_implies_endpoints _ _ _ _ Hspec a Ha) as [H1 H2].
  destruct (arcs_wf num_nodes edges a Hwf Ha) as (Hn1 & Hn2 & _).
  rewrite Hone in H1, H2.
  destruct Hae as [ -> | -> ]; simpl in *; split; by apply Hnode.
Qed.

Lemma selected_connected (v : Node) :
  v ∈ decode_nodes num_nodes X -> connected (decode_edges edges X) v.
Proof.
  unfold decode_nodes. intros [->|Hv]%elem_of_cons; [constructor|].
  apply list_elem_of_fmap in Hv as (i & -> & Hi).
  apply list_elem_of_filter in Hi as [Hsel Hi]. apply elem_of_seq in Hi.
  apply reach_connected, selected_reach; [lia|done].
Qed.

End Connectivity.

Section BuilderInvariant.

Variable hypot : float -> float -> float.

Lemma pruned_edges_wf (coords : list Position) (c_coords : Position) (edges : list Edge) :
  pruned_edges hypot coords c_coords = Ok edges -> wf_edges (length coords) edges.
Proof.
  intros HE. split; [by eapply pruned_edges_keys_NoDup|].
  intros e He. destruct (pruned_edges_precedes hypot _ _ _ HE e He) as (H1 & H2 & H3).
  split; [done|]. split; [done|]. intros Heq. rewrite Heq in H3.
  by apply precedes_irrefl in H3.
Qed.

End BuilderInvariant.

Section Program.

Variable hypot : float -> float -> float.
Variable param_in_range : string -> float -> bool.


(** C3: what the code does when k is too large. Whenever k exceeds the number
    of candidates, k becomes the number of candidates (not that number plus
    one); with 5 candidates and k = 10, on an input that reaches the solver
    (parameters that Gurobi takes, finite weights), the model is built for
    k = 5, and every feasible solution decodes to 5 nodes, the root among
    them, and 4 edges. *)
Theorem C3_clamp_to_candidate_count (coords : list Position) (c_coords : Position)
    (mip_gap time_limit : float) (edges : list Edge) (solver : Model -> Solution) :
  (forall k num_nodes, (Z.of_nat num_nodes < k)%Z -> clamp_k k num_nodes = Z.of_nat num_nodes) /\
  (length coords = 5 ->
   pruned_edges hypot coords c_coords = Ok edges ->
   params_accepted param_in_range mip_gap time_limit = true ->
   finite_weights edges = true ->
   let m := build_model edges 5 5 mip_gap time_limit in
   let out := run solver (milp_kmst hypot param_in_range coords c_coords 10 mip_gap time_limit) in
   out.1 = [Printed "This is not feasible, design for total 5 nodes instead of 10";
            Optimized m] /\
   (SolCount (solver m) <> 0 -> feasible m (X (solver m)) ->
    exists selected_nodes selected_edges,
      out.2 = Ok (selected_nodes, selected_edges) /\
      length selected_nodes = 5 /\ length selected_edges = 4)).
Proof.
  split.
  - intros k num_nodes Hk. unfold clamp_k. by rewrite (proj2 (Z.ltb_lt _ _)).
  - intros Hlen HE Hp Hf m out. unfold out.
    rewrite (run_milp_kmst_accepted hypot param_in_range _ _ _ _ _ edges) by (done || lia).
    rewrite Hlen. change (clamp_k 10 5) with 5%Z. fold m. split; [done|].
    intros Hsol Hfeas. rewrite decide_False by done. cbn [snd].
    pose proof (pruned_edges_wf hypot _ _ _ HE) as Hwf. rewrite Hlen in Hwf.
    pose proof (feasible_nodes_count _ _ _ _ _ _ Hwf Hfeas) as Hnodes.
    pose proof (feasible_edges_count _ _ _ _ _ _ Hwf Hfeas) as Hedges.
    eexists _, _. split; [done|]. lia.
Qed.

(** C8 (amended): k = 1. With no candidate or more than 1500 the result is
    ([], []).  On an accepted input whose pruned list is built with finite
    weights, with parameters that Gurobi takes, the result is (["C"], [])
    whenever the solver reports no solution or a feasible one; the pruned
    list is built for all positions of the plane.  When the list is built
    and Gurobi refuses a parameter or a weight, there is no result: the run
    ends in a [GurobiError]. *)
Theorem C8_k_one (coords : list Position) (c_coords : Position)
    (mip_gap time_limit : float) (solver : Model -> Solution) :
  let out := run solver (milp_kmst hypot param_in_range coords c_coords 1 mip_gap time_limit) in
  (length coords = 0 \/ 1500 < length coords -> out.2 = Ok ([], [])) /\
  (1 <= length coords <= 1500 ->
   forall edges, pruned_edges hypot coords c_coords = Ok edges ->
     (params_accepted param_in_range mip_gap time_limit = true ->
      finite_weights edges = true ->
      let m := build_model edges (length coords) 1 mip_gap time_limit in
      (SolCount (solver m) <> 0 -> feasible m (X (solver m))) ->
      out.2 = Ok ([C], [])) /\
     (params_accepted param_in_range mip_gap time_limit && finite_weights edges = false ->
      out.2 = Err GurobiError)) /\
  (1 <= length coords <= 1500 -> well_shaped coords c_coords ->
   exists edges, pruned_edges hypot coords c_coords = Ok edges).
Proof.
  intros out. split; [|split].
  - intros H. unfold out. by rewrite run_milp_kmst_rejected.
  - intros Hn edges HE. split.
    + intros Hp Hf m Hsound. unfold out.
      rewrite (run_milp_kmst_accepted hypot param_in_range _ _ _ _ _ edges) by done.
      assert (Hk : clamp_k 1 (length coords) = 1%Z).
      { unfold clamp_k. rewrite (proj2 (Z.ltb_ge _ _)); [done|lia]. }
      rewrite Hk. fold m. cbn [snd]. case_decide as Hsol; [done|].
      specialize (Hsound Hsol).
      pose proof (pruned_edges_wf hypot _ _ _ HE) as Hwf.
      pose proof (feasible_nodes_count _ _ _ _ _ _ Hwf Hsound) as Hnodes.
      pose proof (feasible_edges_count _ _ _ _ _ _ Hwf Hsound) as Hedges.
      unfold decode_nodes in *. cbn [length] in Hnodes. rewrite length_map in Hnodes.
      destruct (filter _ (seq 0 (length coords))) as [|i l]; [|simpl in Hnodes; lia].
      destruct (decode_edges edges (X (solver m))) as [|e l]; [done|simpl in Hedges; lia].
    + intros Hno. unfold out.
      by rewrite (run_milp_kmst_refused hypot param_in_range _ _ _ _ _ edges) by done.
  - intros _ Hws. by apply pruned_edges_total.
Qed.

(** C9 (amended): there is no validation. A run ends in an exception only on
    an accepted count and before the solver is called, in one of two ways:
    numpy raises while a distance is computed (a [ValueError] or a
    [TypeError]), or the pruned list is built and Gurobi refuses a parameter
    or a weight that is infinite or not a number (a [GurobiError]); the
    second way is taken whenever the list holds such a weight.  Positions
    of the plane with finite weights and parameters that Gurobi takes never
    raise; and with no candidate or more than 1500 the result is ([], [])
    whatever the positions are. *)
Theorem C9_no_validation (coords : list Position) (c_coords : Position) (k : Z)
    (mip_gap time_limit : float) (solver : Model -> Solution) :
  let out := run solver (milp_kmst hypot param_in_range coords c_coords k mip_gap time_limit) in
  (forall e, out.2 = Err e ->
     1 <= length coords <= 1500 /\
     solver_calls out.1 = 0 /\
     ((pruned_edges hypot coords c_coords = Err e /\ (e = ValueError \/ e = TypeError)) \/
      (e = GurobiError /\
       exists edges, pruned_edges hypot coords c_coords = Ok edges /\
         (params_accepted param_in_range mip_gap time_limit = false \/
          finite_weights edges = false)))) /\
  (forall edges, 1 <= length coords <= 1500 ->
     pruned_edges hypot coords c_coords = Ok edges ->
     finite_weights edges = false ->
     out.2 = Err GurobiError /\ solver_calls out.1 = 0) /\
  (well_shaped coords c_coords ->
   params_accepted param_in_range mip_gap time_limit = true ->
   (forall edges, pruned_edges hypot coords c_coords = Ok edges ->
      finite_weights edges = true) ->
   exists r, out.2 = Ok r) /\
  (length coords = 0 \/ 1500 < length coords -> out.2 = Ok ([], [])).
Proof.
  intros out.
  assert (Hrej : length coords = 0 \/ 1500 < length coords -> out.2 = Ok ([], [])).
  { intros H. unfold out. by rewrite run_milp_kmst_rejected. }
  split; [|split; [|split; [|done]]].
  - intros e He. by apply run_milp_kmst_Err.
  - intros edges Hn HE Hf. unfold out.
    rewrite (run_milp_kmst_refused hypot param_in_range _ _ _ _ _ edges)
      by (done || (rewrite Hf; apply andb_false_r)).
    split; [done|]. apply solver_calls_prefix.
  - intros Hws Hp Hfin.
    destruct (decide (length coords = 0 \/ 1500 < length coords)) as [Hr|Ha].
    { eexists. by apply Hrej. }
    destruct (pruned_edges_total hypot coords c_coords Hws) as [edges HE].
    unfold out.
    rewrite (run_milp_kmst_accepted hypot param_in_range _ _ _ _ _ edges)
      by (done || lia || by apply Hfin).
    by eexists.
Qed.

(** X1: the cardinality invariant. On an accepted input that reaches the
    solver (the pruned list is built with finite weights, Gurobi takes the
    parameters), a solution that is feasible for the model decodes to k'
    nodes, the root among them, and k' - 1 edges, where k' is k after lines
    34-37. *)
Theorem X1_cardinality (coords : list Position) (c_coords : Position) (k : Z)
    (mip_gap time_limit : float) (edges : list Edge) (solver : Model -> Solution) :
  let k' := clamp_k k (length coords) in
  let m := build_model edges (length coords) k' mip_gap time_limit in
  1 <= length coords <= 1500 ->
  pruned_edges hypot coords c_coords = Ok edges ->
  params_accepted param_in_range mip_gap time_limit = true ->
  finite_weights edges = true ->
  SolCount (solver m) <> 0 ->
  feasible m (X (solver m)) ->
  exists selected_nodes selected_edges,
    (run solver (milp_kmst hypot param_in_range coords c_coords k mip_gap time_limit)).2 =
      Ok (selected_nodes, selected_edges) /\
    C ∈ selected_nodes /\
    Z.of_nat (length selected_nodes) = k' /\
    Z.of_nat (length selected_edges) = (k' - 1)%Z.
Proof.
  intros k' m Hn HE Hp Hf Hsol Hfeas.
  rewrite (run_milp_kmst_accepted hypot param_in_range _ _ _ _ _ edges) by done.
  fold k' m. rewrite decide_False by done. cbn [snd].
  pose proof (pruned_edges_wf hypot _ _ _ HE) as Hwf.
  eexists _, _. split; [reflexivity|]. split; [by left|]. split.
  - by eapply feasible_nodes_count.
  - by eapply feasible_edges_count.
Qed.

(** X2: the connectivity invariant. On an accepted input that reaches the
    solver (the pruned list is built with finite weights, Gurobi takes the
    parameters), a solution that is feasible for the model decodes to a tree
    on the selected nodes: every selected node is joined to the root by
    selected edges, every selected edge joins two selected nodes, and there
    is one edge less than there are nodes. *)
Theorem X2_connectivity (coords : list Position) (c_coords : Position) (k : Z)
    (mip_gap time_limit : float) (edges : list Edge) (solver : Model -> Solution) :
  let k' := clamp_k k (length coords) in
  let m := build_model edges (length coords) k' mip_gap time_limit in
  1 <= length coords <= 1500 ->
  pruned_edges hypot coords c_coords = Ok edges ->
  params_accepted param_in_range mip_gap time_limit = true ->
  finite_weights edges = true ->
  SolCount (solver m) <> 0 ->
  feasible m (X (solver m)) ->
  exists selected_nodes selected_edges,
    (run solver (milp_kmst hypot param_in_range coords c_coords k mip_gap time_limit)).2 =
      Ok (selected_nodes, selected_edges) /\
    (forall v, v ∈ selected_nodes -> connected selected_edges v) /\
    (forall e, e ∈ selected_edges -> e.1.1 ∈ selected_nodes /\ e.1.2 ∈ selected_nodes) /\
    length selected_nodes = length selected_edges + 1.
Proof.
  intros k' m Hn HE Hp Hf Hsol Hfeas.
  rewrite (run_milp_kmst_accepted hypot param_in_range _ _ _ _ _ edges) by done.
  fold k' m. rewrite decide_False by done. cbn [snd].
  pose proof (pruned_edges_wf hypot _ _ _ HE) as Hwf.
  eexists _, _. split; [reflexivity|]. split; [|split].
  - intros v. by eapply selected_connected.
  - intros e. by eapply selected_endpoints.
  - pose proof (feasible_nodes_count _ _ _ _ _ _ Hwf Hfeas) as Hnodes.
    pose proof (feasible_edges_count _ _ _ _ _ _ Hwf Hfeas) as Hedges.
    lia.
Qed.

End Program.

(** ** The theorems at concrete inputs *)

Lemma well_shaped_one_candidate : well_shaped one_candidate origin.
Proof. split; [done|]. by repeat constructor. Qed.

Lemma pruned_one_candidate :
  pruned_edges hypot_sqrt one_candidate origin = Ok [(C, Cand 0, 10%float)].
Proof. vm_compute. reflexivity. Qed.


(** The rule at work. Of the five candidates on a line, the first two are
    one unit apart and the first is one unit from the root: their pair is
    kept.  The candidates at (3, 0) and (0, 4) are further apart than either
    is from the root: their pair is not in the list. *)
Lemma C2_witness :
  (Cand 0, Cand 1, 1%float) ∈ five_edges /\
  pruned_edges hypot_sqrt corner_candidates origin =
    Ok [(C, Cand 0, 3%float); (C, Cand 1, 4%float)] /\
  Forall (fun e : Edge => endpoints e <> (Cand 0, Cand 1))
    [(C, Cand 0, 3%float); (C, Cand 1, 4%float)].
Proof.
  split; [|split; [vm_compute; reflexivity|]].
  - destruct (C2_pruned_edge_list hypot_sqrt gurobi_range five_candidates origin) as [_ H].
    destruct (H five_edges) as (_ & Hrule & _); [vm_compute; reflexivity|].
    apply Hrule.
    + split; [reflexivity|]. repeat constructor.
    + simpl. lia.
    + simpl. lia.
    + simpl. lia.
    + right. exists 1%float. split; reflexivity.
    + split.
      * exists [1; 0]%float, [2; 0]%float. repeat split; reflexivity.
      * right. right. exists 1%float, 2%float. repeat split; try reflexivity.
        left. reflexivity.
  - destruct (C2_pruned_edge_list hypot_sqrt gurobi_range corner_candidates origin) as [_ H].
    destruct (H [(C, Cand 0, 3%float); (C, Cand 1, 4%float)]) as (_ & Hrule & _);
      [vm_compute; reflexivity|].
    apply Forall_forall. intros [[a b] w] He [= -> ->]. revert He.
    rewrite Hrule.
    + intros [(p1 & p2 & [= <-] & [= <-] & [= <-]) Hkeep].
      destruct Hkeep as [Hc|[Hc|(d1 & d2 & [= <-] & [= <-] & [Hle|Hle])]];
        try discriminate Hc; vm_compute in Hle; discriminate Hle.
    + split; [reflexivity|]. repeat constructor.
    + simpl. lia.
    + simpl. lia.
    + simpl. lia.
    + right. exists 3%float. split; reflexivity.
Defined.

(** The distance of the two corner candidates, and the test that prunes
    their pair. *)
Example corner_candidates_pruned :
  distance hypot_sqrt [3; 0]%float [0; 4]%float = Some 5%float /\
  PrimFloat.leb 5 (pymax 3 4) = false.
Proof. split; reflexivity. Qed.

(** Five candidates, k = 10, and the star on four of them, which is feasible
    for the model the code builds. *)
Lemma C3_witness :
  exists selected_nodes selected_edges,
    (run (star_solver 4)
       (milp_kmst hypot_sqrt gurobi_range five_candidates origin 10 gap limit)).2 =
      Ok (selected_nodes, selected_edges) /\
    length selected_nodes = 5 /\ length selected_edges = 4.
Proof.
  apply (C3_clamp_to_candidate_count hypot_sqrt gurobi_range five_candidates origin gap limit
           five_edges (star_solver 4)).
  - reflexivity.
  - vm_compute. reflexivity.
  - vm_compute. reflexivity.
  - vm_compute. reflexivity.
  - simpl. lia.
  - apply feasibleb_sound. vm_compute. reflexivity.
Defined.

(** Two candidates, k = 2, and the star on the first: one edge is selected,
    with the weight of the pruned list. *)
Lemma C4_witness :
  exists selected_nodes selected_edges,
    (run (star_solver 1)
       (milp_kmst hypot_sqrt gurobi_range two_candidates origin 2 gap limit)).2 =
      Ok (selected_nodes, selected_edges) /\
    selected_edges = [(C, Cand 0, 10%float)].
Proof.
  destruct (C4_decoder_edges hypot_sqrt gurobi_range two_candidates origin 2 gap limit
              [(C, Cand 0, 10%float); (C, Cand 1, 5%float)] (star_solver 1))
    as (selected_nodes & selected_edges & Hrun & Hfilter & _).
  - simpl. lia.
  - vm_compute. reflexivity.
  - vm_compute. reflexivity.
  - vm_compute. reflexivity.
  - simpl. lia.
  - exists selected_nodes, selected_edges. split; [exact Hrun|].
    rewrite Hfilter. vm_compute. reflexivity.
Defined.

(** One candidate and a solver that finds nothing: the solver is called once
    and the result is (["C"], []). *)
Lemma C5_witness :
  solver_calls
    (run no_solution (milp_kmst hypot_sqrt gurobi_range one_candidate origin 1 gap limit)).1
    = 1 /\
  (run no_solution (milp_kmst hypot_sqrt gurobi_range one_candidate origin 1 gap limit)).2
    = Ok ([C], []).
Proof.
  destruct (C5_no_solution hypot_sqrt gurobi_range one_candidate origin 1 gap limit no_solution)
    as (_ & H & _).
  destruct (H [(C, Cand 0, 10%float)]) as (m & _ & Hcalls & Hres).
  - simpl. lia.
  - vm_compute. reflexivity.
  - vm_compute. reflexivity.
  - vm_compute. reflexivity.
  - split; [exact Hcalls|]. apply Hres. reflexivity.
Defined.

(** 1501 candidates. *)
Lemma C7_witness :
  milp_kmst hypot_sqrt gurobi_range (replicate 1501 origin) origin 20 gap limit =
    Print capacity_msg (Ret ([], [])) /\
  run no_solution (milp_kmst hypot_sqrt gurobi_range (replicate 1501 origin) origin 20 gap limit) =
    ([Printed capacity_msg], Ok ([], [])) /\
  solver_calls
    (run no_solution
       (milp_kmst hypot_sqrt gurobi_range (replicate 1501 origin) origin 20 gap limit)).1 = 0.
Proof.
  apply (C7_capacity_violation hypot_sqrt gurobi_range (replicate 1501 origin) origin 20
           gap limit no_solution).
  rewrite length_replicate. lia.
Defined.

(** One candidate, k = 1, and the feasible solution that selects the root
    alone. *)
Lemma C8_witness :
  (run (star_solver 0)
     (milp_kmst hypot_sqrt gurobi_range one_candidate origin 1 gap limit)).2 = Ok ([C], []).
Proof.
  destruct (C8_k_one hypot_sqrt gurobi_range one_candidate origin gap limit (star_solver 0))
    as (_ & H & _).
  destruct (H ltac:(simpl; lia) [(C, Cand 0, 10%float)]) as [Hres _].
  - vm_compute. reflexivity.
  - apply Hres.
    + vm_compute. reflexivity.
    + vm_compute. reflexivity.
    + intros _. apply feasibleb_sound. vm_compute. reflexivity.
Defined.

(** With k = 1 the result is not always (["C"], []): with no candidate, and
    with 1501 of them, it is ([], []); with a candidate of three components
    numpy raises; with a candidate at infinity Gurobi raises. *)
Lemma C8_counterexample :
  (run no_solution (milp_kmst hypot_sqrt gurobi_range [] origin 1 gap limit)).2 = Ok ([], []) /\
  (run no_solution
     (milp_kmst hypot_sqrt gurobi_range (replicate 1501 origin) origin 1 gap limit)).2
    = Ok ([], []) /\
  (run no_solution
     (milp_kmst hypot_sqrt gurobi_range [[1; 2; 3]%float] origin 1 gap limit)).2
    = Err ValueError /\
  (run no_solution
     (milp_kmst hypot_sqrt gurobi_range infinite_candidate origin 1 gap limit)).2
    = Err GurobiError /\
  Ok ([], []) <> Ok ([C], @nil Edge).
Proof. repeat split; try (vm_compute; reflexivity). discriminate. Qed.

(** One candidate at (10, 0): nothing is raised. *)
Lemma C9_witness :
  exists r,
    (run no_solution (milp_kmst hypot_sqrt gurobi_range one_candidate origin 1 gap limit)).2
    = Ok r.
Proof.
  destruct (C9_no_validation hypot_sqrt gurobi_range one_candidate origin 1 gap limit
              no_solution) as (_ & _ & H & _).
  apply H.
  - split; [reflexivity|]. repeat constructor.
  - vm_compute. reflexivity.
  - intros edges HE. vm_compute in HE. injection HE as <-. vm_compute. reflexivity.
Defined.

(** Malformed inputs that raise nothing. A candidate of one component next to
    a root of two is accepted: the model is built with the edge to the root,
    the solver is called, and the result is an ordinary one.  With no
    candidate, a root that is not a number gives the empty result, and so do
    1501 candidates at infinity. *)
Lemma C9_counterexample :
  run no_solution (milp_kmst hypot_sqrt gurobi_range short_candidate root_0_7 1 gap limit) =
    ([Optimized (build_model [(C, Cand 0, 5%float)] 1 1 gap limit)], Ok ([C], [])) /\
  run no_solution (milp_kmst hypot_sqrt gurobi_range [] [nan; nan]%float 1 gap limit) =
    ([Printed no_candidates_msg], Ok ([], [])) /\
  run no_solution
    (milp_kmst hypot_sqrt gurobi_range (replicate 1501 [infinity; 0]%float) origin 1 gap limit) =
    ([Printed capacity_msg], Ok ([], [])).
Proof. repeat split; vm_compute; reflexivity. Qed.

(** A candidate with an infinite coordinate on an accepted count: its edge to
    the root has an infinite weight, Gurobi refuses it at line 85, after the
    variables and the first constraints were added to the model, and the
    solver is not called. *)
Example infinite_candidate_refused :
  pruned_edges hypot_sqrt infinite_candidate origin = Ok [(C, Cand 0, infinity)] /\
  run no_solution (milp_kmst hypot_sqrt gurobi_range infinite_candidate origin 1 gap limit) =
    ([], Err GurobiError).
Proof. split; vm_compute; reflexivity. Qed.

(** The scenario of one candidate at (10, 0) and k = 2: k becomes 1, and a
    feasible solution selects the root alone. *)
Example one_candidate_k_two :
  run (star_solver 0) (milp_kmst hypot_sqrt gurobi_range one_candidate origin 2 gap limit) =
    ([Printed "This is not feasible, design for total 1 nodes instead of 2";
      Optimized (build_model [(C, Cand 0, 10%float)] 1 1 gap limit)],
     Ok ([C], [])) /\
  feasible (build_model [(C, Cand 0, 10%float)] 1 1 gap limit) (star 0).
Proof. split; [vm_compute; reflexivity|]. apply feasibleb_sound. vm_compute. reflexivity. Qed.

Example euclid_3_4 : _euclid hypot_sqrt [3; 4]%float origin = Ok 5%float.
Proof. reflexivity. Qed.

Example euclid_not_broadcast :
  _euclid hypot_sqrt [1; 2; 3]%float origin = Err ValueError /\
  _euclid hypot_sqrt [1; 2; 3]%float [1; 2; 3]%float = Err TypeError.
Proof. split; reflexivity. Qed.

Example pymax_nan :
  pymax nan 1 = nan /\ pymax 1 nan = 1%float.
Proof. split; reflexivity. Qed.

(** Five candidates, k = 3, and the star on two of them. *)
Lemma X1_witness :
  exists selected_nodes selected_edges,
    (run (star_solver 2) (milp_kmst hypot_sqrt gurobi_range five_candidates origin 3 gap limit)).2 =
      Ok (selected_nodes, selected_edges) /\
    C ∈ selected_nodes /\
    Z.of_nat (length selected_nodes) = 3%Z /\
    Z.of_nat (length selected_edges) = 2%Z.
Proof.
  apply (X1_cardinality hypot_sqrt gurobi_range five_candidates origin 3 gap limit
           five_edges (star_solver 2)).
  - simpl. lia.
  - vm_compute. reflexivity.
  - vm_compute. reflexivity.
  - vm_compute. reflexivity.
  - simpl. lia.
  - apply feasibleb_sound. vm_compute. reflexivity.
Defined.

(** Five candidates, k = 3, and the star on two of them. *)
Lemma X2_witness :
  exists selected_nodes selected_edges,
    (run (star_solver 2) (milp_kmst hypot_sqrt gurobi_range five_candidates origin 3 gap limit)).2 =
      Ok (selected_nodes, selected_edges) /\
    (forall v, v ∈ selected_nodes -> connected selected_edges v) /\
    (forall e, e ∈ selected_edges -> e.1.1 ∈ selected_nodes /\ e.1.2 ∈ selected_nodes) /\
    length selected_nodes = length selected_edges + 1.
Proof.
  apply (X2_connectivity hypot_sqrt gurobi_range five_candidates origin 3 gap limit
           five_edges (star_solver 2)).
  - simpl. lia.
  - vm_compute. reflexivity.
  - vm_compute. reflexivity.
  - vm_compute. reflexivity.
  - simpl. lia.
  - apply feasibleb_sound. vm_compute. reflexivity.
Defined.

(** * Further properties *)

(** ** The distance oracle on all shapes *)

Lemma np_sub_Ok_length (a b d : Position) :
  np_sub a b = Ok d ->
  (length a = length b /\ length d = length a) \/
  (length a = 1 /\ length b <> 1 /\ length d = length b) \/
  (length b = 1 /\ length a <> 1 /\ length d = length a).
Proof.
  unfold np_sub. case_decide as Hlen.
  - intros [= <-]. left. split; [done|]. rewrite length_zip_with. lia.
  - destruct a as [|a0 [|a1 a]].
    + destruct b as [|b0 [|b1 b]]; try done. intros [= <-]. right. right. done.
    + intros [= <-]. right. left.
      split; [done|]. split; [simpl in *; lia|simpl; by rewrite ?length_map].
    + destruct b as [|b0 [|b1 b]]; try done. intros [= <-]. right. right.
      split; [done|]. split; [simpl in *; lia|simpl; by rewrite ?length_map].
Qed.

Lemma np_sub_Err (a b : Position) (e : exn) :
  np_sub a b = Err e <->
  e = ValueError /\ length a <> length b /\ length a <> 1 /\ length b <> 1.
Proof.
  unfold np_sub. case_decide as Hlen.
  - split; [done|]. intros (_ & ? & _). done.
  - destruct a as [|a0 [|a1 a]], b as [|b0 [|b1 b]]; simpl in *;
      (split; [intros [= <-] || (intros [=]; fail) | intros (-> & ? & ? & ?)]);
      try done; try lia; auto with lia.
Qed.

Section Shapes.

Variable hypot : float -> float -> float.

Lemma _euclid_Ok_iff (a b : Position) :
  (exists w, _euclid hypot a b = Ok w) <-> shapes_ok a b.
Proof.
  unfold _euclid, shapes_ok. split.
  - intros [w H]. apply rbind_Ok in H as (d & Hd & H).
    assert (Hl : length d = 2) by (by destruct d as [|? [|? [|]]]).
    apply np_sub_Ok_length in Hd. lia.
  - intros H.
    destruct a as [|a0 [|a1 [|]]], b as [|b0 [|b1 [|]]]; simpl in H; try lia;
      by eexists.
Qed.

(** X3: the outcome of a distance computation is decided by the two shapes. *)
Theorem X3_euclid_shapes (a b : Position) :
  ((exists w, _euclid hypot a b = Ok w) <-> shapes_ok a b) /\
  (_euclid hypot a b = Err ValueError <->
   length a <> length b /\ length a <> 1 /\ length b <> 1) /\
  (_euclid hypot a b = Err TypeError <->
   (length a = length b \/ length a = 1 \/ length b = 1) /\ ~ shapes_ok a b) /\
  _euclid hypot a b <> Err KeyError /\
  (forall a0 a1 b0 b1,
     _euclid hypot [a0; a1] [b0; b1] = Ok (hypot (a0 - b0) (a1 - b1))%float /\
     _euclid hypot [a0] [b0; b1] = Ok (hypot (a0 - b0) (a0 - b1))%float /\
     _euclid hypot [a0; a1] [b0] = Ok (hypot (a0 - b0) (a1 - b0))%float).
Proof.
  split; [apply _euclid_Ok_iff|].
  assert (HV : _euclid hypot a b = Err ValueError <->
               length a <> length b /\ length a <> 1 /\ length b <> 1).
  { unfold _euclid. rewrite rbind_Err. split.
    - intros [H|(d & _ & H)].
      + apply np_sub_Err in H. tauto.
      + by destruct d as [|? [|? [|]]].
    - intros H. left. apply np_sub_Err. tauto. }
  split; [exact HV|]. split; [|split].
  - split.
    + intros H. split.
      * destruct (decide (length a = length b)); [auto|].
        destruct (decide (length a = 1)); [auto|].
        destruct (decide (length b = 1)); [auto|].
        assert (Hv : _euclid hypot a b = Err ValueError) by (apply HV; done).
        congruence.
      * intros Hs. apply _euclid_Ok_iff in Hs as [w Hw]. congruence.
    + intros [Hb Hs]. destruct (_euclid hypot a b) as [w|[| | |]] eqn:He.
      * exfalso. apply Hs, _euclid_Ok_iff. by exists w.
      * destruct HV as [HV _]. specialize (HV eq_refl). lia.
      * done.
      * apply _euclid_Err in He as [?|?]; congruence.
      * apply _euclid_Err in He as [?|?]; congruence.
  - intros H. apply _euclid_Err in H as [?|?]; congruence.
  - done.
Qed.

End Shapes.

(** ** The inputs on which the graph builder goes through *)

Lemma for__is_Ok {A B} (l : list A) (body : A -> result (list B)) :
  (exists r, for_ l body = Ok r) <-> forall a, a ∈ l -> exists r, body a = Ok r.
Proof.
  split; [|apply for__total].
  intros [r H] a Ha. apply for__Ok in H as (rs & Hrs & _).
  apply list_elem_of_lookup in Ha as [i Hi].
  destruct (Forall2_lookup_l _ _ _ _ _ Hrs Hi) as (r' & _ & Hr'). by exists r'.
Qed.

Lemma elem_of_enumerate {A} (l : list A) (i : nat) (a : A) :
  (i, a) ∈ enumerate l <-> l !! i = Some a.
Proof.
  unfold enumerate. rewrite list_elem_of_lookup. split.
  - intros [i' H]. rewrite list_lookup_imap in H.
    destruct (l !! i') eqn:Hi'; [|done]. by injection H as <- <-.
  - intros H. exists i. by rewrite list_lookup_imap, H.
Qed.

Lemma elem_of_drop_S {A} (l : list A) (i : nat) (b : A) :
  b ∈ drop (i + 1) l <-> exists j, i < j /\ l !! j = Some b.
Proof.
  rewrite list_elem_of_lookup. split.
  - intros [j Hj]. rewrite lookup_drop in Hj. exists (i + 1 + j). split; [lia|done].
  - intros (j & Hij & Hj). exists (j - (i + 1)). rewrite lookup_drop, <- Hj. f_equal. lia.
Qed.

Section Accepted.

Variable hypot : float -> float -> float.
Variable param_in_range : string -> float -> bool.

Lemma distances_is_Ok (coords : list Position) (c_coords : Position) :
  (exists d, distances_to_root_of hypot (nodes_of (length coords))
               (node_positions_of coords c_coords) = Ok d) <->
  forall x p, is_node (length coords) x ->
    node_positions_of coords c_coords !! x = Some p -> shapes_ok p c_coords.
Proof.
  unfold distances_to_root_of. split.
  - intros [d H] x p Hx Hp. apply rbind_Ok in H as (l & H & _).
    assert (Hl : exists l, for_ (nodes_of (length coords)) (fun node =>
         p <~ getitem (node_positions_of coords c_coords) node;
         r <~ getitem (node_positions_of coords c_coords) root;
         d <~ _euclid hypot p r;
         Ok [(node, d)]) = Ok l) by (by exists l).
    rewrite for__is_Ok in Hl. destruct (Hl x) as [r Hr]; [by apply elem_of_nodes_of|].
    unfold getitem in Hr. rewrite Hp, node_positions_root in Hr. simpl in Hr.
    apply rbind_Ok in Hr as (w & Hw & _). apply (_euclid_Ok_iff hypot). by exists w.
  - intros H.
    destruct (for__total (nodes_of (length coords)) (fun node =>
         p <~ getitem (node_positions_of coords c_coords) node;
         r <~ getitem (node_positions_of coords c_coords) root;
         d <~ _euclid hypot p r;
         Ok [(node, d)])) as [l Hl].
    + intros x Hx%elem_of_nodes_of.
      destruct (node_positions_is_Some coords c_coords x Hx) as [p Hp].
      unfold getitem. rewrite Hp, node_positions_root. simpl.
      destruct (proj2 (_euclid_Ok_iff hypot p c_coords) (H x p Hx Hp)) as [w ->].
      by eexists.
    + rewrite Hl. by eexists.
Qed.

Lemma edges_of_is_Ok (coords : list Position) (c_coords : Position) (d : gmap Node float) :
  distances_to_root_of hypot (nodes_of (length coords))
    (node_positions_of coords c_coords) = Ok d ->
  (exists edges, edges_of hypot (nodes_of (length coords))
                   (node_positions_of coords c_coords) d = Ok edges) <->
  forall a b p1 p2,
    is_node (length coords) a -> is_node (length coords) b -> precedes a b ->
    node_positions_of coords c_coords !! a = Some p1 ->
    node_positions_of coords c_coords !! b = Some p2 -> shapes_ok p1 p2.
Proof.
  intros Hd. unfold edges_of. rewrite for__is_Ok.
  assert (Hdx : forall x p, is_node (length coords) x ->
            node_positions_of coords c_coords !! x = Some p -> exists dx, d !! x = Some dx).
  { intros x p Hx Hp.
    assert (Hok : exists d', distances_to_root_of hypot (nodes_of (length coords))
               (node_positions_of coords c_coords) = Ok d') by (by exists d).
    pose proof (proj1 (distances_is_Ok coords c_coords) Hok x p Hx Hp) as Hs.
    apply (_euclid_Ok_iff hypot) in Hs as [w Hw]. exists w.
    apply (distances_to_root_lookup hypot _ _ _ _ _ (nodes_of_NoDup _) Hd).
    split; [by apply elem_of_nodes_of|]. exists p, c_coords.
    by rewrite node_positions_root. }
  split.
  - intros H a b p1 p2 Ha Hb Hab Hp1 Hp2.
    assert (Hbefore : is_node (length coords) a /\ is_node (length coords) b /\ precedes a b)
      by done.
    apply nodes_of_before in Hbefore as (i & j & Hij & Hi & Hj).
    destruct (H (i, a)) as [r Hr]; [by apply elem_of_enumerate|].
    assert (Hr' : exists r, for_ (drop (i + 1) (nodes_of (length coords)))
              (fun node2 => edge_body hypot (node_positions_of coords c_coords) d a node2) = Ok r)
      by (by exists r).
    rewrite for__is_Ok in Hr'. destruct (Hr' b) as [r' Hb'].
    { apply elem_of_drop_S. by exists j. }
    apply edge_body_Ok_inv in Hb' as (q1 & q2 & w & Hq1 & Hq2 & Hw).
    apply (_euclid_Ok_iff hypot). exists w. congruence.
  - intros H [i a] Hia. apply elem_of_enumerate in Hia.
    apply for__is_Ok. intros b Hb. apply elem_of_drop_S in Hb as (j & Hij & Hj).
    assert (Hbefore : is_node (length coords) a /\ is_node (length coords) b /\ precedes a b).
    { apply nodes_of_before. by exists i, j. }
    destruct Hbefore as (Ha & Hb & Hab).
    destruct (node_positions_is_Some coords c_coords a Ha) as [p1 Hp1].
    destruct (node_positions_is_Some coords c_coords b Hb) as [p2 Hp2].
    destruct (proj2 (_euclid_Ok_iff hypot p1 p2) (H a b p1 p2 Ha Hb Hab Hp1 Hp2)) as [w Hw].
    destruct (Hdx a p1 Ha Hp1) as [da Hda]. destruct (Hdx b p2 Hb Hp2) as [db Hdb].
    unfold edge_body, getitem. rewrite Hp1, Hp2, Hda, Hdb. simpl. rewrite Hw. simpl.
    repeat case_decide; simpl; by eexists.
Qed.

Lemma pruned_edges_is_Ok (coords : list Position) (c_coords : Position) :
  (exists edges, pruned_edges hypot coords c_coords = Ok edges) <->
  shapes_accepted coords c_coords.
Proof.
  unfold pruned_edges. split.
  - intros [edges H]. apply rbind_Ok in H as (d & Hd & H).
    assert (Hdist : forall x p, is_node (length coords) x ->
              node_positions_of coords c_coords !! x = Some p -> shapes_ok p c_coords).
    { apply distances_is_Ok. by exists d. }
    assert (Hedges : forall a b p1 p2,
              is_node (length coords) a -> is_node (length coords) b -> precedes a b ->
              node_positions_of coords c_coords !! a = Some p1 ->
              node_positions_of coords c_coords !! b = Some p2 -> shapes_ok p1 p2).
    { apply (edges_of_is_Ok coords c_coords d Hd). by exists edges. }
    assert (Hc : length c_coords = 2).
    { specialize (Hdist C c_coords I (node_positions_root _ _)). unfold shapes_ok in Hdist. lia. }
    split; [done|]. split.
    + apply Forall_lookup. intros i p Hi.
      assert (Hlt : i < length coords) by (by eapply lookup_lt_Some).
      specialize (Hdist (Cand i) p Hlt). rewrite node_positions_Cand in Hdist.
      specialize (Hdist Hi). unfold shapes_ok in Hdist. lia.
    + intros i j p q Hij Hi Hj [Hp Hq].
      assert (Hlj : j < length coords) by (by eapply lookup_lt_Some).
      specialize (Hedges (Cand i) (Cand j) p q). simpl in Hedges.
      rewrite !node_positions_Cand in Hedges.
      specialize (Hedges ltac:(lia) Hlj Hij Hi Hj). unfold shapes_ok in Hedges. lia.
  - intros (Hc & Hall & Hpair).
    assert (Hlen : forall i p, coords !! i = Some p -> length p = 1 \/ length p = 2).
    { intros i p Hi. by apply (proj1 (Forall_lookup _ _) Hall i p). }
    assert (Hd : exists d, distances_to_root_of hypot (nodes_of (length coords))
               (node_positions_of coords c_coords) = Ok d).
    { apply distances_is_Ok. intros [|i] p Hx Hp.
      - change C with root in Hp. rewrite node_positions_root in Hp. injection Hp as <-.
        by left.
      - rewrite node_positions_Cand in Hp. specialize (Hlen i p Hp). unfold shapes_ok. lia. }
    destruct Hd as [d Hd]. rewrite Hd. simpl. apply (edges_of_is_Ok coords c_coords d Hd).
    intros [|i] [|j] p1 p2 Ha Hb Hab Hp1 Hp2; simpl in Hab; try done.
    + change C with root in Hp1. rewrite node_positions_root in Hp1. injection Hp1 as <-.
      rewrite node_positions_Cand in Hp2. specialize (Hlen j p2 Hp2). unfold shapes_ok. lia.
    + rewrite node_positions_Cand in Hp1, Hp2.
      pose proof (Hlen i p1 Hp1). pose proof (Hlen j p2 Hp2).
      specialize (Hpair i j p1 p2 Hab Hp1 Hp2). unfold shapes_ok. lia.
Qed.

(** X4: the builder goes through exactly on a root of two components with
    candidates of one or two components, at most one of them of one.  On an
    accepted count [milp_kmst] ends in an exception exactly when the shapes
    are others than these, or the list is built and Gurobi refuses a
    parameter or a weight that is infinite or not a number; the exception is
    a [GurobiError] exactly in the second case. *)
Theorem X4_accepted_shapes (coords : list Position) (c_coords : Position) :
  ((exists edges, pruned_edges hypot coords c_coords = Ok edges) <->
   shapes_accepted coords c_coords) /\
  (forall k mip_gap time_limit solver,
     1 <= length coords <= 1500 ->
     let out :=
       run solver (milp_kmst hypot param_in_range coords c_coords k mip_gap time_limit) in
     let refused :=
       exists edges, pruned_edges hypot coords c_coords = Ok edges /\
         (params_accepted param_in_range mip_gap time_limit = false \/
          finite_weights edges = false) in
     ((exists e, out.2 = Err e) <-> ~ shapes_accepted coords c_coords \/ refused) /\
     (out.2 = Err GurobiError <-> refused)).
Proof.
  split; [apply pruned_edges_is_Ok|].
  intros k mip_gap time_limit solver Hn out refused. unfold out, refused.
  rewrite <- pruned_edges_is_Ok.
  destruct (pruned_edges hypot coords c_coords) as [edges|e] eqn:HE.
  - destruct (params_accepted param_in_range mip_gap time_limit && finite_weights edges)
      eqn:Hok.
    + apply andb_true_iff in Hok as [Hp Hf].
      rewrite (run_milp_kmst_accepted hypot param_in_range _ _ _ _ _ edges) by done.
      cbn [snd]. split; split.
      * by intros [e He].
      * intros [H|(edges' & [= <-] & [H|H])]; [|congruence..].
        exfalso. apply H. by exists edges.
      * done.
      * intros (edges' & [= <-] & [H|H]); congruence.
    + rewrite (run_milp_kmst_refused hypot param_in_range _ _ _ _ _ edges) by done.
      cbn [snd]. apply andb_false_iff in Hok.
      assert (Href : exists edges', Ok edges = Ok edges' /\
                (params_accepted param_in_range mip_gap time_limit = false \/
                 finite_weights edges' = false)) by (by exists edges).
      split; split; try done.
      * intros _. by right.
      * intros _. by exists GurobiError.
  - rewrite (run_milp_kmst_raises hypot param_in_range _ _ _ _ _ e) by done. cbn [snd].
    split; split.
    + intros _. left. by intros [edges He].
    + intros _. by exists e.
    + intros [= ->]. by destruct (pruned_edges_Err hypot _ _ _ HE).
    + by intros (edges & [=] & _).
Qed.

End Accepted.

(** ** The size of the pruned list and of the model *)

Lemma for__length_le {A B} (l : list A) (body : A -> result (list B)) (c : A -> nat)
    (r : list B) :
  for_ l body = Ok r ->
  (forall a r', a ∈ l -> body a = Ok r' -> length r' <= c a) ->
  length r <= sum_list (c <$> l).
Proof.
  revert r. induction l as [|a l IH]; intros r H Hc; simpl in H.
  - injection H as <-. simpl. lia.
  - apply rbind_Ok in H as (r1 & H1 & H). apply rbind_Ok in H as (r2 & H2 & [= <-]).
    rewrite length_app, fmap_cons. simpl sum_list.
    pose proof (Hc a r1 ltac:(by left) H1).
    pose proof (IH r2 H2 ltac:(intros a' r' Ha'; apply Hc; by right)). lia.
Qed.

Lemma sum_list_const {A} (l : list A) : sum_list ((fun _ => 1) <$> l) = length l.
Proof. induction l as [|a l IH]; [done|]. rewrite fmap_cons. simpl. by rewrite IH. Qed.

Lemma sum_list_descending (s m : nat) :
  2 * sum_list ((fun i => s + m - (i + 1)) <$> seq s m) = m * (m - 1).
Proof.
  revert s. induction m as [|m IH]; intros s; [done|].
  simpl seq. rewrite fmap_cons. simpl sum_list.
  replace ((fun i => s + S m - (i + 1)) <$> seq (S s) m)
    with ((fun i => S s + m - (i + 1)) <$> seq (S s) m).
  - pose proof (IH (S s)). destruct m; simpl in *; nia.
  - apply list_fmap_ext. intros _ i _. lia.
Qed.

Lemma enumerate_fmap_index {A} (l : list A) (c : nat -> nat) :
  (fun ia : nat * A => c ia.1) <$> enumerate l = c <$> seq 0 (length l).
Proof.
  apply list_eq. intros i. unfold enumerate.
  rewrite !list_lookup_fmap, list_lookup_imap.
  destruct (l !! i) as [a|] eqn:Hi; simpl.
  - rewrite lookup_seq_lt; [done|]. by eapply lookup_lt_Some.
  - rewrite lookup_seq_ge; [done|]. by apply lookup_ge_None.
Qed.

Lemma length_flat_map_const {A B} (f : A -> list B) (c : nat) (l : list A) :
  (forall a, length (f a) = c) -> length (flat_map f l) = c * length l.
Proof.
  intros H. induction l as [|a l IH]; simpl; [lia|].
  rewrite length_app, H, IH. lia.
Qed.

Section Sizes.

Variable hypot : float -> float -> float.

Lemma edge_body_length (pos : gmap Node Position) (d : gmap Node float) (a b : Node)
    (r : list Edge) :
  edge_body hypot pos d a b = Ok r -> length r <= 1.
Proof.
  unfold edge_body. intros H. apply rbind_Ok in H as (p1 & _ & H).
  apply rbind_Ok in H as (p2 & _ & H). apply rbind_Ok in H as (w & _ & H).
  apply rbind_Ok in H as (keep & _ & [= <-]). destruct keep; simpl; lia.
Qed.

Lemma pruned_edges_length_le (coords : list Position) (c_coords : Position) (edges : list Edge) :
  pruned_edges hypot coords c_coords = Ok edges ->
  2 * length edges <= length coords * (length coords + 1).
Proof.
  unfold pruned_edges. intros H. apply rbind_Ok in H as (d & _ & H). unfold edges_of in H.
  set (N := length (nodes_of (length coords))).
  apply (for__length_le _ _ (fun ia => 0 + N - (ia.1 + 1))) in H.
  - rewrite (enumerate_fmap_index _ (fun i => 0 + N - (i + 1))) in H. fold N in H.
    pose proof (sum_list_descending 0 N) as Hs.
    assert (HN : N = S (length coords)).
    { unfold N, nodes_of. simpl. by rewrite length_map, length_seq. }
    clearbody N. subst N.
    replace (S (length coords) - 1) with (length coords) in Hs by lia.
    simpl "+" in *. nia.
  - intros [i a] r _ Hr. simpl.
    apply (for__length_le _ _ (fun _ => 1)) in Hr.
    + rewrite sum_list_const, length_drop in Hr. fold N in Hr. lia.
    + intros b r' _ Hb. by eapply edge_body_length.
Qed.

Lemma pruned_edges_length_ge (coords : list Position) (c_coords : Position) (edges : list Edge) :
  pruned_edges hypot coords c_coords = Ok edges -> length coords <= length edges.
Proof.
  intros HE.
  assert (Hsub : ((fun i => (C, Cand i)) <$> seq 0 (length coords)) ⊆+ (endpoints <$> edges)).
  { apply NoDup_submseteq.
    - apply NoDup_fmap_2; [by intros ?? [=]|apply NoDup_seq].
    - intros p (i & -> & Hi%elem_of_seq)%list_elem_of_fmap.
      destruct (pruned_edges_root_edge hypot _ _ _ HE i) as [w Hw]; [lia|].
      apply list_elem_of_fmap. by exists (C, Cand i, w). }
  apply submseteq_length in Hsub. by rewrite !length_fmap, length_seq in Hsub.
Qed.

(** X5: the pruned list has at least one entry for each candidate and at most
    one for each pair of nodes; the model has four variables and seven
    constraints for each entry, one variable and one constraint for each
    candidate, and the root's variable and four more constraints. *)
Theorem X5_sizes (coords : list Position) (c_coords : Position) (edges : list Edge)
    (k : Z) (mip_gap time_limit : float) :
  pruned_edges hypot coords c_coords = Ok edges ->
  let n := length coords in
  let m := build_model edges n k mip_gap time_limit in
  n <= length edges /\
  2 * length edges <= n * (n + 1) /\
  length (Vars m) = 4 * length edges + n + 1 /\
  length (Constrs m) = 7 * length edges + n + 4 /\
  length (Objective m) = length edges /\
  length (BranchPriority m) = 2 * length edges.
Proof.
  intros HE n m. split; [by eapply pruned_edges_length_ge|].
  split; [by eapply pruned_edges_length_le|].
  unfold m, build_model. cbn [Vars Constrs Objective BranchPriority].
  rewrite !length_app, !length_map. unfold nodes_of, arc_keys. cbn [length].
  rewrite !length_map, !length_seq.
  rewrite (length_flat_map_const (edge_vars k) 4) by (by intros [[??]?]).
  rewrite (length_flat_map_const (edge_constrs k) 3) by (by intros [[??]?]).
  rewrite (length_flat_map_const endpoint_constrs 4) by (by intros [[??]?]).
  rewrite (length_flat_map_const _ 2) by (by intros [[??]?]).
  clearbody n. clear m. repeat split; lia.
Qed.

End Sizes.

(** ** The variables of the model *)

Lemma declared_arc (edges : list Edge) (k : Z) (a b : Node) :
  arc_var a b ∈ declared_var <$> flat_map (edge_vars k) edges <-> (a, b) ∈ arcs edges.
Proof.
  induction edges as [|[[x y] w] edges IH].
  - simpl. split; by intros ?%elem_of_nil.
  - change (arcs ((x, y, w) :: edges)) with ((x, y) :: (y, x) :: arcs edges).
    simpl flat_map. rewrite !fmap_cons. simpl declared_var.
    rewrite !elem_of_cons, IH. split.
    + intros [[= -> ->]|[[= -> ->]|[[=]|[[=]|H]]]]; auto.
    + intros [[= -> ->]|[[= -> ->]|H]]; auto 6.
Qed.

Lemma declared_flow (edges : list Edge) (k : Z) (a b : Node) :
  flow_var a b ∈ declared_var <$> flat_map (edge_vars k) edges <-> (a, b) ∈ arcs edges.
Proof.
  induction edges as [|[[x y] w] edges IH].
  - simpl. split; by intros ?%elem_of_nil.
  - change (arcs ((x, y, w) :: edges)) with ((x, y) :: (y, x) :: arcs edges).
    simpl flat_map. rewrite !fmap_cons. simpl declared_var.
    rewrite !elem_of_cons, IH. split.
    + intros [[=]|[[=]|[[= -> ->]|[[= -> ->]|H]]]]; auto.
    + intros [[= -> ->]|[[= -> ->]|H]]; auto 6.
Qed.

Lemma declared_node_not_edge (edges : list Edge) (k : Z) (x : Node) :
  node_var x ∉ declared_var <$> flat_map (edge_vars k) edges.
Proof.
  induction edges as [|[[a b] w] edges IH]; [apply not_elem_of_nil|].
  simpl flat_map. rewrite !fmap_cons. simpl declared_var.
  rewrite !elem_of_cons. intros [[=]|[[=]|[[=]|[[=]|H]]]]. done.
Qed.

Lemma declared_edge_vars_NoDup (num_nodes : nat) (edges : list Edge) (k : Z) :
  wf_edges num_nodes edges -> NoDup (declared_var <$> flat_map (edge_vars k) edges).
Proof.
  intros Hwf. pose proof (arcs_NoDup _ _ Hwf) as Hnd. clear Hwf.
  induction edges as [|[[a b] w] edges IH]; [constructor|].
  change (arcs ((a, b, w) :: edges)) with ((a, b) :: (b, a) :: arcs edges) in Hnd.
  apply NoDup_cons in Hnd as [H1 Hnd]. apply NoDup_cons in Hnd as [H2 Hnd].
  rewrite elem_of_cons in H1.
  simpl flat_map. rewrite !fmap_cons. simpl declared_var.
  repeat (apply NoDup_cons; split); [| | | |by apply IH];
    rewrite ?elem_of_cons, ?declared_arc, ?declared_flow.
  - intros [[= -> _]|[[=]|[[=]|H]]]; tauto.
  - intros [[=]|[[=]|H]]; tauto.
  - intros [[= -> _]|H]; tauto.
  - tauto.
Qed.

Section Declared.

Variables (num_nodes : nat) (edges : list Edge) (k : Z) (mip_gap time_limit : float).
Hypothesis Hwf : wf_edges num_nodes edges.

Let m := build_model edges num_nodes k mip_gap time_limit.
Let declared := declared_var <$> Vars m.

Lemma declared_arc_var (a b : Node) : (a, b) ∈ arcs edges -> arc_var a b ∈ declared.
Proof.
  intros H. unfold declared, m, build_model. cbn [Vars]. rewrite fmap_app, elem_of_app.
  left. by apply declared_arc.
Qed.

Lemma declared_flow_var (a b : Node) : (a, b) ∈ arcs edges -> flow_var a b ∈ declared.
Proof.
  intros H. unfold declared, m, build_model. cbn [Vars]. rewrite fmap_app, elem_of_app.
  left. by apply declared_flow.
Qed.

Lemma declared_node_var (x : Node) : x ∈ nodes_of num_nodes -> node_var x ∈ declared.
Proof.
  intros H. unfold declared, m, build_model. cbn [Vars]. rewrite fmap_app, elem_of_app.
  right. rewrite <- list_fmap_compose. apply list_elem_of_fmap. by exists x.
Qed.

Lemma declared_NoDup : NoDup declared.
Proof.
  unfold declared, m, build_model. cbn [Vars]. rewrite fmap_app. apply NoDup_app.
  split; [by eapply declared_edge_vars_NoDup|]. split.
  - intros v Hv. rewrite <- list_fmap_compose. intros (x & -> & _)%list_elem_of_fmap.
    simpl in Hv. by apply declared_node_not_edge in Hv.
  - rewrite <- list_fmap_compose. apply NoDup_fmap_2; [by intros ?? [=]|apply nodes_of_NoDup].
Qed.

Lemma constrs_declared :
  Forall (fun c => forall v, v ∈ constr_vars c -> v ∈ declared) (Constrs m).
Proof.
  assert (Hedge : forall e, e ∈ edges ->
            (e.1.1, e.1.2) ∈ arcs edges /\ (e.1.2, e.1.1) ∈ arcs edges /\
            e.1.1 ∈ nodes_of num_nodes /\ e.1.2 ∈ nodes_of num_nodes).
  { intros e He. rewrite !elem_of_arcs, !elem_of_nodes_of.
    destruct (proj2 Hwf e He) as (H1 & H2 & _). eauto 10. }
  unfold m, build_model. cbn [Constrs]. rewrite !Forall_app. repeat split.
  - apply Forall_flat_map, Forall_forall. intros [[a b] w] He.
    destruct (Hedge _ He) as (H1 & H2 & _). simpl in H1, H2.
    repeat constructor; unfold constr_vars; simpl; intros v Hv;
      repeat (apply elem_of_cons in Hv as [->|Hv]); try (by apply elem_of_nil in Hv);
      by (apply declared_arc_var || apply declared_flow_var).
  - repeat constructor. unfold constr_vars. simpl. intros v Hv.
    apply elem_of_cons in Hv as [->|Hv]; [|by apply elem_of_nil in Hv].
    apply declared_node_var, elem_of_nodes_of. done.
  - repeat constructor; unfold constr_vars; simpl; intros v; rewrite app_nil_r.
    + intros (i & -> & Hi%elem_of_seq)%list_elem_of_fmap.
      apply declared_node_var, elem_of_nodes_of. simpl. lia.
    + rewrite arc_keys_arcs. intros ([a b] & -> & Ha)%list_elem_of_fmap.
      by apply declared_arc_var.
  - apply Forall_flat_map, Forall_forall. intros [[a b] w] He.
    destruct (Hedge _ He) as (H1 & H2 & H3 & H4). simpl in H1, H2, H3, H4.
    repeat constructor; unfold constr_vars; simpl; intros v Hv;
      repeat (apply elem_of_cons in Hv as [->|Hv]); try (by apply elem_of_nil in Hv);
      by (apply declared_arc_var || apply declared_node_var).
  - repeat constructor. unfold constr_vars, root_flow. simpl. intros v.
    rewrite app_nil_r, elem_of_app, arc_keys_arcs.
    intros [(x & -> & Hx)%list_elem_of_fmap|(x & -> & Hx)%list_elem_of_fmap];
      apply list_elem_of_filter in Hx as [[_ Hx] _]; by apply declared_flow_var.
  - apply Forall_map, Forall_forall. intros i Hi%elem_of_seq.
    unfold constr_vars, flow_cons. simpl. intros v. rewrite !elem_of_app, arc_keys_arcs.
    intros [[(x & -> & Hx)%list_elem_of_fmap|(x & -> & Hx)%list_elem_of_fmap]|Hv].
    + apply list_elem_of_filter in Hx as [[_ Hx] _]. by apply declared_flow_var.
    + apply list_elem_of_filter in Hx as [[_ Hx] _]. by apply declared_flow_var.
    + apply list_elem_of_singleton in Hv as ->.
      apply declared_node_var, elem_of_nodes_of. simpl. lia.
Qed.

End Declared.

(** ** The boundary of the capacity guard *)

Section Boundary.

Variable hypot : float -> float -> float.
Variable param_in_range : string -> float -> bool.

(** C10: the boundary of the capacity guard. An input of exactly 1500
    candidates of the plane is accepted: the pruned list is built, with at
    least 1500 entries, and when its weights are finite and Gurobi takes the
    parameters the solver is called, once, with a model that declares the
    selection variable of each of the 1500 candidates and its arc from the
    root, whose objective has the entries of the list as its terms, and
    whose constraints are satisfied by the assignments that satisfy the
    constraint set of the specification for 1500 candidates.  The capacity
    diagnostic is the outcome exactly when the count is above 1500.  On every
    accepted input each candidate has its edge to the root in the pruned
    list. *)
Theorem C10_capacity_boundary (coords : list Position) (c_coords : Position) (k : Z)
    (mip_gap time_limit : float) :
  (length coords = 1500 -> well_shaped coords c_coords ->
   exists edges,
     pruned_edges hypot coords c_coords = Ok edges /\
     1500 <= length edges /\
     (params_accepted param_in_range mip_gap time_limit = true ->
      finite_weights edges = true ->
      exists m,
        model_of (milp_kmst hypot param_in_range coords c_coords k mip_gap time_limit) = Some m /\
        (forall solver,
           solver_calls
             (run solver (milp_kmst hypot param_in_range coords c_coords k
                            mip_gap time_limit)).1 = 1) /\
        (forall i, i < 1500 ->
           node_var (Cand i) ∈ declared_var <$> Vars m /\
           arc_var C (Cand i) ∈ declared_var <$> Vars m) /\
        Objective m = spec_objective edges /\
        forall X,
          Forall (holds X) (Constrs m) <-> spec_constraints edges 1500 (clamp_k k 1500) X)) /\
  (milp_kmst hypot param_in_range coords c_coords k mip_gap time_limit =
     Print capacity_msg (Ret ([], []))
   <-> 1500 < length coords) /\
  (forall edges, 1 <= length coords <= 1500 ->
     pruned_edges hypot coords c_coords = Ok edges ->
     forall i, i < length coords -> exists w, (C, Cand i, w) ∈ edges).
Proof.
  split; [|split].
  - intros Hlen Hws. destruct (pruned_edges_total hypot coords c_coords Hws) as [edges HE].
    exists edges. split; [done|].
    pose proof (pruned_edges_length_ge hypot _ _ _ HE) as Hge. rewrite Hlen in Hge.
    split; [done|]. intros Hp Hf.
    pose proof (pruned_edges_wf hypot _ _ _ HE) as Hwf. rewrite Hlen in Hwf.
    assert (Hn : 1 <= length coords <= 1500) by lia.
    exists (build_model edges 1500 (clamp_k k 1500) mip_gap time_limit).
    split. { rewrite (model_of_milp_kmst _ _ _ _ _ _ _ edges) by done. by rewrite Hlen. }
    split.
    { intros solver. rewrite (run_milp_kmst_accepted _ _ _ _ _ _ _ edges) by done.
      cbn [fst]. apply solver_calls_accepted. }
    split.
    { intros i Hi. split.
      - apply declared_node_var, elem_of_nodes_of. simpl. lia.
      - apply declared_arc_var, elem_of_arcs.
        destruct (pruned_edges_root_edge hypot _ _ _ HE i) as [w Hw]; [lia|].
        exists (C, Cand i, w). auto. }
    split; [apply spec_objective_build_model|].
    intros X. by apply constraints_iff.
  - split.
    + intros H. destruct (decide (1500 < length coords)) as [|Hle]; [done|]. exfalso.
      destruct (decide (length coords = 0)) as [H0|H0].
      * rewrite milp_kmst_rejected in H by (by left). rewrite decide_True in H by done.
        discriminate H.
      * rewrite milp_kmst_accepted in H by lia. cbv zeta in H. unfold build_and_solve in H.
        destruct (Z.of_nat (length coords) <? k)%Z,
                 (pruned_edges hypot coords c_coords) as [edges|e];
          try discriminate H;
          destruct (params_accepted param_in_range mip_gap time_limit); try discriminate H;
          destruct (finite_weights edges); discriminate H.
    + intros H. rewrite milp_kmst_rejected by (by right). by rewrite decide_False by lia.
  - intros edges Hn HE i Hi. by eapply pruned_edges_root_edge.
Qed.

End Boundary.

(** ** A feasible assignment: the star *)

Lemma Qsum_zero {A} (f : A -> Q) (l : list A) :
  (forall a, a ∈ l -> (f a == 0)%Q) -> (Qsum (map f l) == 0)%Q.
Proof.
  induction l as [|a l IH]; intros H; simpl; [reflexivity|].
  rewrite (H a) by (by left). rewrite IH; [reflexivity|].
  intros a' Ha'. apply H. by right.
Qed.

Lemma filter_all {A} (P : A -> Prop) `{!forall a, Decision (P a)} (l : list A) :
  Forall P l -> filter P l = l.
Proof.
  induction 1 as [|a l Ha _ IH]; [done|]. by rewrite filter_cons_True, IH.
Qed.

Lemma filter_seq_ltb_length (sel n : nat) :
  length (filter (fun i => (i <? sel) = true) (seq 0 n)) = sel `min` n.
Proof.
  induction n as [|n IH]; [simpl; lia|].
  rewrite seq_S, filter_app, length_app, IH. cbn [Nat.add].
  destruct (n <? sel) eqn:Hn.
  - rewrite filter_cons_True by done. apply Nat.ltb_lt in Hn. simpl. lia.
  - rewrite filter_cons_False by (by rewrite Hn). apply Nat.ltb_ge in Hn. simpl. lia.
Qed.

Lemma Qsum_indicator (sel n : nat) :
  sel <= n ->
  (Qsum (map (fun i => if i <? sel then 1 else 0) (seq 0 n)) == inject_Z (Z.of_nat sel))%Q.
Proof.
  intros Hle. rewrite (Qsum_count _ (fun i => i <? sel)).
  - rewrite filter_seq_ltb_length. by replace (sel `min` n) with sel by lia.
  - intros i _. destruct (i <? sel); [right|left]; done.
Qed.

Section Star.

Variables (num_nodes : nat) (edges : list Edge) (sel : nat) (mip_gap time_limit : float).
Hypothesis Hwf : wf_edges num_nodes edges.
Hypothesis Hroot : forall i, i < num_nodes -> (C, Cand i) ∈ arcs edges.
Hypothesis Hsel : sel <= num_nodes.

Let k : Z := (Z.of_nat sel + 1)%Z.

(** The nodes that the root has an arc to are all the candidates. *)
Lemma root_successors :
  filter (fun n => n ≠ C ∧ (C, n) ∈ arc_keys edges) (nodes_of num_nodes)
  = map Cand (seq 0 num_nodes).
Proof.
  unfold nodes_of, root. rewrite filter_cons_False by (intros [? _]; done).
  f_equal. apply filter_all, Forall_forall.
  intros x (i & -> & Hi%elem_of_seq)%list_elem_of_fmap. split; [done|].
  rewrite arc_keys_arcs. apply Hroot. lia.
Qed.

Lemma root_out_sum (g : Node * Node -> Q) :
  (Qsum (map g (filter (fun a : Node * Node => a.1 = C) (arcs edges)))
   == Qsum (map (fun i => g (C, Cand i)) (seq 0 num_nodes)))%Q.
Proof.
  rewrite <- (Qsum_Permutation _ _
    (Permutation_map g (out_arcs_Permutation num_nodes edges C Hwf))).
  rewrite root_successors, !map_map. reflexivity.
Qed.

(** The nodes with an arc to candidate [i]: the root, and candidates. *)
Lemma candidate_in_sum (g : Node * Node -> Q) (i : nat) :
  i < num_nodes ->
  (forall j, (g (Cand j, Cand i) == 0)%Q) ->
  (Qsum (map g (filter (fun a : Node * Node => a.2 = Cand i) (arcs edges)))
   == g (C, Cand i))%Q.
Proof.
  intros Hi Hg.
  rewrite <- (Qsum_Permutation _ _
    (Permutation_map g (in_arcs_Permutation num_nodes edges (Cand i) Hwf))).
  unfold nodes_of, root. rewrite filter_cons_True.
  - simpl. rewrite Qsum_zero; [ring|].
    intros [a b] (x & [= -> ->] & Hx)%list_elem_of_fmap.
    apply list_elem_of_filter in Hx as [_ (j & -> & _)%list_elem_of_fmap]. apply Hg.
  - split; [done|]. rewrite arc_keys_arcs. by apply Hroot.
Qed.

Lemma star_binary (v : Var) : (star sel v == 0 \/ star sel v == 1)%Q.
Proof.
  destruct v as [[|i] [|j]|[|i] [|j]|[|i]]; simpl;
    try destruct (_ <? sel); (by left) || (by right).
Qed.

Lemma star_flow_arc (a b : Node) : star sel (flow_var a b) = star sel (arc_var a b).
Proof. by destruct a, b. Qed.

Lemma star_spec : spec_constraints edges num_nodes k (star sel).
Proof.
  assert (Hk : (k - 1 = Z.of_nat sel)%Z) by (unfold k; lia).
  assert (Hone : forall i, (i <? sel) = true -> (1 <= inject_Z (Z.of_nat sel))%Q).
  { intros i Hi%Nat.ltb_lt. change 1%Q with (inject_Z 1). rewrite <- Zle_Qle. lia. }
  constructor; rewrite ?Hk.
  - intros [[[|i] [|j]] w] _; simpl; repeat destruct (_ <? sel); by compute.
  - intros [a b] _. cbn [fst snd]. rewrite star_flow_arc.
    destruct a as [|i], b as [|j]; simpl; try (ring_simplify; apply Qle_refl).
    destruct (j <? sel) eqn:Hj; [|ring_simplify; apply Qle_refl].
    specialize (Hone j Hj). lra.
  - reflexivity.
  - by apply Qsum_indicator.
  - rewrite <- (Qsum_indicator sel num_nodes Hsel).
    rewrite <- (root_out_sum (fun a => star sel (arc_var a.1 a.2))).
    rewrite Qsum_filter. apply Qsum_map_ext. intros [a b] _. cbn [fst snd].
    destruct (decide (a = C)) as [->|Ha]; [reflexivity|]. by destruct a, b.
  - intros [[|i] [|j]] _; simpl; repeat destruct (_ <? sel); split; by compute.
  - unfold flow_out, flow_in.
    rewrite (root_out_sum (fun a => star sel (flow_var a.1 a.2))). cbn [fst snd].
    rewrite (Qsum_zero (fun a : Node * Node => star sel (flow_var a.1 a.2))).
    + change (star sel (flow_var C (Cand ?i))) with (if i <? sel then 1%Q else 0%Q).
      rewrite (Qsum_indicator sel num_nodes Hsel). ring.
    + intros [a b] [Hb _]%list_elem_of_filter. simpl in Hb. subst b. by destruct a.
  - intros i Hi. unfold flow_out, flow_in.
    rewrite (candidate_in_sum (fun a => star sel (flow_var a.1 a.2)) i Hi) by done.
    rewrite (Qsum_zero (fun a : Node * Node => star sel (flow_var a.1 a.2))).
    + simpl. ring.
    + intros [a b] [Ha _]%list_elem_of_filter. simpl in Ha. subst a. by destruct b.
Qed.

Lemma star_respects :
  Forall (respects (star sel)) (Vars (build_model edges num_nodes k mip_gap time_limit)).
Proof.
  unfold build_model. cbn [Vars]. apply Forall_app. split.
  - apply Forall_flat_map, Forall_forall. intros [[a b] w] _.
    assert (Hflow : forall x y,
              (inject_Z 0 <= star sel (flow_var x y)
               /\ star sel (flow_var x y) <= inject_Z (k - 1))%Q).
    { intros x y. replace (k - 1)%Z with (Z.of_nat sel) by (unfold k; lia).
      destruct x as [|i], y as [|j]; simpl;
        try (split; [by compute|change 0%Q with (inject_Z 0); rewrite <- Zle_Qle; lia]).
      destruct (j <? sel) eqn:Hj.
      - split; [by compute|]. apply Nat.ltb_lt in Hj.
        change 1%Q with (inject_Z 1). rewrite <- Zle_Qle. lia.
      - split; [by compute|]. change 0%Q with (inject_Z 0). rewrite <- Zle_Qle. lia. }
    cbn [edge_vars]. rewrite !Forall_cons, Forall_nil. cbn [respects].
    exact (conj (star_binary _) (conj (star_binary _)
             (conj (Hflow _ _) (conj (Hflow _ _) I)))).
  - apply Forall_map, Forall_forall. intros x _. apply star_binary.
Qed.

(** The star on the first [sel] candidates is feasible for [k = sel + 1]. *)
Lemma star_feasible :
  feasible (build_model edges num_nodes k mip_gap time_limit) (star sel).
Proof.
  split; [apply star_respects|]. apply constraints_iff; [done|apply star_spec].
Qed.

End Star.

(** ** What the model and the decoder guarantee *)

Lemma clamp_k_le (k : Z) (num_nodes : nat) : (clamp_k k num_nodes <= Z.of_nat num_nodes)%Z.
Proof. unfold clamp_k. destruct (Z.ltb_spec (Z.of_nat num_nodes) k); lia. Qed.

Lemma filter_shorter {A} (P : A -> Prop) `{!forall a, Decision (P a)} (l : list A) :
  length (filter P l) < length l -> exists x, x ∈ l /\ ~ P x.
Proof.
  induction l as [|a l IH]; simpl; [lia|]. intros Hlen.
  destruct (decide (P a)) as [Ha|Ha].
  - rewrite filter_cons_True in Hlen by done. simpl in Hlen.
    destruct IH as (x & Hx & HP); [lia|]. exists x. split; [by right|done].
  - exists a. split; [by left|done].
Qed.

Lemma decode_nodes_NoDup (num_nodes : nat) (X : Var -> Q) : NoDup (decode_nodes num_nodes X).
Proof.
  unfold decode_nodes. constructor.
  - by intros (i & [=] & _)%list_elem_of_fmap.
  - apply NoDup_fmap_2; [by intros ?? [=]|]. apply NoDup_filter, NoDup_seq.
Qed.

Lemma decode_nodes_is_node (num_nodes : nat) (X : Var -> Q) (x : Node) :
  x ∈ decode_nodes num_nodes X -> is_node num_nodes x.
Proof.
  unfold decode_nodes. intros [->|(i & -> & Hi)%list_elem_of_fmap]%elem_of_cons; [done|].
  apply list_elem_of_filter in Hi as [_ Hi%elem_of_seq]. simpl. lia.
Qed.

Lemma decode_edges_sublist (edges : list Edge) (X : Var -> Q) :
  decode_edges edges X `sublist_of` edges.
Proof. apply (decode_fold_inv X edges). Qed.

(** X10: the decoder keeps a sub-list of the edge list it is given, in the
    same order, whose entries all pass the test of line 134 and have pairwise
    different keys; decoding its own output again changes nothing. *)
Theorem X10_decoder_idempotent (edges : list Edge) (X : Var -> Q) :
  decode_edges edges X `sublist_of` edges /\
  Forall (fun e => selects X e = true) (decode_edges edges X) /\
  NoDup (ekey <$> decode_edges edges X) /\
  decode_edges (decode_edges edges X) X = decode_edges edges X.
Proof.
  destruct (decode_fold_inv X edges) as (_ & Hnd & Hsub & Hall).
  fold (decode_edges edges X) in Hnd, Hsub, Hall.
  split; [done|]. split; [done|]. split; [done|].
  unfold decode_edges at 1. rewrite decode_fold_filter by done. simpl.
  by apply filter_all.
Qed.

Section Guarantees.

Variable hypot : float -> float -> float.
Variable param_in_range : string -> float -> bool.

(** X6: no variable of the model is declared twice, and every variable that a
    constraint, the objective or a branching priority mentions is declared. *)
Theorem X6_model_variables (coords : list Position) (c_coords : Position)
    (edges : list Edge) (k : Z) (mip_gap time_limit : float) :
  pruned_edges hypot coords c_coords = Ok edges ->
  let m := build_model edges (length coords) k mip_gap time_limit in
  let declared := declared_var <$> Vars m in
  NoDup declared /\
  Forall (fun c => forall v, v ∈ constr_vars c -> v ∈ declared) (Constrs m) /\
  Forall (fun term : float * LinExpr => forall v, v ∈ expr_vars term.2 -> v ∈ declared)
         (Objective m) /\
  Forall (fun priority : Var * Z => priority.1 ∈ declared) (BranchPriority m).
Proof.
  intros HE m declared. pose proof (pruned_edges_wf hypot _ _ _ HE) as Hwf.
  split; [by eapply declared_NoDup|]. split; [by eapply constrs_declared|]. split.
  - unfold m, build_model. cbn [Objective]. apply Forall_map, Forall_forall.
    intros [[a b] w] He. simpl. intros v Hv.
    assert (H1 : (a, b) ∈ arcs edges) by (apply elem_of_arcs; exists (a, b, w); auto).
    assert (H2 : (b, a) ∈ arcs edges) by (apply elem_of_arcs; exists (a, b, w); auto).
    repeat (apply elem_of_cons in Hv as [->|Hv]); [| |by apply elem_of_nil in Hv];
      by eapply declared_arc_var.
  - unfold m, build_model. cbn [BranchPriority]. apply Forall_map, Forall_forall.
    intros [a b] Hab. simpl. rewrite arc_keys_arcs in Hab. by eapply declared_arc_var.
Qed.

(** X7: the model is feasible exactly when the clamped k is at least 1, and
    then the star that joins the root to the first k' - 1 candidates is a
    feasible assignment. *)
Theorem X7_feasibility (coords : list Position) (c_coords : Position)
    (edges : list Edge) (k : Z) (mip_gap time_limit : float) :
  pruned_edges hypot coords c_coords = Ok edges ->
  let k' := clamp_k k (length coords) in
  let m := build_model edges (length coords) k' mip_gap time_limit in
  ((exists X, feasible m X) <-> (1 <= k')%Z) /\
  ((1 <= k')%Z -> feasible m (star (Z.to_nat (k' - 1)))).
Proof.
  intros HE k' m. pose proof (pruned_edges_wf hypot _ _ _ HE) as Hwf.
  assert (Hstar : (1 <= k')%Z -> feasible m (star (Z.to_nat (k' - 1)))).
  { intros Hk. pose proof (clamp_k_le k (length coords)) as Hle. fold k' in Hle.
    unfold m. replace k' with (Z.of_nat (Z.to_nat (k' - 1)) + 1)%Z at 1 by lia.
    apply star_feasible; [done| |lia].
    intros i Hi. destruct (pruned_edges_root_edge hypot _ _ _ HE i Hi) as [w Hw].
    apply elem_of_arcs. exists (C, Cand i, w). auto. }
  split; [|done]. split; [|by eexists; apply Hstar].
  intros [X HX]. pose proof (feasible_nodes_count _ _ _ _ _ _ Hwf HX) as Hn.
  unfold decode_nodes in Hn. simpl length in Hn. fold k' in Hn. lia.
Qed.

(** X8: whatever k is asked for, a result never holds all the candidates: on
    an input that reaches the solver (the pruned list is built with finite
    weights, Gurobi takes the parameters), when the solver reports no
    solution or a feasible one, the selected nodes are at most as many as
    there are candidates, so with the root among them at least one candidate
    is left out. *)
Theorem X8_candidate_left_out (coords : list Position) (c_coords : Position) (k : Z)
    (mip_gap time_limit : float) (edges : list Edge) (solver : Model -> Solution) :
  let m := build_model edges (length coords) (clamp_k k (length coords)) mip_gap time_limit in
  1 <= length coords <= 1500 ->
  pruned_edges hypot coords c_coords = Ok edges ->
  params_accepted param_in_range mip_gap time_limit = true ->
  finite_weights edges = true ->
  (SolCount (solver m) <> 0 -> feasible m (X (solver m))) ->
  exists selected_nodes selected_edges i,
    (run solver (milp_kmst hypot param_in_range coords c_coords k mip_gap time_limit)).2 =
      Ok (selected_nodes, selected_edges) /\
    length selected_nodes <= length coords /\
    i < length coords /\ Cand i ∉ selected_nodes.
Proof.
  intros m Hn HE Hp Hf Hsound.
  rewrite (run_milp_kmst_accepted hypot param_in_range _ _ _ _ _ edges) by done.
  fold m. cbn [snd].
  case_decide as Hsol.
  - exists [C], [], 0. split; [done|]. simpl. split; [lia|]. split; [lia|].
    by intros [=]%list_elem_of_singleton.
  - specialize (Hsound Hsol). pose proof (pruned_edges_wf hypot _ _ _ HE) as Hwf.
    pose proof (feasible_nodes_count _ _ _ _ _ _ Hwf Hsound) as Hcount.
    pose proof (clamp_k_le k (length coords)) as Hle.
    destruct (filter_shorter (fun i => gt_half (X (solver m) (node_var (Cand i))) = true)
                (seq 0 (length coords))) as (i & Hi & Hnot).
    { unfold decode_nodes in Hcount. simpl length in Hcount.
      rewrite length_map in Hcount. rewrite length_seq. lia. }
    exists (decode_nodes (length coords) (X (solver m))),
           (decode_edges edges (X (solver m))), i.
    split; [done|]. split; [lia|]. apply elem_of_seq in Hi. split; [lia|].
    unfold decode_nodes. rewrite elem_of_cons.
    intros [[=]|(j & [= <-] & Hj)%list_elem_of_fmap].
    by apply list_elem_of_filter in Hj as [Hj _].
Qed.

(** The edges of a result are entries of the pruned list. *)
Lemma run_result_edges (coords : list Position) (c_coords : Position) (k : Z)
    (mip_gap time_limit : float) (solver : Model -> Solution)
    (selected_nodes : list Node) (selected_edges : list Edge) :
  (run solver (milp_kmst hypot param_in_range coords c_coords k mip_gap time_limit)).2 =
    Ok (selected_nodes, selected_edges) ->
  selected_edges = [] \/
  exists edges, pruned_edges hypot coords c_coords = Ok edges /\
                selected_edges `sublist_of` edges.
Proof.
  intros Hrun.
  apply run_milp_kmst_Ok in Hrun as [[_ [= -> ->]]|(Hn & Hp & edges & HE & Hf & Hr)];
    [by left|].
  cbv zeta in Hr. case_decide as Hsol; injection Hr as -> ->; [by left|].
  right. exists edges. split; [done|apply decode_edges_sublist].
Qed.

Lemma run_result_endpoints (coords : list Position) (c_coords : Position) (k : Z)
    (mip_gap time_limit : float) (solver : Model -> Solution)
    (selected_nodes : list Node) (selected_edges : list Edge) :
  (run solver (milp_kmst hypot param_in_range coords c_coords k mip_gap time_limit)).2 =
    Ok (selected_nodes, selected_edges) ->
  forall e, e ∈ selected_edges ->
    is_node (length coords) e.1.1 /\ is_node (length coords) e.1.2 /\
    precedes e.1.1 e.1.2.
Proof.
  intros Hrun e He. destruct (run_result_edges _ _ _ _ _ _ _ _ Hrun) as [->|(edges & HE & Hsub)].
  - by apply elem_of_nil in He.
  - apply (pruned_edges_precedes hypot _ _ _ HE). by eapply elem_of_sublist.
Qed.

(** X9: whatever the solver returns, feasible or not, a result of
    [milp_kmst] is well formed: no node is listed twice, every node and every
    endpoint of an edge is the root or an index below the number of
    candidates, and the edges have pairwise different endpoints, first
    endpoint before the second in the node order. *)
Theorem X9_result_well_formed (coords : list Position) (c_coords : Position) (k : Z)
    (mip_gap time_limit : float) (solver : Model -> Solution)
    (selected_nodes : list Node) (selected_edges : list Edge) :
  (run solver (milp_kmst hypot param_in_range coords c_coords k mip_gap time_limit)).2 =
    Ok (selected_nodes, selected_edges) ->
  NoDup selected_nodes /\
  (forall x, x ∈ selected_nodes -> is_node (length coords) x) /\
  (selected_nodes = [] \/ head selected_nodes = Some C) /\
  (forall e, e ∈ selected_edges ->
     is_node (length coords) e.1.1 /\ is_node (length coords) e.1.2 /\
     precedes e.1.1 e.1.2) /\
  (forall i j e1 e2, selected_edges !! i = Some e1 -> selected_edges !! j = Some e2 ->
     same_pair (endpoints e1) (endpoints e2) -> i = j) /\
  (selected_edges <> [] -> exists edges,
     pruned_edges hypot coords c_coords = Ok edges /\ selected_edges `sublist_of` edges).
Proof.
  intros Hrun.
  assert (Hedges : forall e, e ∈ selected_edges ->
            is_node (length coords) e.1.1 /\ is_node (length coords) e.1.2 /\
            precedes e.1.1 e.1.2) by (by eapply run_result_endpoints).
  assert (Hsub : selected_edges <> [] -> exists edges,
            pruned_edges hypot coords c_coords = Ok edges /\ selected_edges `sublist_of` edges).
  { intros Hne. by destruct (run_result_edges _ _ _ _ _ _ _ _ Hrun). }
  assert (Hpairs : forall i j e1 e2, selected_edges !! i = Some e1 ->
            selected_edges !! j = Some e2 ->
            same_pair (endpoints e1) (endpoints e2) -> i = j).
  { destruct (run_result_edges _ _ _ _ _ _ _ _ Hrun) as [->|(edges & HE & Hs)].
    - by intros i j e1 e2 ?.
    - apply NoDup_keys_pairs. eapply sublist_NoDup; [|by apply fmap_sublist].
      by eapply pruned_edges_keys_NoDup. }
  apply run_milp_kmst_Ok in Hrun as [[_ [= -> ->]]|(Hn & Hp & edges & HE & Hf & Hr)].
  { split; [constructor|]. split; [by intros x ?%elem_of_nil|]. split; [by left|done]. }
  cbv zeta in Hr. case_decide as Hsol; injection Hr as -> ->.
  - split; [apply NoDup_singleton|]. split; [by intros x ->%list_elem_of_singleton|].
    split; [by right|done].
  - split; [apply decode_nodes_NoDup|]. split; [apply decode_nodes_is_node|].
    split; [by right|done].
Qed.

End Guarantees.

(** ** The outcome and the files of [save_kmst_results] *)

Example save_one :
  save_kmst_results [C; Cand 0] [(C, Cand 0, 10%float)] one_candidate origin 2 "output" =
  ([MakeDirs "output";
    NodesToFile "output" "nodes.geojson"
      [{| nf_geometry := Point 10 0; nf_node_id := Cand 0; nf_selected := true |};
       {| nf_geometry := Point 0 0; nf_node_id := C; nf_selected := true |}];
    EdgesToFile "output" "edges.geojson"
      [{| ef_geometry := LineString (0, 0)%float (10, 0)%float;
          ef_node1 := C; ef_node2 := Cand 0; ef_weight := 10 |}];
    WriteSummary "output" "summary.txt"
      {| summary_k := 2; nodes_selected := 2; edges_selected := 1;
         total_weight := PyFloat 10; summary_c_coords := origin |};
    PrintSaved "Results saved to output/: nodes.geojson, edges.geojson, summary.txt"],
   Saved).
Proof. vm_compute. reflexivity. Qed.

Lemma getxy_is_Some (p : Position) : is_Some (getxy p) <-> 2 <= length p.
Proof.
  destruct p as [|x [|y p]]; simpl; split; try (intros [? [=]]); try lia; by eexists.
Qed.

Lemma getxy_None (p : Position) : getxy p = None <-> length p < 2.
Proof.
  destruct p as [|x [|y p]]; simpl; split; try done; lia.
Qed.

Lemma elem_of_selected_set (selected_nodes : list Node) (i : nat) :
  i ∈ selected_set_of selected_nodes <-> Cand i ∈ selected_nodes.
Proof.
  unfold selected_set_of. rewrite elem_of_list_to_set, list_elem_of_omap. split.
  - intros ([|j] & Hj & [=]). by subst.
  - intros H. by exists (Cand i).
Qed.

Lemma nodes_features_is_Some (selected_nodes : list Node) (coords : list Position)
    (c_coords : Position) :
  is_Some (nodes_features_of selected_nodes coords c_coords) <-> plottable coords c_coords.
Proof.
  unfold nodes_features_of, plottable.
  assert (Hrows : is_Some (mapM (node_feature (selected_set_of selected_nodes))
                            (enumerate coords))
                  <-> Forall (fun p : Position => 2 <= length p) coords).
  { rewrite mapM_is_Some, !Forall_forall. split.
    - intros H p Hp. apply list_elem_of_lookup in Hp as [i Hi].
      specialize (H (i, p) (proj2 (elem_of_enumerate coords i p) Hi)).
      unfold node_feature in H. simpl in H. apply getxy_is_Some.
      destruct (getxy p); [by eexists|by destruct H].
    - intros H [i p] Hip%elem_of_enumerate. unfold node_feature. simpl.
      destruct (proj2 (getxy_is_Some p)) as [xy ->]; [|by eexists].
      apply H. by eapply list_elem_of_lookup_2. }
  rewrite <- Hrows, <- getxy_is_Some.
  destruct (mapM _ (enumerate coords)) as [rows|]; simpl.
  - destruct (getxy c_coords); simpl; split.
    + intros _. split; by eexists.
    + intros _. by eexists.
    + by intros [? [=]].
    + by intros [[? [=]] _].
  - split; [by intros [? [=]]|by intros [_ [? [=]]]].
Qed.

Lemma endpoint_position_is_Some (coords : list Position) (c_coords : Position) (n : Node) :
  is_Some (endpoint_position coords c_coords n) <-> is_node (length coords) n.
Proof.
  destruct n as [|i]; simpl.
  - split; [done|by eexists].
  - apply lookup_lt_is_Some.
Qed.

Lemma edge_feature_is_Some (coords : list Position) (c_coords : Position) (e : Edge) :
  plottable coords c_coords ->
  is_Some (edge_feature coords c_coords e) <->
  is_node (length coords) e.1.1 /\ is_node (length coords) e.1.2.
Proof.
  intros [Hc Hall]. destruct e as [[a b] w]. unfold edge_feature. cbn [fst snd].
  rewrite <- !(endpoint_position_is_Some coords c_coords).
  assert (Hxy : forall n p, endpoint_position coords c_coords n = Some p -> is_Some (getxy p)).
  { intros [|i] p Hp; apply getxy_is_Some; simpl in Hp.
    - by injection Hp as <-.
    - by apply (proj1 (Forall_lookup _ _) Hall i p). }
  destruct (endpoint_position coords c_coords a) as [p1|] eqn:H1; simpl.
  2:{ split; [by intros [? [=]]|by intros [[? [=]] _]]. }
  destruct (endpoint_position coords c_coords b) as [p2|] eqn:H2; simpl.
  2:{ split; [by intros [? [=]]|by intros [_ [? [=]]]]. }
  destruct (Hxy a p1 H1) as [xy1 ->]. destruct (Hxy b p2 H2) as [xy2 ->]. simpl.
  split; [intros _; split; by eexists|intros _; by eexists].
Qed.

Lemma edges_features_is_Some (coords : list Position) (c_coords : Position)
    (selected_edges : list Edge) :
  plottable coords c_coords ->
  is_Some (mapM (edge_feature coords c_coords) selected_edges) <->
  forall e, e ∈ selected_edges ->
    is_node (length coords) e.1.1 /\ is_node (length coords) e.1.2.
Proof.
  intros Hp. rewrite mapM_is_Some, Forall_forall.
  split; intros H e He; by apply (edge_feature_is_Some coords c_coords e Hp), H.
Qed.

Lemma save_Saved_iff (selected_nodes : list Node) (selected_edges : list Edge)
    (coords : list Position) (c_coords : Position) (k : Z) (output_folder : string) :
  (save_kmst_results selected_nodes selected_edges coords c_coords k output_folder).2 = Saved
  <-> plottable coords c_coords /\
      forall e, e ∈ selected_edges ->
        is_node (length coords) e.1.1 /\ is_node (length coords) e.1.2.
Proof.
  unfold save_kmst_results.
  pose proof (nodes_features_is_Some selected_nodes coords c_coords) as Hnodes.
  destruct (nodes_features_of selected_nodes coords c_coords) as [rows|].
  - assert (Hp : plottable coords c_coords) by (apply Hnodes; by eexists).
    pose proof (edges_features_is_Some coords c_coords selected_edges Hp) as Hedges.
    destruct (mapM (edge_feature coords c_coords) selected_edges) as [erows|]; cbn [snd].
    + split; [intros _; split; [done|apply Hedges; by eexists]|done].
    + split; [done|]. intros [_ He]. apply Hedges in He. by destruct He.
  - cbn [snd]. split; [done|]. intros [Hp _]. apply Hnodes in Hp. by destruct Hp.
Qed.

Lemma save_short_position (selected_nodes : list Node) (selected_edges : list Edge)
    (coords : list Position) (c_coords : Position) (k : Z) (output_folder : string) :
  ~ plottable coords c_coords ->
  save_kmst_results selected_nodes selected_edges coords c_coords k output_folder
  = ([MakeDirs output_folder], IndexError).
Proof.
  intros Hp. unfold save_kmst_results.
  pose proof (nodes_features_is_Some selected_nodes coords c_coords) as Hnodes.
  destruct (nodes_features_of selected_nodes coords c_coords) as [rows|]; [|done].
  exfalso. apply Hp, Hnodes. by eexists.
Qed.

(** X11: how [save_kmst_results] ends. It returns, after the five events in
    their order, exactly when every position has a first and a second
    component and every endpoint of an edge is the root or an index into
    [coords].  When a position is too short it raises after creating the
    folder and before writing anything; when the positions are fine and an
    endpoint is out of range it raises after the node file has been written
    and before the edge file. *)
Theorem X11_save_outcome (selected_nodes : list Node) (selected_edges : list Edge)
    (coords : list Position) (c_coords : Position) (k : Z) (output_folder : string) :
  let out := save_kmst_results selected_nodes selected_edges coords c_coords k output_folder in
  let endpoints_ok := forall e, e ∈ selected_edges ->
                        is_node (length coords) e.1.1 /\ is_node (length coords) e.1.2 in
  (out.2 = Saved <-> plottable coords c_coords /\ endpoints_ok) /\
  (out.2 = Saved ->
   exists nodes_rows edges_rows summary,
     out.1 = [MakeDirs output_folder;
              NodesToFile output_folder "nodes.geojson" nodes_rows;
              EdgesToFile output_folder "edges.geojson" edges_rows;
              WriteSummary output_folder "summary.txt" summary;
              PrintSaved (saved_msg output_folder)]) /\
  (~ plottable coords c_coords -> out = ([MakeDirs output_folder], IndexError)) /\
  (plottable coords c_coords -> ~ endpoints_ok ->
   exists nodes_rows,
     out = ([MakeDirs output_folder;
             NodesToFile output_folder "nodes.geojson" nodes_rows], IndexError)).
Proof.
  intros out endpoints_ok. unfold out, save_kmst_results.
  pose proof (nodes_features_is_Some selected_nodes coords c_coords) as Hnodes.
  destruct (nodes_features_of selected_nodes coords c_coords) as [rows|].
  - assert (Hp : plottable coords c_coords) by (apply Hnodes; by eexists).
    pose proof (edges_features_is_Some coords c_coords selected_edges Hp) as Hedges.
    fold endpoints_ok in Hedges.
    destruct (mapM (edge_feature coords c_coords) selected_edges) as [erows|]; cbn [fst snd].
    + assert (He : endpoints_ok) by (apply Hedges; by eexists).
      split; [done|]. split; [intros _; by eexists _, _, _|]. split; [done|done].
    + assert (He : ~ endpoints_ok) by (intros He; apply Hedges in He; by destruct He).
      split; [split; [done|tauto]|]. split; [done|]. split; [done|].
      intros _ _. by eexists.
  - assert (Hp : ~ plottable coords c_coords) by (intros Hp; apply Hnodes in Hp; by destruct Hp).
    cbn [fst snd]. split; [split; [done|tauto]|]. split; [done|]. split; [done|]. done.
Qed.

(** The rows of the node frame. *)
Lemma nodes_features_rows (selected_nodes : list Node) (coords : list Position)
    (c_coords : Position) (rows : list NodeFeature) :
  nodes_features_of selected_nodes coords c_coords = Some rows ->
  length rows = length coords + 1 /\
  (forall i row, i < length coords -> rows !! i = Some row ->
     nf_node_id row = Cand i /\
     (nf_selected row = true <-> Cand i ∈ selected_nodes) /\
     exists p xy, coords !! i = Some p /\ getxy p = Some xy /\
                  nf_geometry row = Point xy.1 xy.2) /\
  (exists xy, getxy c_coords = Some xy /\
     rows !! length coords =
       Some {| nf_geometry := Point xy.1 xy.2; nf_node_id := C; nf_selected := true |}).
Proof.
  unfold nodes_features_of. intros H.
  destruct (mapM _ (enumerate coords)) as [rows'|] eqn:Hrows; [|done]. simpl in H.
  destruct (getxy c_coords) as [xy|] eqn:Hxy; [|done]. injection H as <-.
  pose proof (length_mapM _ _ _ Hrows) as Hlen.
  unfold enumerate in Hlen. rewrite length_imap in Hlen.
  split; [rewrite length_app; simpl; lia|]. split.
  - intros i row Hi Hrow. rewrite lookup_app_l in Hrow by lia.
    apply mapM_Some_1 in Hrows.
    destruct (Forall2_lookup_r _ _ _ _ _ Hrows Hrow) as ([i' p] & Hip & Hf).
    unfold enumerate in Hip. rewrite list_lookup_imap in Hip.
    destruct (coords !! i) as [p'|] eqn:Hp; [|done]. injection Hip as <- <-.
    unfold node_feature in Hf. simpl in Hf.
    destruct (getxy p') as [xy'|] eqn:Hxy'; [|done]. injection Hf as <-. simpl.
    split; [done|]. split.
    + by rewrite bool_decide_eq_true, elem_of_selected_set.
    + by exists p', xy'.
  - exists xy. split; [done|]. rewrite lookup_app_r by lia.
    by replace (length coords - length rows') with 0 by lia.
Qed.

(** X12: what the node file holds. It has one row for each candidate, in the
    order of [coords], and the root's row last; the row of candidate i is
    flagged selected exactly when i is among the selected nodes, and the
    root's row is flagged selected whatever the selected nodes are. *)
Theorem X12_node_rows (selected_nodes : list Node) (selected_edges : list Edge)
    (coords : list Position) (c_coords : Position) (k : Z) (output_folder : string) :
  plottable coords c_coords ->
  exists rows,
    NodesToFile output_folder "nodes.geojson" rows ∈
      (save_kmst_results selected_nodes selected_edges coords c_coords k output_folder).1 /\
    length rows = length coords + 1 /\
    (forall i row, i < length coords -> rows !! i = Some row ->
       nf_node_id row = Cand i /\
       (nf_selected row = true <-> Cand i ∈ selected_nodes) /\
       exists p xy, coords !! i = Some p /\ getxy p = Some xy /\
                    nf_geometry row = Point xy.1 xy.2) /\
    (exists xy, getxy c_coords = Some xy /\
       rows !! length coords =
         Some {| nf_geometry := Point xy.1 xy.2; nf_node_id := C; nf_selected := true |}).
Proof.
  intros Hp. destruct (proj2 (nodes_features_is_Some selected_nodes coords c_coords) Hp)
    as [rows Hrows].
  exists rows. split.
  - unfold save_kmst_results. rewrite Hrows.
    destruct (mapM _ selected_edges); simpl; rewrite !elem_of_cons; auto.
  - by apply nodes_features_rows.
Qed.

(** ** Saving what [milp_kmst] returns *)

Lemma elem_of_decode_nodes (num_nodes : nat) (X : Var -> Q) (i : nat) :
  Cand i ∈ decode_nodes num_nodes X <->
  i < num_nodes /\ gt_half (X (node_var (Cand i))) = true.
Proof.
  unfold decode_nodes. rewrite elem_of_cons, list_elem_of_fmap. split.
  - intros [[=]|(j & [= <-] & Hj)]. apply list_elem_of_filter in Hj as [Hj Hi%elem_of_seq].
    split; [lia|done].
  - intros [Hi Hsel]. right. exists i. split; [done|].
    apply list_elem_of_filter. split; [done|]. apply elem_of_seq. lia.
Qed.

Lemma shapes_accepted_plottable (coords : list Position) (c_coords : Position) :
  shapes_accepted coords c_coords ->
  plottable coords c_coords <-> well_shaped coords c_coords.
Proof.
  intros (Hc & Hall & _). unfold plottable, well_shaped. rewrite !Forall_forall in *.
  split.
  - intros [_ H]. split; [done|]. intros p Hp. specialize (Hall p Hp). specialize (H p Hp). lia.
  - intros [_ H]. split; [lia|]. intros p Hp. specialize (H p Hp). lia.
Qed.

Section SaveResult.

Variable hypot : float -> float -> float.
Variable param_in_range : string -> float -> bool.

(** X13: a result of [milp_kmst] is saved without an exception exactly when
    every position has a first and a second component, whatever the solver
    returned; on an accepted count that is when all positions have two
    components, so an input with a candidate of one component goes through
    [milp_kmst] and then fails in [save_kmst_results], the folder created and
    nothing written. *)
Theorem X13_save_result (coords : list Position) (c_coords : Position) (k k_saved : Z)
    (mip_gap time_limit : float) (solver : Model -> Solution)
    (selected_nodes : list Node) (selected_edges : list Edge) (output_folder : string) :
  (run solver (milp_kmst hypot param_in_range coords c_coords k mip_gap time_limit)).2 =
    Ok (selected_nodes, selected_edges) ->
  let out := save_kmst_results selected_nodes selected_edges coords c_coords k_saved
               output_folder in
  (out.2 = Saved <-> plottable coords c_coords) /\
  (~ plottable coords c_coords -> out = ([MakeDirs output_folder], IndexError)) /\
  (1 <= length coords <= 1500 ->
   shapes_accepted coords c_coords /\
   (plottable coords c_coords <-> well_shaped coords c_coords)).
Proof.
  intros Hrun out.
  pose proof (run_result_endpoints hypot param_in_range _ _ _ _ _ _ _ _ Hrun) as Hends.
  split; [|split; [apply save_short_position|]].
  - unfold out. rewrite save_Saved_iff. split; [tauto|]. intros Hp. split; [done|].
    intros e He. destruct (Hends e He) as (H1 & H2 & _). done.
  - intros Hn.
    assert (Hacc : shapes_accepted coords c_coords).
    { apply (pruned_edges_is_Ok hypot).
      apply run_milp_kmst_Ok in Hrun as [[Hr _]|(_ & _ & edges & HE & _)]; [lia|].
      by exists edges. }
    split; [done|]. by apply shapes_accepted_plottable.
Qed.

(** X14: the files of a feasible solution. On an accepted input of
    two-component positions that reaches the solver (finite weights,
    parameters that Gurobi takes), saving the result of a feasible solution
    with the k that was asked for writes a node file whose row i is flagged selected
    exactly when the solver's value for candidate i is above 0.5, an edge file
    of k' - 1 rows, and a summary that records the k asked for next to the
    counts k' and k' - 1 of the clamped k. *)
Theorem X14_saved_solution (coords : list Position) (c_coords : Position) (k : Z)
    (mip_gap time_limit : float) (edges : list Edge) (solver : Model -> Solution)
    (output_folder : string) :
  let k' := clamp_k k (length coords) in
  let m := build_model edges (length coords) k' mip_gap time_limit in
  1 <= length coords <= 1500 ->
  plottable coords c_coords ->
  pruned_edges hypot coords c_coords = Ok edges ->
  params_accepted param_in_range mip_gap time_limit = true ->
  finite_weights edges = true ->
  SolCount (solver m) <> 0 ->
  feasible m (X (solver m)) ->
  exists selected_nodes selected_edges nodes_rows edges_rows,
    (run solver (milp_kmst hypot param_in_range coords c_coords k mip_gap time_limit)).2 =
      Ok (selected_nodes, selected_edges) /\
    save_kmst_results selected_nodes selected_edges coords c_coords k output_folder =
      ([MakeDirs output_folder;
        NodesToFile output_folder "nodes.geojson" nodes_rows;
        EdgesToFile output_folder "edges.geojson" edges_rows;
        WriteSummary output_folder "summary.txt"
          {| summary_k := k;
             nodes_selected := Z.to_nat k';
             edges_selected := Z.to_nat (k' - 1);
             total_weight := py_sum (map (fun edge : Edge => edge.2) selected_edges);
             summary_c_coords := c_coords |};
        PrintSaved (saved_msg output_folder)], Saved) /\
    length edges_rows = Z.to_nat (k' - 1) /\
    (forall i row, i < length coords -> nodes_rows !! i = Some row ->
       (nf_selected row = true <-> gt_half (X (solver m) (node_var (Cand i))) = true)).
Proof.
  intros k' m Hn Hp HE Hpar Hfin Hsol Hfeas.
  pose proof (run_milp_kmst_accepted hypot param_in_range _ _ k mip_gap time_limit edges solver
                Hn HE Hpar Hfin) as Hrun.
  cbv zeta in Hrun. fold k' m in Hrun. rewrite decide_False in Hrun by done.
  set (selected_nodes := decode_nodes (length coords) (X (solver m))) in *.
  set (selected_edges := decode_edges edges (X (solver m))) in *.
  assert (Hres : (run solver (milp_kmst hypot param_in_range coords c_coords k mip_gap time_limit)).2 =
                 Ok (selected_nodes, selected_edges)) by (by rewrite Hrun).
  pose proof (pruned_edges_wf hypot _ _ _ HE) as Hwf.
  pose proof (feasible_nodes_count _ _ _ _ _ _ Hwf Hfeas) as Hcn.
  pose proof (feasible_edges_count _ _ _ _ _ _ Hwf Hfeas) as Hce.
  fold selected_nodes in Hcn. fold selected_edges in Hce.
  destruct (proj2 (nodes_features_is_Some selected_nodes coords c_coords) Hp)
    as [nodes_rows Hrows].
  pose proof (run_result_endpoints hypot param_in_range _ _ _ _ _ _ _ _ Hres) as Hends.
  destruct (proj2 (edges_features_is_Some coords c_coords selected_edges Hp))
    as [edges_rows Herows].
  { intros e He. destruct (Hends e He) as (H1 & H2 & _). done. }
  exists selected_nodes, selected_edges, nodes_rows, edges_rows.
  split; [done|]. split.
  - unfold save_kmst_results. rewrite Hrows, Herows.
    replace (length selected_nodes) with (Z.to_nat k') by lia.
    replace (length selected_edges) with (Z.to_nat (k' - 1)) by lia. done.
  - split.
    + apply length_mapM in Herows. lia.
    + intros i row Hi Hrow.
      destruct (nodes_features_rows _ _ _ _ Hrows) as (_ & Hrow_i & _).
      destruct (Hrow_i i row Hi Hrow) as (_ & Hflag & _). rewrite Hflag.
      unfold selected_nodes. rewrite elem_of_decode_nodes. tauto.
Qed.

End SaveResult.

(** ** Distances that are not a number *)

Lemma ltb_nan_r (x : float) : PrimFloat.ltb x nan = false.
Proof. rewrite ltb_spec. unfold SFltb. by destruct (Prim2SF x). Qed.

Lemma ltb_nan_l (x : float) : PrimFloat.ltb nan x = false.
Proof. rewrite ltb_spec. reflexivity. Qed.

Lemma leb_nan_r (x : float) : PrimFloat.leb x nan = false.
Proof. rewrite leb_spec. unfold SFleb. by destruct (Prim2SF x). Qed.

Lemma pymax_nan_l (d : float) : pymax nan d = nan.
Proof. unfold pymax. by rewrite ltb_nan_l. Qed.

Lemma pymax_nan_r (d : float) : pymax d nan = d.
Proof. unfold pymax. by rewrite ltb_nan_r. Qed.

Section NaN.

Variable hypot : float -> float -> float.

(** X16: pruning with a distance to the root that is not a number. For two
    candidates i < j, the pair is never kept when the distance of i to the
    root is NaN; when only the distance of j is NaN, the pair is kept exactly
    when its weight is at most the distance of i to the root. *)
Theorem X16_nan_distance (coords : list Position) (c_coords : Position)
    (edges : list Edge) (distances_to_root : gmap Node float) (i j : nat) :
  pruned_edges hypot coords c_coords = Ok edges ->
  distances_to_root_of hypot (nodes_of (length coords))
    (node_positions_of coords c_coords) = Ok distances_to_root ->
  i < j < length coords ->
  (distances_to_root !! Cand i = Some nan ->
   forall w, (Cand i, Cand j, w) ∉ edges) /\
  (forall di, distances_to_root !! Cand i = Some di ->
     distances_to_root !! Cand j = Some nan ->
     forall w, (Cand i, Cand j, w) ∈ edges <->
       (exists p q, coords !! i = Some p /\ coords !! j = Some q /\
                    _euclid hypot p q = Ok w) /\
       PrimFloat.leb w di = true).
Proof.
  intros HE Hd Hij.
  destruct (pruned_edges_elem hypot _ _ _ HE) as (d' & Hd' & Hel).
  assert (d' = distances_to_root) as -> by congruence.
  split.
  - intros Hnan w Hin. apply Hel in Hin as (_ & _ & _ & p1 & p2 & _ & _ & _ & Hkeep).
    destruct Hkeep as [?|[?|(d1 & d2 & H1 & H2 & Hle)]]; [done..|].
    assert (d1 = nan) as -> by congruence.
    by rewrite pymax_nan_l, leb_nan_r in Hle.
  - intros di Hdi Hnan w. rewrite Hel. unfold kept. rewrite !node_positions_Cand. split.
    + intros (_ & _ & _ & p1 & p2 & Hp1 & Hp2 & Hw & Hkeep).
      split; [by exists p1, p2|].
      destruct Hkeep as [?|[?|(d1 & d2 & H1 & H2 & Hle)]]; [done..|].
      assert (d1 = di) as -> by congruence. assert (d2 = nan) as -> by congruence.
      by rewrite pymax_nan_r in Hle.
    + intros [(p & q & Hp & Hq & Hw) Hle]. simpl.
      split; [lia|]. split; [lia|]. split; [lia|].
      exists p, q. do 3 (split; [done|]). right. right.
      exists di, nan. by rewrite pymax_nan_r.
Qed.

End NaN.

(** ** The script *)

Section ScriptFacts.

Variable hypot : float -> float -> float.
Variable param_in_range : string -> float -> bool.

Lemma script_rejected (solver : Model -> Solution) (coords : list Position)
    (c_coords : Position) (k : Z) (mip_gap time_limit : float) :
  length coords = 0 \/ 1500 < length coords ->
  script hypot param_in_range solver coords c_coords k mip_gap time_limit =
  ([FromSolve (Printed (if decide (length coords = 0)
                        then no_candidates_msg else capacity_msg));
    PrintResult [] []; PrintNotSaved not_saved_msg], Finished).
Proof. intros H. unfold script. by rewrite run_milp_kmst_rejected. Qed.

(** X15: the script. It saves nothing unless the result has an edge: on a
    rejected count it prints the diagnostic, the empty result and the closing
    message; on an accepted input of two-component positions, when Gurobi
    refuses a parameter or a weight the script ends in its [GurobiError],
    nothing printed after the diagnostics of [milp_kmst] and nothing saved;
    when the input reaches the solver, and the solver reports no solution or
    a feasible one, the script finishes, and it calls [save_kmst_results]
    exactly when a solution was found and the clamped k is at least 2;
    otherwise its last line is the closing message "No solution found or
    problem infeasible.", also when the root alone was the solution found
    for k' = 1. *)
Theorem X15_script (solver : Model -> Solution) (coords : list Position)
    (c_coords : Position) (k : Z) (mip_gap time_limit : float) (edges : list Edge) :
  let k' := clamp_k k (length coords) in
  let m := build_model edges (length coords) k' mip_gap time_limit in
  let out := script hypot param_in_range solver coords c_coords k mip_gap time_limit in
  (length coords = 0 \/ 1500 < length coords ->
   out = ([FromSolve (Printed (if decide (length coords = 0)
                               then no_candidates_msg else capacity_msg));
           PrintResult [] []; PrintNotSaved not_saved_msg], Finished)) /\
  (1 <= length coords <= 1500 ->
   pruned_edges hypot coords c_coords = Ok edges ->
   params_accepted param_in_range mip_gap time_limit && finite_weights edges = false ->
   out = (FromSolve <$> (if (Z.of_nat (length coords) <? k)%Z
                         then [Printed (not_feasible_msg (length coords) k)] else []),
          RaisedInSolve GurobiError)) /\
  (1 <= length coords <= 1500 ->
   well_shaped coords c_coords ->
   pruned_edges hypot coords c_coords = Ok edges ->
   params_accepted param_in_range mip_gap time_limit = true ->
   finite_weights edges = true ->
   (SolCount (solver m) <> 0 -> feasible m (X (solver m))) ->
   out.2 = Finished /\
   (Exists is_FromSave out.1 <-> SolCount (solver m) <> 0 /\ (2 <= k')%Z) /\
   (~ Exists is_FromSave out.1 -> last out.1 = Some (PrintNotSaved not_saved_msg)) /\
   (Exists is_FromSave out.1 ->
    last out.1 = Some (FromSave (PrintSaved (saved_msg "output"))))).
Proof.
  intros k' m out. split; [apply script_rejected|]. split.
  { intros Hn HE Hno. unfold out, script.
    by rewrite (run_milp_kmst_refused hypot param_in_range _ _ _ _ _ edges) by done. }
  intros Hn Hws HE Hpar Hfin Hsound. unfold out, script.
  rewrite (run_milp_kmst_accepted hypot param_in_range _ _ _ _ _ edges) by done. fold k' m.
  set (prefix := (if (Z.of_nat (length coords) <? k)%Z
                  then [Printed (not_feasible_msg (length coords) k)] else [])
                 ++ [Optimized m]).
  assert (Hprefix : ~ Exists is_FromSave (FromSolve <$> prefix)).
  { rewrite Exists_exists. intros (ev & (ev' & -> & _)%list_elem_of_fmap & Hev). done. }
  case_decide as Hsol.
  - (* no solution *)
    rewrite decide_False by (simpl; lia). cbn [fst snd].
    assert (Hno : ~ Exists is_FromSave
              (((FromSolve <$> prefix) ++ [PrintResult [C] []])
               ++ [PrintNotSaved not_saved_msg])).
    { rewrite !Exists_app, !Exists_cons, !Exists_nil. simpl. tauto. }
    split; [done|]. split; [split; [done|tauto]|]. split; [|done].
    intros _. by rewrite last_snoc.
  - specialize (Hsound Hsol). pose proof (pruned_edges_wf hypot _ _ _ HE) as Hwf.
    pose proof (feasible_edges_count _ _ _ _ _ _ Hwf Hsound) as Hce.
    set (selected_nodes := decode_nodes (length coords) (X (solver m))) in *.
    set (selected_edges := decode_edges edges (X (solver m))) in *.
    case_decide as Hlen.
    + (* saved *)
      assert (Hp : plottable coords c_coords).
      { destruct Hws as [Hc Hall]. split; [lia|]. eapply Forall_impl; [exact Hall|].
        simpl. intros p Hpl. lia. }
      assert (Hres : (run solver (milp_kmst hypot param_in_range coords c_coords k mip_gap time_limit)).2
                     = Ok (selected_nodes, selected_edges)).
      { rewrite (run_milp_kmst_accepted hypot param_in_range _ _ _ _ _ edges) by done. fold k' m.
        by rewrite decide_False. }
      pose proof (run_result_endpoints hypot param_in_range _ _ _ _ _ _ _ _ Hres) as Hends.
      unfold save_kmst_results.
      destruct (proj2 (nodes_features_is_Some selected_nodes coords c_coords) Hp)
        as [nodes_rows ->].
      destruct (proj2 (edges_features_is_Some coords c_coords selected_edges Hp))
        as [edges_rows ->].
      { intros e He. destruct (Hends e He) as (H1 & H2 & _). done. }
      cbn [fst snd].
      assert (Hyes : Exists is_FromSave
                (((FromSolve <$> prefix) ++ [PrintResult selected_nodes selected_edges]) ++
                 (FromSave <$> [MakeDirs "output";
                    NodesToFile "output" "nodes.geojson" nodes_rows;
                    EdgesToFile "output" "edges.geojson" edges_rows;
                    WriteSummary "output" "summary.txt"
                      {| summary_k := k;
                         nodes_selected := length selected_nodes;
                         edges_selected := length selected_edges;
                         total_weight := py_sum (map (fun edge : Edge => edge.2) selected_edges);
                         summary_c_coords := c_coords |};
                    PrintSaved (saved_msg "output")]))).
      { rewrite Exists_app. right. rewrite fmap_cons. by left. }
      split; [done|]. split; [split; [intros _; split; [done|lia]|done]|].
      split; [done|]. intros _.
      rewrite !fmap_cons, fmap_nil.
      change (?l ++ [?a; ?b; ?c; ?d; ?e]) with (l ++ [a; b; c; d] ++ [e]).
      by rewrite !app_assoc, last_snoc.
    + cbn [fst snd].
      assert (Hno : ~ Exists is_FromSave
                (((FromSolve <$> prefix) ++ [PrintResult selected_nodes selected_edges])
                 ++ [PrintNotSaved not_saved_msg])).
      { rewrite !Exists_app, !Exists_cons, !Exists_nil. simpl. tauto. }
      split; [done|]. split; [split; [done|intros [_ Hk]; lia]|]. split; [|done].
      intros _. by rewrite last_snoc.
Qed.

End ScriptFacts.

(** ** The further properties at concrete inputs *)

(** 1500 candidates at the root. *)
Lemma C10_witness :
  exists edges,
    pruned_edges hypot_sqrt (replicate 1500 origin) origin = Ok edges /\
    1500 <= length edges.
Proof.
  destruct (C10_capacity_boundary hypot_sqrt gurobi_range (replicate 1500 origin) origin 20
              gap limit) as [H _].
  destruct H as (edges & HE & Hlen & _).
  - apply length_replicate.
  - split; [reflexivity|]. apply Forall_replicate. reflexivity.
  - exists edges. split; [exact HE|exact Hlen].
Defined.

(** A one-component candidate next to a two-component root is accepted by
    the builder; a candidate at infinity is accepted by the builder and
    refused by Gurobi. *)
Lemma X4_witness :
  (exists edges, pruned_edges hypot_sqrt short_candidate root_0_7 = Ok edges) /\
  (run no_solution
     (milp_kmst hypot_sqrt gurobi_range infinite_candidate origin 1 gap limit)).2
    = Err GurobiError.
Proof.
  split.
  - apply (X4_accepted_shapes hypot_sqrt gurobi_range short_candidate root_0_7).
    split; [reflexivity|]. split; [repeat constructor|].
    intros i j p q Hij Hi Hj. destruct j as [|j]; [lia|]. discriminate Hj.
  - apply (X4_accepted_shapes hypot_sqrt gurobi_range infinite_candidate origin).
    + simpl. lia.
    + exists [(C, Cand 0, infinity)]. split; [vm_compute; reflexivity|].
      right. vm_compute. reflexivity.
Defined.

Lemma pruned_five_candidates :
  pruned_edges hypot_sqrt five_candidates origin = Ok five_edges.
Proof. vm_compute. reflexivity. Qed.

(** Five candidates on a line: all fifteen pairs are kept. *)
Lemma X5_witness :
  5 <= length five_edges /\
  2 * length five_edges <= 5 * (5 + 1) /\
  length (Vars (build_model five_edges 5 3 gap limit)) = 4 * length five_edges + 5 + 1 /\
  length (Constrs (build_model five_edges 5 3 gap limit)) = 7 * length five_edges + 5 + 4 /\
  length (Objective (build_model five_edges 5 3 gap limit)) = length five_edges /\
  length (BranchPriority (build_model five_edges 5 3 gap limit)) = 2 * length five_edges.
Proof.
  apply (X5_sizes hypot_sqrt five_candidates origin five_edges 3 gap limit).
  vm_compute. reflexivity.
Defined.

Lemma X6_witness :
  NoDup (declared_var <$> Vars (build_model five_edges 5 3 gap limit)).
Proof.
  apply (X6_model_variables hypot_sqrt five_candidates origin five_edges 3 gap limit).
  vm_compute. reflexivity.
Defined.

(** Five candidates and k = 3: the star on two candidates is feasible. *)
Lemma X7_witness :
  feasible (build_model five_edges 5 3 gap limit) (star 2).
Proof.
  apply (X7_feasibility hypot_sqrt five_candidates origin five_edges 3 gap limit).
  - vm_compute. reflexivity.
  - vm_compute. discriminate.
Defined.

(** Five candidates and k = 10: a candidate is left out. *)
Lemma X8_witness :
  exists selected_nodes selected_edges i,
    (run (star_solver 4) (milp_kmst hypot_sqrt gurobi_range five_candidates origin 10 gap limit)).2 =
      Ok (selected_nodes, selected_edges) /\
    length selected_nodes <= 5 /\ i < 5 /\ Cand i ∉ selected_nodes.
Proof.
  apply (X8_candidate_left_out hypot_sqrt gurobi_range five_candidates origin 10 gap limit
           five_edges (star_solver 4)).
  - simpl. lia.
  - vm_compute. reflexivity.
  - vm_compute. reflexivity.
  - vm_compute. reflexivity.
  - intros _. apply feasibleb_sound. vm_compute. reflexivity.
Defined.

(** A solver that reports the star on one candidate for k = 1, which is not
    feasible: the result is well formed all the same. *)
Lemma X9_witness :
  NoDup [C; Cand 0] /\
  (forall x, x ∈ [C; Cand 0] -> is_node 1 x).
Proof.
  destruct (X9_result_well_formed hypot_sqrt gurobi_range one_candidate origin 1 gap limit (star_solver 1)
              [C; Cand 0] [(C, Cand 0, 10%float)]) as (Hnd & Hnodes & _).
  - vm_compute. reflexivity.
  - split; [exact Hnd|exact Hnodes].
Defined.

(** Two plottable candidates, the second selected. *)
Lemma X12_witness :
  exists rows,
    NodesToFile "output" "nodes.geojson" rows ∈
      (save_kmst_results [C; Cand 1] [(C, Cand 1, 5%float)] two_candidates origin 2
         "output").1 /\
    length rows = 3.
Proof.
  destruct (X12_node_rows [C; Cand 1] [(C, Cand 1, 5%float)] two_candidates origin 2 "output")
    as (rows & Hin & Hlen & _).
  - split; [simpl; lia|]. repeat constructor.
  - exists rows. split; [exact Hin|exact Hlen].
Defined.

(** The one-component candidate goes through [milp_kmst] and then fails in
    [save_kmst_results]. *)
Lemma X13_witness :
  save_kmst_results [C] [] short_candidate root_0_7 1 "output"
  = ([MakeDirs "output"], IndexError).
Proof.
  apply (X13_save_result hypot_sqrt gurobi_range short_candidate root_0_7 1 1 gap limit no_solution
           [C] [] "output").
  - vm_compute. reflexivity.
  - intros [_ H]. apply Forall_inv in H. simpl in H. lia.
Defined.

(** Five candidates and k = 10: the summary records k: 10 next to
    nodes_selected: 5 and edges_selected: 4. *)
Lemma X14_witness :
  exists selected_nodes selected_edges nodes_rows edges_rows,
    save_kmst_results selected_nodes selected_edges five_candidates origin 10 "output" =
      ([MakeDirs "output";
        NodesToFile "output" "nodes.geojson" nodes_rows;
        EdgesToFile "output" "edges.geojson" edges_rows;
        WriteSummary "output" "summary.txt"
          {| summary_k := 10;
             nodes_selected := 5;
             edges_selected := 4;
             total_weight := py_sum (map (fun edge : Edge => edge.2) selected_edges);
             summary_c_coords := origin |};
        PrintSaved (saved_msg "output")], Saved).
Proof.
  destruct (X14_saved_solution hypot_sqrt gurobi_range five_candidates origin 10 gap limit five_edges
              (star_solver 4) "output")
    as (selected_nodes & selected_edges & nodes_rows & edges_rows & _ & Hsave & _).
  - simpl. lia.
  - split; [simpl; lia|]. repeat constructor.
  - vm_compute. reflexivity.
  - vm_compute. reflexivity.
  - vm_compute. reflexivity.
  - simpl. lia.
  - apply feasibleb_sound. vm_compute. reflexivity.
  - exists selected_nodes, selected_edges, nodes_rows, edges_rows. exact Hsave.
Defined.

(** One candidate and k = 1: the root alone is found, and the script closes
    with its message, nothing saved. *)
Lemma X15_witness :
  (script hypot_sqrt gurobi_range (star_solver 0) one_candidate origin 1 gap limit).2 = Finished /\
  ~ Exists is_FromSave (script hypot_sqrt gurobi_range (star_solver 0) one_candidate origin 1 gap limit).1.
Proof.
  destruct (X15_script hypot_sqrt gurobi_range (star_solver 0) one_candidate origin 1 gap limit
              [(C, Cand 0, 10%float)]) as (_ & _ & H).
  destruct H as (Hfin & Hiff & _).
  - simpl. lia.
  - split; [reflexivity|]. repeat constructor.
  - vm_compute. reflexivity.
  - vm_compute. reflexivity.
  - vm_compute. reflexivity.
  - intros _. apply feasibleb_sound. vm_compute. reflexivity.
  - split; [exact Hfin|]. intros Hsave. apply Hiff in Hsave as [_ Hk].
    vm_compute in Hk. apply Hk. reflexivity.
Defined.

(** A first candidate whose distance to the root is NaN loses its edge to
    the second. *)
Lemma X16_witness :
  Forall (fun e : Edge => endpoints e <> (Cand 0, Cand 1))
    [(C, Cand 0, nan); (C, Cand 1, 1%float)].
Proof.
  apply Forall_forall. intros [[a b] w] He [= -> ->]. revert He.
  apply (X16_nan_distance hypot_sqrt nan_candidates origin
           [(C, Cand 0, nan); (C, Cand 1, 1%float)]
           (dict_of [(C, 0%float); (Cand 0, nan); (Cand 1, 1%float)]) 0 1).
  - vm_compute. reflexivity.
  - vm_compute. reflexivity.
  - simpl. lia.
  - vm_compute. reflexivity.
Defined.
